(** * petra: a filesystem-backed reverse HTTP cache

    A shallow embedding of [index.js] (the [FileLocker], the Cache-Control
    parser, the filesystem probe, the upstream fetcher, [fetch] and [purge])
    together with the properties its specification states about them.

    Conventions of the embedding.
    - JavaScript numbers that carry integer quantities (seconds, epoch
      milliseconds, byte sizes, HTTP status codes) are values of [Z].
    - Paths, URLs, header values and messages are [string]s; template
      literals are string concatenations ([+:+]) with [pretty] for numbers.
    - [locker.lockedFiles] (a JS [Map]) and the file system are [gmap]s keyed
      by path.
    - The callbacks the source registers with the event loop ([fs.stat],
      [fs.rename], the HTTP client, the response timer, stream listeners ...)
      are defunctionalised into [task]s that carry the variables their
      closure captured; the environment completes one task at a time
      ([event]), which runs the body of the corresponding callback. *)

From stdpp Require Import gmap strings list fin_maps pretty.
From Stdlib Require Import ZArith Lia Ascii String.

Open Scope Z_scope.

(** ** JavaScript values that can reach the header parser *)

Inductive jsvalue :=
| JUndefined
| JNull
| JBoolean (b : bool)
| JNumber (n : Z)
| JString (s : string)
| JArray (l : list string).

(** [`${v}`] for the values interpolated by the source. *)
Definition template (v : jsvalue) : string :=
  match v with
  | JUndefined => "undefined"
  | JNull => "null"
  | JBoolean b => if b then "true" else "false"
  | JNumber n => pretty n
  | JString s => s
  | JArray l => String.concat "," l
  end.

(** ** Strings: [indexOf] and the two regular expressions *)

Module Str.

Fixpoint drop (n : nat) (s : string) : string :=
  match n, s with
  | O, _ => s
  | S n', String _ s' => drop n' s'
  | S _, EmptyString => EmptyString
  end.

(** [s.indexOf(needle)], counted from position [i] of the original string. *)
Fixpoint index_from (needle s : string) (i : Z) : Z :=
  if String.prefix needle s then i
  else match s with
       | EmptyString => -1
       | String _ s' => index_from needle s' (i + 1)
       end.

Definition indexOf (s needle : string) : Z := index_from needle s 0.

Definition is_digit (c : ascii) : bool :=
  (48 <=? nat_of_ascii c)%nat && (nat_of_ascii c <=? 57)%nat.

(** The longest run of [[0-9]] at the head of [s]: what a greedy [[0-9]+]
    (or [[0-9]*]) consumes. *)
Fixpoint digits_prefix (s : string) : string :=
  match s with
  | String c s' => if is_digit c then String c (digits_prefix s') else EmptyString
  | EmptyString => EmptyString
  end.

(** An attempt of the pattern [/<d>([0-9]+)/] anchored at the head of [s];
    the result is capture group 1. *)
Definition match_here (d s : string) : option string :=
  if String.prefix d s then
    match digits_prefix (drop (String.length d) s) with
    | EmptyString => None
    | ds => Some ds
    end
  else None.

(** [s.match(/<d>([0-9]+)/)]: the regular expression engine tries every
    start position from left to right and keeps the first success; [None]
    is JavaScript's [null]. *)
Fixpoint regex_match (d s : string) : option string :=
  match match_here d s with
  | Some ds => Some ds
  | None => match s with
            | String _ s' => regex_match d s'
            | EmptyString => None
            end
  end.

Definition digit_value (c : ascii) : Z := Z.of_nat (nat_of_ascii c) - 48.

Fixpoint parse_digits (acc : Z) (s : string) : Z :=
  match s with
  | String c s' => if is_digit c then parse_digits (10 * acc + digit_value c) s' else acc
  | EmptyString => acc
  end.

(** [parseInt(s, 10)] on a string that starts with a digit (the only use in
    the source: the capture of [[0-9]+]). *)
Definition parseInt (s : string) : Z := parse_digits 0 s.

(** What the specification's words mean, independently of the code above. *)

Definition substring_of (needle s : string) : Prop :=
  ∃ pre post, s = pre +:+ needle +:+ post.

Fixpoint all_digits (s : string) : Prop :=
  match s with
  | String c s' => is_digit c = true ∧ all_digits s'
  | EmptyString => True
  end.

Definition no_digit_head (s : string) : Prop :=
  match s with
  | String c _ => is_digit c = false
  | EmptyString => True
  end.

(** [d] followed by the maximal digit run [ds] occurs in [s] right after
    the prefix [pre]. *)
Definition occurs (d s pre ds : string) : Prop :=
  ∃ post, s = pre +:+ d +:+ ds +:+ post
          ∧ ds ≠ EmptyString ∧ all_digits ds ∧ no_digit_head post.

(** [ds] is the number of the first (leftmost) [d]N in [s]. *)
Definition first_match (d s ds : string) : Prop :=
  ∃ pre, occurs d s pre ds
         ∧ ∀ pre' ds', occurs d s pre' ds' → (String.length pre ≤ String.length pre')%nat.

Definition no_match (d s : string) : Prop := ∀ pre ds, ¬ occurs d s pre ds.

End Str.

(** ** [ttlFromCacheControlHeader] *)

Definition ttlFromCacheControlHeader (cacheControlHeader : jsvalue) : Z :=
  match cacheControlHeader with
  | JString h =>
      if (Str.indexOf h "no-cache" =? -1) && (Str.indexOf h "private" =? -1) then
        match Str.regex_match "s-maxage=" h with
        | Some smaxage => Str.parseInt smaxage
        | None =>
            match Str.regex_match "max-age=" h with
            | Some maxage => Str.parseInt maxage
            | None => 0
            end
        end
      else 0
  | _ => 0
  end.

(** ** [FileLocker] *)

Module FileLocker.
Section Locker.

(** The type of the [proceed] continuations handed to [lock]. *)
Context {P : Type}.

Record entry := Entry { lastUpdated : Z; onRelease : list P }.

(** [lock(file, proceed)] at wall-clock time [now]: the new [lockedFiles]
    and the continuation that the call invokes before it returns, if any. *)
Definition lock (file : string) (proceed : P) (now : Z)
    (lockedFiles : gmap string entry) : gmap string entry * option P :=
  match lockedFiles !! file with
  | Some e =>
      (* Added request to existing lock *)
      (<[file := Entry (lastUpdated e) (onRelease e ++ [proceed])]> lockedFiles, None)
  | None =>
      (* Create new lock for file, allow this first request to proceed *)
      (<[file := Entry now []]> lockedFiles, Some proceed)
  end.

(** [unlock(file)] at wall-clock time [now]. *)
Definition unlock (file : string) (now : Z)
    (lockedFiles : gmap string entry) : gmap string entry * option P :=
  match lockedFiles !! file with
  | Some e =>
      match onRelease e with
      | next :: waiting =>
          (* Transfer lock: onRelease.shift()() *)
          (<[file := Entry now waiting]> lockedFiles, Some next)
      | [] =>
          (* Remove empty lock *)
          (delete file lockedFiles, None)
      end
  | None => (lockedFiles, None)
  end.

(** A sequence of calls on the one [locker]; each call reads the clock. *)
Inductive call :=
| Lock (file : string) (proceed : P) (now : Z)
| Unlock (file : string) (now : Z).

Definition do_call (c : call) (lockedFiles : gmap string entry)
    : gmap string entry * option P :=
  match c with
  | Lock file proceed now => lock file proceed now lockedFiles
  | Unlock file now => unlock file now lockedFiles
  end.

(** The table after the calls [cs], and the continuations they invoked, in
    order. *)
Fixpoint run_calls (cs : list call) (lockedFiles : gmap string entry)
    : gmap string entry * list P :=
  match cs with
  | [] => (lockedFiles, [])
  | c :: cs' =>
      let '(t, ran) := do_call c lockedFiles in
      let '(t', rans) := run_calls cs' t in
      (t', match ran with Some p => p :: rans | None => rans end)
  end.

(** [balanced_from k held cs]: with [held] callers of [lock(k)] that have not
    unlocked yet, every [unlock(k)] of [cs] is made by one of them, and none
    is left at the end. *)
Fixpoint balanced_from (k : string) (held : nat) (cs : list call) : bool :=
  match cs with
  | [] => Nat.eqb held 0
  | Lock file _ _ :: cs' =>
      if decide (file = k) then balanced_from k (S held) cs'
      else balanced_from k held cs'
  | Unlock file _ :: cs' =>
      if decide (file = k) then
        match held with
        | O => false
        | S h => balanced_from k h cs'
        end
      else balanced_from k held cs'
  end.

Definition balanced (k : string) (cs : list call) : Prop :=
  balanced_from k 0 cs = true.

(** The entry for [k] when [held] callers of [lock(k)] have not unlocked
    yet: none, or an entry whose queue has the other [held - 1] callers. *)
Definition tracks (k : string) (held : nat) (lockedFiles : gmap string entry) : Prop :=
  match held with
  | O => lockedFiles !! k = None
  | S waiting => ∃ e, lockedFiles !! k = Some e ∧ List.length (onRelease e) = waiting
  end.

End Locker.
Arguments entry : clear implicits.
Arguments call : clear implicits.
End FileLocker.

(** ** The file system, as far as the source looks at it

    A flat map from paths to [Stats].  The operations below say what each
    call does when nothing goes wrong underneath.  Where the source inspects
    the error of a call ([stat], [mkdir], [rename], [utimes]) the event that
    completes it may carry an error code of the environment's choice instead
    (see [faulty]); where the source discards the error ([unlink]) only the
    effect on the map is modelled. *)

Record stats := Stats { isFile : bool; size : Z; atime : Z; mtime : Z }.

Module Fs.

(** [fs.stat]: an error code or the [Stats]. *)
Definition stat (files : gmap string stats) (p : string) : string + stats :=
  match files !! p with
  | Some st => inr st
  | None => inl "ENOENT"
  end.

Definition mkdir (files : gmap string stats) (p : string) (now : Z)
    : gmap string stats * option string :=
  match files !! p with
  | Some _ => (files, Some "EEXIST")
  | None => (<[p := Stats false 0 now now]> files, None)
  end.

(** [fs.unlink]; every caller in the source discards its error. *)
Definition unlink (files : gmap string stats) (p : string) : gmap string stats :=
  match files !! p with
  | Some st => if isFile st then delete p files else files
  | None => files
  end.

Definition rename (files : gmap string stats) (from to : string)
    : gmap string stats * option string :=
  match files !! from with
  | Some st =>
      match files !! to with
      | Some st' =>
          if isFile st && negb (isFile st') then (files, Some "EISDIR")
          else if negb (isFile st) && isFile st' then (files, Some "ENOTDIR")
          else (<[to := st]> (delete from files), None)
      | None => (<[to := st]> (delete from files), None)
      end
  | None => (files, Some "ENOENT")
  end.

Definition utimes (files : gmap string stats) (p : string) (a m : Z)
    : gmap string stats * option string :=
  match files !! p with
  | Some st => (<[p := Stats (isFile st) (size st) a m]> files, None)
  | None => (files, Some "ENOENT")
  end.

(** [fs.createWriteStream(p)] opens [p] with flag [w]: created empty, or
    truncated. *)
Definition create (files : gmap string stats) (p : string) (now : Z)
    : gmap string stats :=
  match files !! p with
  | Some st => if isFile st then <[p := Stats true 0 (atime st) now]> files else files
  | None => <[p := Stats true 0 now now]> files
  end.

(** The bytes piped into the stream opened on [p], once flushed. *)
Definition written (files : gmap string stats) (p : string) (n : Z) (now : Z)
    : gmap string stats :=
  match files !! p with
  | Some st => if isFile st then <[p := Stats true n (atime st) now]> files else files
  | None => files
  end.

Definition is_file (files : gmap string stats) (p : string) : bool :=
  match files !! p with
  | Some st => isFile st
  | None => false
  end.

End Fs.

(** ** Errors, responses, options *)

(** A JavaScript [Error]: its [message] and its [code] property
    ([JUndefined] when the error has none). *)
Record jserror := JsError { message : string; code : jsvalue }.

Definition errorWithCode (message : string) (code : Z) : jserror :=
  JsError message (JNumber code).

(** [new Error(message)] *)
Definition newError (message : string) : jserror := JsError message JUndefined.

(** The parts of the upstream response the source reads:
    [res.statusCode], [res.headers['content-type']] and
    [res.headers['cache-control']]. *)
Record response := Response {
  statusCode : Z;
  contentType : jsvalue;
  cacheControl : jsvalue
}.

Record options := Options {
  cacheDirectory : string;
  minimumTtl : Z;
  mediaTypes : list string;
  requestTimeout : Z;
  responseTimeout : Z;
  userAgent : string;
  hash : string → string;
  debug : bool
}.

(** [path.join] of two already normalised components. *)
Definition join (a b : string) : string := a +:+ "/" +:+ b.

Definition _cachePath (o : options) (fingerprint : string) : string :=
  join (cacheDirectory o) (String.substring 0 2 fingerprint).

(** [mediaTypes.includes(v)] *)
Definition includes (l : list string) (v : jsvalue) : bool :=
  match v with
  | JString s => bool_decide (s ∈ l)
  | _ => false
  end.

(** ** Closures, pending callbacks, observations *)

(** The variables captured by the callbacks of one [fetch(url, done)] call;
    the caller's [done] is identified by a number. *)
Record fetch_call := FetchCall {
  url : string;
  cachePath : string;
  filename : string;
  done : nat
}.

(** The [proceed] closures passed to [locker.lock]. *)
Inductive proceed :=
| ProceedFetch (c : fetch_call)
| ProceedPurge (file : string) (done : nat).

(** Callbacks registered with the event loop and not yet run. *)
Inductive task :=
| TStat (c : fetch_call)                       (* fs.stat(filename, ...) *)
| TMkdir (c : fetch_call)                      (* fs.mkdir(cachePath, ...) *)
| TGet (c : fetch_call)                        (* get({url ...}, ...): request sent *)
| TBody (c : fetch_call) (res : response) (timer : option Z)
                                               (* res piped into the .part file;
                                                  [timer]: when responseTimeoutId is
                                                  due, if it was set *)
| TAborted (c : fetch_call)                    (* res after req.abort() by the timer;
                                                  its 'error' listeners stay attached *)
| TFileClose (c : fetch_call) (res : response) (* file.on('close', ...) *)
| TRename (c : fetch_call) (res : response)    (* fs.rename(partial, filename, ...) *)
| TUtimes (c : fetch_call) (a m : Z)           (* fs.utimes(filename, atime, mtime, ...) *)
| TUnlinkPart (c : fetch_call) (err : jserror) (* onError: fs.unlink(partial, ...) *)
| TPurgeUnlink (file : string) (done : nat).   (* purge: fs.unlink(filename, ...) *)

(** The arguments a caller's [done] receives. *)
Inductive outcome :=
| Delivered (filename : string) (a m : Z)      (* done(null, filename, atime, mtime) *)
| Failed (err : jserror)                       (* done(err) *)
| Purged.                                      (* done() *)

Inductive obs :=
| OLog (msg : string)                          (* this.log(msg) *)
| OProceed (p : proceed)                       (* the locker invokes proceed() *)
| OUnlock (file : string)                      (* locker.unlock(file) *)
| ORequest (done : nat) (url : string)         (* GET url sent upstream *)
| OAbort (done : nat)                          (* req.abort() *)
| OCallback (done : nat) (r : outcome).        (* the caller's done(...) runs *)

Record state := State {
  lockedFiles : gmap string (FileLocker.entry proceed);
  files : gmap string stats;
  clock : Z;                                   (* Date.now() *)
  tasks : list task;
  fresh : nat;                                 (* names the next caller's done *)
  trace : list obs
}.

Definition initial (files : gmap string stats) (now : Z) : state :=
  State ∅ files now [] 0 [].

Definition set_locks (t : gmap string (FileLocker.entry proceed)) (s : state) : state :=
  State t (files s) (clock s) (tasks s) (fresh s) (trace s).
Definition set_files (f : gmap string stats) (s : state) : state :=
  State (lockedFiles s) f (clock s) (tasks s) (fresh s) (trace s).
Definition set_tasks (ts : list task) (s : state) : state :=
  State (lockedFiles s) (files s) (clock s) ts (fresh s) (trace s).
Definition emit (o : obs) (s : state) : state :=
  State (lockedFiles s) (files s) (clock s) (tasks s) (fresh s) (trace s ++ [o]).
Definition spawn (t : task) (s : state) : state :=
  set_tasks (tasks s ++ [t]) s.

(** [err.message = `Upstream ${url} failed: ${err.message}`]: the error
    [onError] hands to [done]. *)
Definition surfaced (c : fetch_call) (err : jserror) : jserror :=
  JsError ("Upstream " +:+ url c +:+ " failed: " +:+ message err) (code err).

(** ** The source, callback by callback *)

Section Petra.

Variable o : options.

Definition log (msg : string) (s : state) : state := emit (OLog msg) s.

(** [this.debug = options.debug ? this.log : noop] *)
Definition debug_log (msg : string) (s : state) : state :=
  if debug o then log msg s else s.

(** Invoking a [proceed] closure: [fetch]'s calls [_fetchFromFilesystem],
    which calls [fs.stat]; [purge]'s calls [fs.unlink]. *)
Definition started (p : proceed) : task :=
  match p with
  | ProceedFetch c => TStat c
  | ProceedPurge file d => TPurgeUnlink file d
  end.

Definition invoke (p : proceed) (s : state) : state :=
  spawn (started p) (emit (OProceed p) s).

Definition locker_lock (file : string) (p : proceed) (s : state) : state :=
  let '(t, ran) := FileLocker.lock file p (clock s) (lockedFiles s) in
  let s := set_locks t s in
  match ran with
  | Some p' => invoke p' s
  | None => s
  end.

Definition locker_unlock (file : string) (s : state) : state :=
  let '(t, ran) := FileLocker.unlock file (clock s) (lockedFiles s) in
  let s := emit (OUnlock file) (set_locks t s) in
  match ran with
  | Some p' => invoke p' s
  | None => s
  end.

Definition partial (c : fetch_call) : string := filename c +:+ ".part".

(** [Petra.prototype.fetch] *)
Definition fetch (u : string) (s : state) : state :=
  let fingerprint := hash o u in
  let cachePath := _cachePath o fingerprint in
  let filename := join cachePath fingerprint in
  let c := FetchCall u cachePath filename (fresh s) in
  let s := State (lockedFiles s) (files s) (clock s) (tasks s) (S (fresh s)) (trace s) in
  locker_lock filename (ProceedFetch c) s.

(** [Petra.prototype.purge] *)
Definition purge (u : string) (s : state) : state :=
  let fingerprint := hash o u in
  let cachePath := _cachePath o fingerprint in
  let filename := join cachePath fingerprint in
  let d := fresh s in
  let s := State (lockedFiles s) (files s) (clock s) (tasks s) (S (fresh s)) (trace s) in
  locker_lock filename (ProceedPurge filename d) s.

(** The callback of [fs.unlink] in [purge]. *)
Definition purge_unlinked (file : string) (d : nat) (s : state) : state :=
  let s := set_files (Fs.unlink (files s) file) s in
  let s := locker_unlock file s in
  emit (OCallback d Purged) s.

(** [_fetchFromUpstream]: the request is sent; [onError] is below. *)
Definition fetchFromUpstream (c : fetch_call) (s : state) : state :=
  spawn (TGet c) (emit (ORequest (done c) (url c)) s).

(** [onError(err)]: [fs.unlink(partialContentFilename, ...)] *)
Definition onError (c : fetch_call) (err : jserror) (s : state) : state :=
  spawn (TUnlinkPart c err) s.

(** The callback [fetch] gives to [_fetchFromUpstream]. *)
Definition upstream_done (c : fetch_call) (r : jserror + Z * Z) (s : state) : state :=
  match r with
  | inl err =>
      (* Upstream error *)
      let s := debug_log (message err) s in
      let s := emit (OCallback (done c) (Failed err)) s in
      locker_unlock (filename c) s
  | inr (a, m) =>
      (* Upstream OK *)
      let s := debug_log ("Upstream OK " +:+ url c) s in
      let s := locker_unlock (filename c) s in
      emit (OCallback (done c) (Delivered (filename c) a m)) s
  end.

(** What [_fetchFromFilesystem] passes to its [done]:
    [done(null, stats.atime, stats.mtime)] or [done(null)]. *)
Inductive probe :=
| Hit (a m : Z)
| Miss.

(** The callback [fetch] gives to [_fetchFromFilesystem]
    ([!err && atime && mtime] holds exactly for [Hit]). *)
Definition probe_done (c : fetch_call) (r : probe) (s : state) : state :=
  match r with
  | Hit a m =>
      (* Filesystem hit *)
      let s := debug_log ("Filesystem hit " +:+ filename c) s in
      let s := locker_unlock (filename c) s in
      emit (OCallback (done c) (Delivered (filename c) a m)) s
  | Miss =>
      (* Filesystem miss *)
      let s := debug_log ("Filesystem miss " +:+ filename c) s in
      fetchFromUpstream c s
  end.

(** The callback of [fs.stat] in [_fetchFromFilesystem].  Every branch of
    the source ends by calling [done] or by calling [fs.mkdir]; the result
    is the state together with what is passed to [done], if it is called. *)
Definition statted (c : fetch_call) (r : string + stats) (s : state)
    : state * option probe :=
  match r with
  | inl errcode =>
      if String.eqb errcode "ENOENT" then
        (* Ensure cachePath directory exists *)
        (spawn (TMkdir c) s, None)
      else
        (log ("Could not stat " +:+ filename c +:+ " " +:+ errcode) s, Some Miss)
  | inr st =>
      if isFile st && (0 <? size st) && (clock s <? mtime st) then
        (* Cache hit *)
        (s, Some (Hit (atime st) (mtime st)))
      else
        (* Cache expired/invalid *)
        (debug_log ("Cached file " +:+ filename c +:+ " expired") s, Some Miss)
  end.

(** The callback of [fs.mkdir] in [_fetchFromFilesystem]. *)
Definition mkdired (c : fetch_call) (err : option string) (s : state)
    : state * probe :=
  let s := match err with
           | Some errcode =>
               if String.eqb errcode "EEXIST" then s
               else log ("Could not mkdir " +:+ cachePath c +:+ " " +:+ errcode) s
           | None => s
           end in
  (s, Miss).

Definition timeout_codes : list string := ["ECONNREFUSED"; "ETIMEDOUT"; "ESOCKETTIMEDOUT"].

(** [err.code && [...].includes(err.code) ? 504 : 502] *)
Definition transport_code (errcode : jsvalue) : Z :=
  match errcode with
  | JString c => if bool_decide (c ∈ timeout_codes) then 504 else 502
  | _ => 502
  end.

(** The callback of [get] with an error. *)
Definition get_failed (c : fetch_call) (err : jserror) (s : state) : state :=
  onError c (errorWithCode (message err) (transport_code (code err))) s.

(** The callback of [get] with a response. *)
Definition get_responded (c : fetch_call) (res : response) (s : state) : state :=
  (* Verify upstream status *)
  if negb (statusCode res =? 200) then
    let s := emit (OAbort (done c)) s in
    onError c (errorWithCode ("status code " +:+ pretty (statusCode res)) (statusCode res)) s
  (* Verify upstream Content-Type header *)
  else if (0 <? Z.of_nat (List.length (mediaTypes o))) && negb (includes (mediaTypes o) (contentType res)) then
    let s := emit (OAbort (done c)) s in
    onError c (errorWithCode ("unsupported media-type " +:+ template (contentType res)) 415) s
  else
    (* Set response timeout, if any; create input file; pipe *)
    let s := set_files (Fs.create (files s) (partial c) (clock s)) s in
    let timer := if 0 <? responseTimeout o
                 then Some (clock s + responseTimeout o)  (* setTimeout(..., responseTimeout) *)
                 else None in
    spawn (TBody c res timer) s.

(** The response-timeout timer fires. *)
Definition timed_out (c : fetch_call) (s : state) : state :=
  let s := emit (OAbort (done c)) s in
  let s := onError c (errorWithCode ("response timeout of " +:+ pretty (responseTimeout o) +:+ "ms") 504) s in
  spawn (TAborted c) s.

(** [res] emits 'end': the timer is cleared, the pipe ends the file. *)
Definition body_ended (c : fetch_call) (res : response) (n : Z) (s : state) : state :=
  let s := set_files (Fs.written (files s) (partial c) n (clock s)) s in
  spawn (TFileClose c res) s.

(** [res] emits 'error': the timer is cleared, then [onError] runs. *)
Definition body_failed (c : fetch_call) (err : jserror) (s : state) : state :=
  onError c err s.

(** The file stream emits 'close'. *)
Definition file_closed (c : fetch_call) (res : response) (s : state) : state :=
  spawn (TRename c res) s.

(** The callback of [fs.rename]. *)
Definition renamed (c : fetch_call) (res : response) (err : option string) (s : state) : state :=
  match err with
  | Some errcode =>
      onError c (newError ("could not rename " +:+ partial c +:+ " as " +:+ filename c
                           +:+ " " +:+ errcode)) s
  | None =>
      (* Time-to-live is maximum of (Cache-Control header, configured TTL) in seconds *)
      let ttl := Z.max (minimumTtl o) (ttlFromCacheControlHeader (cacheControl res)) in
      (* Set file m(odified)time to its expiry time *)
      let a := clock s in
      let m := a + ttl * 1000 in
      spawn (TUtimes c a m) s
  end.

(** The callback of [fs.utimes]. *)
Definition stamped (c : fetch_call) (a m : Z) (err : option string) (s : state) : state :=
  match err with
  | Some errcode =>
      onError c (newError ("could not update " +:+ filename c +:+ " " +:+ errcode)) s
  | None =>
      (* Success *)
      upstream_done c (inr (a, m)) s
  end.

(** The callback of [fs.unlink] in [onError]. *)
Definition part_unlinked (c : fetch_call) (err : jserror) (s : state) : state :=
  let s := set_files (Fs.unlink (files s) (partial c)) s in
  upstream_done c (inl (surfaced c err)) s.

End Petra.

(** ** The event loop *)

(** What the environment can do next: advance the clock, call the API, or
    complete one pending callback.  File-system completions carry an optional
    injected error code ([fault]); without one the operation acts on [files].
    Callbacks are addressed by the number of the [done] of their call. *)
Inductive event :=
| EvTick (d : Z)
| EvFetch (u : string)
| EvPurge (u : string)
| EvStat (d : nat) (fault : option string)
| EvMkdir (d : nat) (fault : option string)
| EvGetError (d : nat) (err : jserror)
| EvGetResponse (d : nat) (res : response)
| EvBodyEnd (d : nat) (n : Z)
| EvBodyError (d : nat) (err : jserror)
| EvTimer (d : nat)
| EvAbortedError (d : nat) (err : jserror)
| EvFileClose (d : nat)
| EvRename (d : nat) (fault : option string)
| EvUtimes (d : nat) (fault : option string)
| EvUnlinkPart (d : nat)
| EvPurgeUnlink (d : nat).

(** The first pending callback selected by [sel], removed from the list. *)
Fixpoint pick {A : Type} (sel : task → option A) (ts : list task) : option (A * list task) :=
  match ts with
  | [] => None
  | t :: ts' =>
      match sel t with
      | Some a => Some (a, ts')
      | None =>
          match pick sel ts' with
          | Some (a, rest) => Some (a, t :: rest)
          | None => None
          end
      end
  end.

Definition for_call (d : nat) (c : fetch_call) : option fetch_call :=
  if Nat.eqb (done c) d then Some c else None.

Definition sel_stat (d : nat) (t : task) : option fetch_call :=
  match t with TStat c => for_call d c | _ => None end.
Definition sel_mkdir (d : nat) (t : task) : option fetch_call :=
  match t with TMkdir c => for_call d c | _ => None end.
Definition sel_get (d : nat) (t : task) : option fetch_call :=
  match t with TGet c => for_call d c | _ => None end.
Definition sel_body (d : nat) (t : task) : option (fetch_call * response) :=
  match t with TBody c res _ => (λ c, (c, res)) <$> for_call d c | _ => None end.
Definition sel_timer (now : Z) (d : nat) (t : task) : option fetch_call :=
  match t with
  | TBody c _ (Some due) => if due <=? now then for_call d c else None
  | _ => None
  end.
Definition sel_aborted (d : nat) (t : task) : option fetch_call :=
  match t with TAborted c => for_call d c | _ => None end.
Definition sel_close (d : nat) (t : task) : option (fetch_call * response) :=
  match t with TFileClose c res => (λ c, (c, res)) <$> for_call d c | _ => None end.
Definition sel_rename (d : nat) (t : task) : option (fetch_call * response) :=
  match t with TRename c res => (λ c, (c, res)) <$> for_call d c | _ => None end.
Definition sel_utimes (d : nat) (t : task) : option (fetch_call * (Z * Z)) :=
  match t with TUtimes c a m => (λ c, (c, (a, m))) <$> for_call d c | _ => None end.
Definition sel_unlink (d : nat) (t : task) : option (fetch_call * jserror) :=
  match t with TUnlinkPart c err => (λ c, (c, err)) <$> for_call d c | _ => None end.
Definition sel_purge (d : nat) (t : task) : option string :=
  match t with
  | TPurgeUnlink file d' => if Nat.eqb d' d then Some file else None
  | _ => None
  end.

(** The outcome of a file-system operation under an optional fault. *)
Definition faulty {A : Type} (fault : option string) (files : gmap string stats)
    (op : gmap string stats * option string) : gmap string stats * option string :=
  match fault with
  | Some errcode => (files, Some errcode)
  | None => op
  end.

Definition step (o : options) (e : event) (s : state) : option state :=
  match e with
  | EvTick d =>
      if 0 <=? d
      then Some (State (lockedFiles s) (files s) (clock s + d) (tasks s) (fresh s) (trace s))
      else None
  | EvFetch u => Some (fetch o u s)
  | EvPurge u => Some (purge o u s)
  | EvStat d fault =>
      match pick (sel_stat d) (tasks s) with
      | Some (c, rest) =>
          let r := match fault with
                   | Some errcode => inl errcode
                   | None => Fs.stat (files s) (filename c)
                   end in
          let '(s', report) := statted o c r (set_tasks rest s) in
          Some (match report with
                | Some p => probe_done o c p s'
                | None => s'
                end)
      | None => None
      end
  | EvMkdir d fault =>
      match pick (sel_mkdir d) (tasks s) with
      | Some (c, rest) =>
          let '(fs', err) := faulty (A:=unit) fault (files s)
                               (Fs.mkdir (files s) (cachePath c) (clock s)) in
          let '(s', report) := mkdired c err (set_files fs' (set_tasks rest s)) in
          Some (probe_done o c report s')
      | None => None
      end
  | EvGetError d err =>
      match pick (sel_get d) (tasks s) with
      | Some (c, rest) => Some (get_failed c err (set_tasks rest s))
      | None => None
      end
  | EvGetResponse d res =>
      match pick (sel_get d) (tasks s) with
      | Some (c, rest) => Some (get_responded o c res (set_tasks rest s))
      | None => None
      end
  | EvBodyEnd d n =>
      match pick (sel_body d) (tasks s) with
      | Some ((c, res), rest) =>
          if 0 <=? n then Some (body_ended c res n (set_tasks rest s)) else None
      | None => None
      end
  | EvBodyError d err =>
      match pick (sel_body d) (tasks s) with
      | Some ((c, _), rest) => Some (body_failed c err (set_tasks rest s))
      | None => None
      end
  | EvTimer d =>
      match pick (sel_timer (clock s) d) (tasks s) with
      | Some (c, rest) => Some (timed_out o c (set_tasks rest s))
      | None => None
      end
  | EvAbortedError d err =>
      match pick (sel_aborted d) (tasks s) with
      | Some (c, rest) => Some (body_failed c err (set_tasks rest s))
      | None => None
      end
  | EvFileClose d =>
      match pick (sel_close d) (tasks s) with
      | Some ((c, res), rest) => Some (file_closed c res (set_tasks rest s))
      | None => None
      end
  | EvRename d fault =>
      match pick (sel_rename d) (tasks s) with
      | Some ((c, res), rest) =>
          let '(fs', err) := faulty (A:=unit) fault (files s)
                               (Fs.rename (files s) (partial c) (filename c)) in
          Some (renamed o c res err (set_files fs' (set_tasks rest s)))
      | None => None
      end
  | EvUtimes d fault =>
      match pick (sel_utimes d) (tasks s) with
      | Some ((c, (a, m)), rest) =>
          let '(fs', err) := faulty (A:=unit) fault (files s)
                               (Fs.utimes (files s) (filename c) a m) in
          Some (stamped o c a m err (set_files fs' (set_tasks rest s)))
      | None => None
      end
  | EvUnlinkPart d =>
      match pick (sel_unlink d) (tasks s) with
      | Some ((c, err), rest) => Some (part_unlinked o c err (set_tasks rest s))
      | None => None
      end
  | EvPurgeUnlink d =>
      match pick (sel_purge d) (tasks s) with
      | Some (file, rest) => Some (purge_unlinked file d (set_tasks rest s))
      | None => None
      end
  end.

Fixpoint run (o : options) (es : list event) (s : state) : option state :=
  match es with
  | [] => Some s
  | e :: es' =>
      match step o e s with
      | Some s' => run o es' s'
      | None => None
      end
  end.

(** ** Quantities the properties speak about *)

(** The callback belongs to a request for [file] that is on the wire: sent
    and neither finished, failed nor aborted. *)
Definition requesting (file : string) (t : task) : bool :=
  match t with
  | TGet c | TBody c _ _ => bool_decide (filename c = file)
  | _ => false
  end.

Definition in_flight (file : string) (s : state) : nat :=
  List.length (List.filter (requesting file) (tasks s)).

(** How many times the caller's [done] number [d] has run. *)
Definition is_callback (d : nat) (ob : obs) : bool :=
  match ob with
  | OCallback d' _ => Nat.eqb d' d
  | _ => false
  end.

Definition callbacks (d : nat) (s : state) : list obs :=
  List.filter (is_callback d) (trace s).

Definition is_request (d : nat) (ob : obs) : bool :=
  match ob with
  | ORequest d' _ => Nat.eqb d' d
  | _ => false
  end.

Definition requests (d : nat) (s : state) : list obs :=
  List.filter (is_request d) (trace s).

(** [this.debug(msg)], as a piece of trace. *)
Definition debugged (o : options) (msg : string) : list obs :=
  if debug o then [OLog msg] else [].

(** The caller that [unlock(file)] would hand the lock to. *)
Definition next_waiter (locks : gmap string (FileLocker.entry proceed)) (file : string)
    : option proceed :=
  match locks !! file with
  | Some e => head (FileLocker.onRelease e)
  | None => None
  end.

(** What [locker.unlock(file)] adds to the trace: the release, and the start
    of the next waiter inside that very call. *)
Definition handover (locks : gmap string (FileLocker.entry proceed)) (file : string)
    : list obs :=
  OUnlock file :: match next_waiter locks file with
                  | Some p => [OProceed p]
                  | None => []
                  end.

(** The outcomes the caller's [done] number [d] has received, in order. *)
Fixpoint outcomes (d : nat) (tr : list obs) : list outcome :=
  match tr with
  | [] => []
  | OCallback d' r :: tr' => if Nat.eqb d' d then r :: outcomes d tr' else outcomes d tr'
  | _ :: tr' => outcomes d tr'
  end.

(** The call a pending callback belongs to. *)
Definition task_id (t : task) : nat :=
  match t with
  | TStat c | TMkdir c | TGet c | TBody c _ _ | TAborted c | TFileClose c _
  | TRename c _ | TUtimes c _ _ | TUnlinkPart c _ => done c
  | TPurgeUnlink _ d => d
  end.

(** The path a pending callback works on: the key of the lock it runs under. *)
Definition task_file (t : task) : string :=
  match t with
  | TStat c | TMkdir c | TGet c | TBody c _ _ | TAborted c | TFileClose c _
  | TRename c _ | TUtimes c _ _ | TUnlinkPart c _ => filename c
  | TPurgeUnlink file _ => file
  end.

(** Every pending callback will run the continuation of its call, except the
    listeners left on an aborted response, which run only if the response
    still emits an error. *)
Definition live (t : task) : bool :=
  match t with
  | TAborted _ => false
  | _ => true
  end.

(** No live callback of call [d] is pending. *)
Definition settled (d : nat) (ts : list task) : Prop :=
  Forall (λ t, task_id t = d → live t = false) ts.

(** The selector finds live callbacks of call [d] only. *)
Definition addressed {A : Type} (sel : task → option A) (d : nat) : Prop :=
  ∀ t a, sel t = Some a → task_id t = d ∧ live t = true.

(** The response passes the status and media-type checks of the source. *)
Definition accepted (o : options) (res : response) : Prop :=
  statusCode res = 200
  ∧ (mediaTypes o = [] ∨ ∃ ct, contentType res = JString ct ∧ ct ∈ mediaTypes o).

(** With the request of [c] its only live callback in [s], the events [es]
    make [fetch] fail with [err]: they run, and the caller's callback
    receives [err] and nothing else. *)
Definition fails_with (o : options) (s : state) (c : fetch_call)
    (es : list event) (err : jserror) : Prop :=
  ∃ s', run o es s = Some s'
        ∧ outcomes (done c) (trace s') = outcomes (done c) (trace s) ++ [Failed err].

(** The callbacks of the upstream fetch of call [d] that do not answer the
    caller (and clock ticks): everything that can happen to the fetch between
    sending its request and the callback of an [onError] unlink or of a
    successful [utimes]; an error of an already aborted response is not
    among them. *)
Definition upstream_event (d : nat) (e : event) : bool :=
  match e with
  | EvTick _ => true
  | EvGetError d' _ | EvGetResponse d' _ | EvBodyEnd d' _ | EvBodyError d' _
  | EvTimer d' | EvFileClose d' | EvRename d' _ | EvUtimes d' (Some _) => Nat.eqb d' d
  | _ => false
  end.

(** The error of a failed [fs.utimes]. *)
Definition unstamped (c : fetch_call) (errcode : string) : jserror :=
  newError ("could not update " +:+ filename c +:+ " " +:+ errcode).

(** How far the upstream fetch of [c] has got, by its one live callback, and
    what is at the canonical path then: [orig], what was there when the
    request was sent, until the rename succeeds. *)
Inductive stage (c : fetch_call) (orig : option stats) (fs : gmap string stats)
    : task → Prop :=
| StGet : fs !! filename c = orig → stage c orig fs (TGet c)
| StBody res timer : fs !! filename c = orig → stage c orig fs (TBody c res timer)
| StClose res : fs !! filename c = orig → stage c orig fs (TFileClose c res)
| StRename res : fs !! filename c = orig → stage c orig fs (TRename c res)
| StUtimes a m : is_Some (fs !! filename c) → stage c orig fs (TUtimes c a m)
| StFailed err : fs !! filename c = orig → stage c orig fs (TUnlinkPart c err)
| StUnstamped errcode :
    is_Some (fs !! filename c) → stage c orig fs (TUnlinkPart c (unstamped c errcode)).

Definition in_stage (c : fetch_call) (orig : option stats) (called : list outcome)
    (s : state) : Prop :=
  ∃ l1 t l2, tasks s = l1 ++ t :: l2
             ∧ settled (done c) (l1 ++ l2)
             ∧ stage c orig (files s) t
             ∧ outcomes (done c) (trace s) = called.

(** The options and the URL of the repository's tests. *)
Definition test_options : options :=
  Options "/tmp/petra" (7 * 24 * 60 * 60) [] 10000 10000 "lovell/petra"
          (λ _, "test-fingerprint") false.

Definition test_url : string := "http://example.com/path".

Definition test_filename : string := "/tmp/petra/te/test-fingerprint".

(** An upstream answer [200] without headers. *)
Definition ok_response : response := Response 200 JUndefined JUndefined.

(** ** Single flight *)

Definition proceed_file (p : proceed) : string :=
  match p with
  | ProceedFetch c => filename c
  | ProceedPurge file _ => file
  end.

(** The pending callback [t] continues the work of the holder of lock [k]. *)
Definition holds (k : string) (t : task) : bool :=
  live t && bool_decide (task_file t = k).

Definition holders (k : string) (ts : list task) : nat :=
  List.length (List.filter (holds k) ts).

(** What the lock table promises about the pending callbacks: a key with an
    entry has exactly one live callback working on it, a key without has
    none; and the continuations queued under a key are for that key. *)
Definition guarded (locks : gmap string (FileLocker.entry proceed)) (ts : list task)
    (k : string) : Prop :=
  match locks !! k with
  | Some e => holders k ts = 1%nat
              ∧ Forall (λ p, proceed_file p = k) (FileLocker.onRelease e)
  | None => holders k ts = 0%nat
  end.

Definition single_flight (s : state) : Prop :=
  ∀ k, guarded (lockedFiles s) (tasks s) k.

(** The state in the middle of a callback of the holder of [k0]: the callback
    has been taken off the pending list and has not yet registered its
    successor or released the lock. *)
Definition running (k0 : string) (s : state) : Prop :=
  (∃ e, lockedFiles s !! k0 = Some e
        ∧ Forall (λ p, proceed_file p = k0) (FileLocker.onRelease e))
  ∧ holders k0 (tasks s) = 0%nat
  ∧ ∀ k, k ≠ k0 → guarded (lockedFiles s) (tasks s) k.

(** The selector finds live callbacks only, working on the path [file a]. *)
Definition filed {A : Type} (sel : task → option A) (file : A → string) : Prop :=
  ∀ t a, sel t = Some a → live t = true ∧ task_file t = file a.

(** The response of an aborted request emits no error. *)
Definition well_behaved (e : event) : bool :=
  match e with
  | EvAbortedError _ _ => false
  | _ => true
  end.

(** The canonical path of a URL. *)
Definition canonical (o : options) (u : string) : string :=
  join (_cachePath o (hash o u)) (hash o u).

(** States that differ in the file system, clock, names or trace only. *)
Definition same_view (s s' : state) : Prop :=
  lockedFiles s' = lockedFiles s ∧ tasks s' = tasks s.

(** The closure of a pending callback of [fetch]. *)
Definition task_call (t : task) : option fetch_call :=
  match t with
  | TStat c | TMkdir c | TGet c | TBody c _ _ | TAborted c | TFileClose c _
  | TRename c _ | TUtimes c _ _ | TUnlinkPart c _ => Some c
  | TPurgeUnlink _ _ => None
  end.

Definition proceed_call (p : proceed) : option fetch_call :=
  match p with
  | ProceedFetch c => Some c
  | ProceedPurge _ _ => None
  end.

(** [P] holds of every closure of [fetch] that is pending or queued. *)
Definition all_calls (P : fetch_call → Prop) (s : state) : Prop :=
  Forall (λ t, ∀ c, task_call t = Some c → P c) (tasks s)
  ∧ ∀ k e, lockedFiles s !! k = Some e →
           Forall (λ p, ∀ c, proceed_call p = Some c → P c) (FileLocker.onRelease e).

(** The closure was built by [fetch]: its paths are those of its URL. *)
Definition built_by (o : options) (c : fetch_call) : Prop :=
  filename c = canonical o (url c) ∧ cachePath c = _cachePath o (hash o (url c)).

(** The requests on the wire for the fingerprint of [u]. *)
Definition requesting_url (o : options) (u : string) (t : task) : bool :=
  match t with
  | TGet c | TBody c _ _ => bool_decide (hash o (url c) = hash o u)
  | _ => false
  end.

Definition in_flight_url (o : options) (u : string) (s : state) : nat :=
  List.length (List.filter (requesting_url o u) (tasks s)).

(** The selector returns the closure of the callback it finds. *)
Definition called {A : Type} (sel : task → option A) (call : A → fetch_call) : Prop :=
  ∀ t a, sel t = Some a → task_call t = Some (call a).

(** How many upstream requests call [d] has sent. *)
Fixpoint requested (d : nat) (tr : list obs) : nat :=
  match tr with
  | [] => 0
  | ORequest d' _ :: tr' => (if Nat.eqb d' d then 1 else 0) + requested d tr'
  | _ :: tr' => requested d tr'
  end.

(** No pending callback carries a name from [n] on: the callers' names are
    handed out in increasing order. *)
Definition unused (n : nat) (ts : list task) : Prop :=
  Forall (λ t, (task_id t < n)%nat) ts.

(** ** The scenarios of the test suite *)

(** [test_options] with [minimumTtl: 0]. *)
Definition zero_ttl_options : options :=
  Options "/tmp/petra" 0 [] 10000 10000 "lovell/petra" (λ _, "test-fingerprint") false.

Definition test_call (d : nat) : fetch_call :=
  FetchCall test_url "/tmp/petra/te" test_filename d.

(** An idle instance over an empty cache at time 0. *)
Definition idle : state := initial ∅ 0.

(** One fetch on an empty cache, up to the point where its request is on the
    wire. *)
Definition request_sent : state :=
  default idle (run test_options [EvFetch test_url; EvStat 0 None; EvMkdir 0 None] idle).

(** The same fetch once a body of 18 bytes has been written and the file
    closed: the rename is pending. *)
Definition downloaded : state :=
  default idle (run test_options [EvGetResponse 0 ok_response; EvBodyEnd 0 18;
                                  EvFileClose 0] request_sent).

(** The error Node reports on the response of an aborted request. *)
Definition aborted_error : jserror := JsError "aborted" (JString "ECONNRESET").

(** The connection to the upstream is refused (the "socket timeout" test). *)
Definition refused_error : jserror :=
  JsError "connect ECONNREFUSED 127.0.0.1:50000" (JString "ECONNREFUSED").

(** The fetch of [request_sent] after that error: its [onError] unlink is
    pending. *)
Definition refused : state :=
  default idle (run test_options [EvGetError 0 refused_error] request_sent).

(** The download of [downloaded] cannot be renamed into place. *)
Definition rename_refused_events : list event :=
  [EvGetResponse 0 ok_response; EvBodyEnd 0 18; EvFileClose 0; EvRename 0 (Some "EACCES")].

Definition rename_refused : state :=
  default idle (run test_options (rename_refused_events ++ [EvUnlinkPart 0]) request_sent).

(** Two callers fetch the same URL; the first has its request on the wire. *)
Definition two_callers_events : list event :=
  [EvFetch test_url; EvFetch test_url; EvStat 0 None; EvMkdir 0 None].

Definition two_callers : state :=
  default idle (run test_options two_callers_events idle).

(** The first of the two has downloaded, renamed and is about to stamp an
    entry of 18 bytes. *)
Definition stamping : state :=
  default idle (run test_options [EvGetResponse 0 ok_response; EvBodyEnd 0 18;
                                  EvFileClose 0; EvRename 0 None] two_callers).

(** A cache holding one fresh entry, as in the "fetch from filesystem" test. *)
Definition seeded : state :=
  initial {[test_filename := Stats true 18 0 10000]} 0.

(** ** One answer per call *)

Definition proceed_id (p : proceed) : nat :=
  match p with
  | ProceedFetch c => done c
  | ProceedPurge _ d => d
  end.

(** Which continuations are counted: those of [purge] always, those of
    [fetch] when [all] is set, the listeners on an aborted response never
    ([counted true] is [live]). *)
Definition counted (all : bool) (t : task) : bool :=
  match t with
  | TAborted _ => false
  | TPurgeUnlink _ _ => true
  | _ => all
  end.

Definition counted_proceed (all : bool) (p : proceed) : bool :=
  match p with
  | ProceedFetch _ => all
  | ProceedPurge _ _ => true
  end.

Definition counted_outcome (all : bool) (r : outcome) : bool :=
  match r with
  | Purged => true
  | _ => all
  end.

(** The counted callbacks of call [d] that are pending. *)
Definition pending_of (all : bool) (d : nat) (ts : list task) : nat :=
  List.length (List.filter (λ t, counted all t && Nat.eqb (task_id t) d) ts).

(** The counted continuations of call [d] in the queue of one lock, and in
    all queues. *)
Definition queued_in (all : bool) (d : nat) (e : FileLocker.entry proceed) : nat :=
  List.length (List.filter (λ p, counted_proceed all p && Nat.eqb (proceed_id p) d)
                           (FileLocker.onRelease e)).

Definition queued (all : bool) (d : nat) (locks : gmap string (FileLocker.entry proceed))
    : nat :=
  map_fold (λ _ e n, (queued_in all d e + n)%nat) 0%nat locks.

(** How many times the callback of call [d] has run. *)
Definition answered (all : bool) (d : nat) (tr : list obs) : nat :=
  List.length (List.filter (counted_outcome all) (outcomes d tr)).

(** Where call [d] stands: waiting for a lock, waiting for a callback, or
    answered; [tokens] counts all three. *)
Definition tokens (all : bool) (d : nat) (s : state) : nat :=
  (pending_of all d (tasks s) + queued all d (lockedFiles s) + answered all d (trace s))%nat.

(** The counted calls made by an event. *)
Definition calls (all : bool) (d : nat) (e : event) (s : state) : nat :=
  match e with
  | EvFetch _ => if all && Nat.eqb (fresh s) d then 1%nat else 0%nat
  | EvPurge _ => if Nat.eqb (fresh s) d then 1%nat else 0%nat
  | _ => 0%nat
  end.

(** The selector finds callbacks of call [d] that count for [w]. *)
Definition weighed {A : Type} (sel : task → option A) (d : nat) (all w : bool) : Prop :=
  ∀ t a, sel t = Some a → task_id t = d ∧ counted all t = w.
(** ** Further properties of the source: what they speak about *)

(** *** The queues of the [FileLocker] *)

Module LockerLaw.
Section Law.

Context {P : Type}.

Definition call_file (c : FileLocker.call P) : string :=
  match c with
  | FileLocker.Lock file _ _ | FileLocker.Unlock file _ => file
  end.

(** The continuations the calls of [cs] on key [k] invoke, in order. *)
Fixpoint released (k : string) (cs : list (FileLocker.call P))
    (lockedFiles : gmap string (FileLocker.entry P)) : list P :=
  match cs with
  | [] => []
  | c :: cs' =>
      let '(t, ran) := FileLocker.do_call c lockedFiles in
      (if decide (call_file c = k) then option_list ran else []) ++ released k cs' t
  end.

(** The continuations [cs] passes to [lock(k, _)], in order. *)
Fixpoint submitted (k : string) (cs : list (FileLocker.call P)) : list P :=
  match cs with
  | [] => []
  | FileLocker.Lock file p _ :: cs' =>
      if decide (file = k) then p :: submitted k cs' else submitted k cs'
  | FileLocker.Unlock _ _ :: cs' => submitted k cs'
  end.

(** The continuations waiting for key [k]. *)
Definition waiting (k : string) (lockedFiles : gmap string (FileLocker.entry P)) : list P :=
  match lockedFiles !! k with
  | Some e => FileLocker.onRelease e
  | None => []
  end.

(** The calls of [cs] that are made on key [k]. *)
Definition on_key (k : string) (cs : list (FileLocker.call P)) : list (FileLocker.call P) :=
  List.filter (λ c, bool_decide (call_file c = k)) cs.

End Law.
End LockerLaw.

(** *** The paths and the closure of a call *)

(** The closure [fetch(u, done)] builds for the caller named [d]. *)
Definition call_of (o : options) (u : string) (d : nat) : fetch_call :=
  FetchCall u (_cachePath o (hash o u)) (canonical o u) d.

(** [Math.max(this.minimumTtl, ttlFromCacheControlHeader(...))], in seconds. *)
Definition effective_ttl (o : options) (res : response) : Z :=
  Z.max (minimumTtl o) (ttlFromCacheControlHeader (cacheControl res)).

(** [stats.isFile() && stats.size > 0 && stats.mtime.getTime() > Date.now()] *)
Definition fresh_entry (now : Z) (st : stats) : bool :=
  isFile st && (0 <? size st) && (now <? mtime st).

(** How many upstream requests have been sent. *)
Definition sent (tr : list obs) : nat :=
  List.length (List.filter (λ ob, match ob with ORequest _ _ => true | _ => false end) tr).

(** The response timer, if set on a response that arrives at [now]. *)
Definition timer_at (o : options) (now : Z) : option Z :=
  if 0 <? responseTimeout o then Some (now + responseTimeout o) else None.

(** The response timer set at [now] is not due [δ] milliseconds later. *)
Definition in_time (o : options) (δ : Z) : Prop :=
  responseTimeout o ≤ 0 ∨ δ < responseTimeout o.

(** *** Scripts *)

(** An accepted response [res] arrives for call [d]; its body of [n] bytes
    ends [δ] milliseconds later and the file is closed; the rename completes
    [δ'] milliseconds after that, and then [utimes]. *)
Definition download (d : nat) (res : response) (n δ δ' : Z) : list event :=
  [EvGetResponse d res; EvTick δ; EvBodyEnd d n; EvFileClose d;
   EvTick δ'; EvRename d None; EvUtimes d None].

(** [n + 1] callers fetch [u] at once, the first of them named [d]; the
    first one's probe misses and its download completes; then the [stat] of
    each waiter completes in turn. *)
Definition herd (u : string) (d n : nat) (res : response) (sz δ δ' : Z) : list event :=
  repeat (EvFetch u) (S n)
  ++ [EvStat d None; EvMkdir d None]
  ++ download d res sz δ δ'
  ++ map (λ i, EvStat (d + i)%nat None) (seq 1 n).

(** The continuations of the callers [ids] of [fetch(u, _)]. *)
Definition waiters (o : options) (u : string) (ids : list nat) : list proceed :=
  map (λ i, ProceedFetch (call_of o u i)) ids.

(** *** Quiescence *)

(** No callback is pending, except listeners left on aborted responses. *)
Definition quiescent (s : state) : Prop :=
  Forall (λ t, live t = false) (tasks s).

(** *** The paths of a URL *)

(** [K] holds of the path, and of the closure if there is one, of every
    pending callback and of every queued continuation. *)
Definition keyed (K : string → option fetch_call → Prop) (s : state) : Prop :=
  Forall (λ t, K (task_file t) (task_call t)) (tasks s)
  ∧ ∀ k e, lockedFiles s !! k = Some e →
           Forall (λ p, K (proceed_file p) (proceed_call p)) (FileLocker.onRelease e).

(** The callback works for one of the URLs [U]: on its canonical path, and
    if it belongs to a [fetch], with the paths [fetch] computes. *)
Definition owned (o : options) (U : string → Prop) (file : string)
    (call : option fetch_call) : Prop :=
  ∃ u, U u ∧ file = canonical o u
       ∧ ∀ c, call = Some c →
              filename c = file ∧ cachePath c = _cachePath o (hash o u).

(** The URLs passed to [fetch] or [purge] by the events [es]. *)
Definition called_for (es : list event) (u : string) : Prop :=
  EvFetch u ∈ es ∨ EvPurge u ∈ es.

(** [p] is one of the three paths the source computes for [u]: the canonical
    path, the [.part] path, the shard directory. *)
Definition path_of (o : options) (u p : string) : Prop :=
  p = canonical o u ∨ p = canonical o u +:+ ".part" ∨ p = _cachePath o (hash o u).

(** *** Requests and the calls that may still send one *)

Section Requests.

(** Which calls are counted, by the name of the caller and the URL. *)
Variable R : nat → string → bool.

Definition counts (c : fetch_call) : bool := R (done c) (url c).

(** The probe of a counted call is pending: it has not sent a request yet. *)
Definition probing (t : task) : bool :=
  match t with
  | TStat c | TMkdir c => counts c
  | _ => false
  end.

(** A counted call waits for the lock. *)
Definition asking (p : proceed) : bool :=
  match p with
  | ProceedFetch c => counts c
  | ProceedPurge _ _ => false
  end.

Definition probes (ts : list task) : nat := List.length (List.filter probing ts).

Definition asks_in (e : FileLocker.entry proceed) : nat :=
  List.length (List.filter asking (FileLocker.onRelease e)).

Definition asks (locks : gmap string (FileLocker.entry proceed)) : nat :=
  map_fold (λ _ e n, (asks_in e + n)%nat) 0%nat locks.

(** The requests sent by counted calls. *)
Definition requests_of (tr : list obs) : nat :=
  List.length (List.filter (λ ob, match ob with ORequest d u => R d u | _ => false end) tr).

(** The requests sent, and those that may still be sent. *)
Definition budget (s : state) : nat :=
  (probes (tasks s) + asks (lockedFiles s) + requests_of (trace s))%nat.

(** The counted calls of [fetch] among the events [es], when the next caller
    is named [n]. *)
Fixpoint fetches (n : nat) (es : list event) : nat :=
  match es with
  | [] => 0
  | EvFetch u :: es' => (if R n u then 1 else 0) + fetches (S n) es'
  | EvPurge _ :: es' => fetches (S n) es'
  | _ :: es' => fetches n es'
  end.

End Requests.

(** The requests sent for the URL [u], and the calls [fetch(u, _)]. *)
Definition requests_for (u : string) (tr : list obs) : nat :=
  requests_of (λ _ u', String.eqb u' u) tr.

Definition fetches_of (u : string) (es : list event) : nat :=
  List.length (List.filter (λ e, match e with EvFetch u' => String.eqb u' u | _ => false end) es).

(** *** The response timer *)

(** The pending callback has no response timer attached. *)
Definition untimed (t : task) : bool :=
  match t with
  | TBody _ _ (Some _) => false
  | _ => true
  end.

(** No pending callback has a response timer attached. *)
Definition calm (s : state) : Prop := Forall (λ t, untimed t = true) (tasks s).

(** The upstream fetch of [c] is past its body: the response has ended or
    failed, and the one live callback of the call is that of the file
    stream, of the rename, of [utimes], or of the unlink of [onError]. *)
Inductive late (c : fetch_call) : task → Prop :=
| LateClose res : late c (TFileClose c res)
| LateRename res : late c (TRename c res)
| LateUtimes a m : late c (TUtimes c a m)
| LateFailed err : late c (TUnlinkPart c err).

Definition in_late (c : fetch_call) (s : state) : Prop :=
  ∃ l1 t l2, tasks s = l1 ++ t :: l2 ∧ settled (done c) (l1 ++ l2) ∧ late c t.

(** *** The constructor

    [new Petra(options)]: the options are parsed, the cache directory is
    made and checked.  (The constructor also starts the interval timer of
    [purgeStale]; see [Stale] for what that does with the paths it is
    given.) *)

(** JavaScript truthiness, as [||] and [?:] test it. *)
Definition truthy (v : jsvalue) : bool :=
  match v with
  | JUndefined | JNull => false
  | JBoolean b => b
  | JNumber n => negb (n =? 0)
  | JString s => negb (String.eqb s "")
  | JArray _ => true
  end.

(** [typeof val === 'number' ? val : def] *)
Definition isNumberOrDefault (val : jsvalue) (def : Z) : Z :=
  match val with
  | JNumber n => n
  | _ => def
  end.

(** [val || def] *)
Definition or_default (val def : jsvalue) : jsvalue :=
  if truthy val then val else def.

(** The properties of the [options] argument that the constructor reads; a
    missing property is [JUndefined], and [opt_hash] is the property [hash]
    when [typeof options.hash === 'function']. *)
Record ctor_options := CtorOptions {
  opt_minimumTtl : jsvalue;
  opt_purgeStaleInterval : jsvalue;
  opt_mediaTypes : jsvalue;
  opt_debug : jsvalue;
  opt_requestTimeout : jsvalue;
  opt_responseTimeout : jsvalue;
  opt_userAgent : jsvalue;
  opt_cacheDirectory : jsvalue;
  opt_hash : option (string → string)
}.

(** [{}] *)
Definition no_options : ctor_options :=
  CtorOptions JUndefined JUndefined JUndefined JUndefined JUndefined JUndefined
              JUndefined JUndefined None.

(** What the constructor stores in [this]; [this_debug] says whether
    [this.debug] is [this.log] rather than [noop]. *)
Record instance := Instance {
  this_minimumTtl : Z;
  this_purgeStaleInterval : Z;
  this_mediaTypes : jsvalue;
  this_debug : bool;
  this_requestTimeout : Z;
  this_responseTimeout : Z;
  this_userAgent : jsvalue;
  this_cacheDirectory : jsvalue;
  this_hash : string → string
}.

(** The outcome of [new Petra(options)]: the instance and the file system it
    leaves, or the error code of the exception it throws. *)
Inductive constructed :=
| Built (this : instance) (files : gmap string stats)
| Threw (errcode : string).

Section Constructor.

(** [os.tmpdir()] and the default hash function. *)
Variables (tmpdir : string) (sha256 : string → string).

(** "Parse options" *)
Definition parse_options (arg : option ctor_options) : instance :=
  let options := default no_options arg in                     (* options || {} *)
  Instance
    (isNumberOrDefault (opt_minimumTtl options) (7 * 24 * 60 * 60))
    (isNumberOrDefault (opt_purgeStaleInterval options) (60 * 60))
    (or_default (opt_mediaTypes options) (JArray []))
    (truthy (opt_debug options))
    (isNumberOrDefault (opt_requestTimeout options) 10000)
    (isNumberOrDefault (opt_responseTimeout options) 10000)
    (or_default (opt_userAgent options) (JString "lovell/petra"))
    (or_default (opt_cacheDirectory options) (JString (join tmpdir "petra")))
    (default sha256 (opt_hash options)).

(** The constructor at time [now]: [fs.mkdirSync], whose error is caught and
    dropped, then [fs.accessSync], whose error is thrown.  [mkdir_fault] and
    [access_fault] are errors of the environment's choice, as in [faulty];
    without them [mkdirSync] acts on [files] and [accessSync] fails when
    nothing is at the path. *)
Definition Petra (arg : option ctor_options) (files : gmap string stats) (now : Z)
    (mkdir_fault access_fault : option string) : constructed :=
  let this := parse_options arg in
  match this_cacheDirectory this with
  | JString dir =>
      let files := (faulty (A:=unit) mkdir_fault files (Fs.mkdir files dir now)).1 in
      match access_fault with
      | Some errcode => Threw errcode
      | None =>
          match files !! dir with
          | Some _ => Built this files
          | None => Threw "ENOENT"
          end
      end
  | _ => Threw "ERR_INVALID_ARG_TYPE"
  end.

End Constructor.

(** *** [purgeStale]: what is done with a stale path

    The listener of the [data] events of the [find] process, for an event
    that carries one path as a string, as in the repository's test, which
    stubs the process; which paths are reported is the environment's
    business.  The locker is the one [fetch] and [purge] use: their
    continuations are the [P] below, and each, once invoked, unlocks its
    file when its work is done. *)

Module Stale.
Section Stale.

Context {P : Type}.

(** The [proceed] closures in the lock table: another user's, or the
    purger's [function () { fs.unlink(staleFilePath, ...) }]. *)
Inductive holder :=
| Other (p : P)
| StaleUnlink (staleFilePath : string).

Record purger := Purger {
  locks : gmap string (FileLocker.entry holder);   (* locker.lockedFiles *)
  disk : gmap string stats;
  now : Z;                                         (* Date.now() *)
  unlinking : list string;      (* the purger's fs.unlink calls not yet completed *)
  working : list (string * P);  (* others' continuations invoked, not yet unlocked *)
  logged : list string                             (* log(...) *)
}.

Definition purger_idle (disk : gmap string stats) (now : Z) : purger :=
  Purger ∅ disk now [] [] [].

Definition with_locks (t : gmap string (FileLocker.entry holder)) (s : purger) : purger :=
  Purger t (disk s) (now s) (unlinking s) (working s) (logged s).

(** The locker invokes a continuation waiting for [file]. *)
Definition purger_invoke (file : string) (h : option holder) (s : purger) : purger :=
  match h with
  | Some (Other p) =>
      Purger (locks s) (disk s) (now s) (unlinking s) (working s ++ [(file, p)]) (logged s)
  | Some (StaleUnlink staleFilePath) =>
      (* fs.unlink(staleFilePath, ...) *)
      Purger (locks s) (disk s) (now s) (unlinking s ++ [staleFilePath]) (working s)
             (logged s)
  | None => s
  end.

Definition purger_lock (file : string) (h : holder) (s : purger) : purger :=
  let '(t, ran) := FileLocker.lock file h (now s) (locks s) in
  purger_invoke file ran (with_locks t s).

Definition purger_unlock (file : string) (s : purger) : purger :=
  let '(t, ran) := FileLocker.unlock file (now s) (locks s) in
  purger_invoke file ran (with_locks t s).

(** [finder.stdout.on('data', function (staleFilePath) { locker.lock(...) })] *)
Definition on_data (staleFilePath : string) (s : purger) : purger :=
  purger_lock staleFilePath (StaleUnlink staleFilePath) s.

(** The callback of [fs.unlink]: [locker.unlock(staleFilePath)]. *)
Definition on_unlinked (staleFilePath : string) (s : purger) : purger :=
  let s := Purger (locks s) (Fs.unlink (disk s) staleFilePath) (now s) (unlinking s)
                  (working s) (logged s) in
  purger_unlock staleFilePath s.

(** [finder.on('error', ...)], and the [catch]. *)
Definition on_error (message : string) (s : purger) : purger :=
  Purger (locks s) (disk s) (now s) (unlinking s) (working s)
         (logged s ++ ["Purge of stale items failed: " +:+ message]).

(** The first occurrence of [x] taken out of [l], if there is one. *)
Fixpoint take_out (x : string) (l : list string) : option (list string) :=
  match l with
  | [] => None
  | y :: l' =>
      if String.eqb y x then Some l'
      else match take_out x l' with
           | Some r => Some (y :: r)
           | None => None
           end
  end.

Inductive purge_event :=
| Tick (δ : Z)
| Data (staleFilePath : string)          (* find reports a path *)
| Unlinked (staleFilePath : string)      (* an fs.unlink of the purger completes *)
| FinderError (message : string)
| OtherLock (file : string) (p : P)      (* another user calls locker.lock(file, p) *)
| OtherUnlock (i : nat).                 (* the i-th working continuation unlocks its file *)

Definition purger_step (e : purge_event) (s : purger) : option purger :=
  match e with
  | Tick δ =>
      if 0 <=? δ
      then Some (Purger (locks s) (disk s) (now s + δ) (unlinking s) (working s) (logged s))
      else None
  | Data staleFilePath => Some (on_data staleFilePath s)
  | Unlinked staleFilePath =>
      match take_out staleFilePath (unlinking s) with
      | Some rest =>
          Some (on_unlinked staleFilePath
                  (Purger (locks s) (disk s) (now s) rest (working s) (logged s)))
      | None => None
      end
  | FinderError message => Some (on_error message s)
  | OtherLock file p => Some (purger_lock file (Other p) s)
  | OtherUnlock i =>
      match working s !! i with
      | Some (file, _) =>
          Some (purger_unlock file
                  (Purger (locks s) (disk s) (now s) (unlinking s) (delete i (working s))
                          (logged s)))
      | None => None
      end
  end.

Fixpoint purger_run (es : list purge_event) (s : purger) : option purger :=
  match es with
  | [] => Some s
  | e :: es' =>
      match purger_step e s with
      | Some s' => purger_run es' s'
      | None => None
      end
  end.

(** How many holders of the lock of [k] are at work: unlinks of the purger
    and continuations of the others. *)
Definition busy (k : string) (s : purger) : nat :=
  (List.length (List.filter (λ f, String.eqb f k) (unlinking s))
   + List.length (List.filter (λ w, String.eqb w.1 k) (working s)))%nat.

(** The purger queues for the path it will unlink. *)
Definition queued_for (k : string) (h : holder) : Prop :=
  match h with
  | Other _ => True
  | StaleUnlink f => f = k
  end.

(** A key with an entry has one holder at work, a key without has none. *)
Definition exclusive_at (k : string) (s : purger) : Prop :=
  match locks s !! k with
  | Some e => busy k s = 1%nat ∧ Forall (queued_for k) (FileLocker.onRelease e)
  | None => busy k s = 0%nat
  end.

Definition exclusive (s : purger) : Prop := ∀ k, exclusive_at k s.

(** The paths reported by the events [es]. *)
Fixpoint reported (es : list purge_event) : list string :=
  match es with
  | [] => []
  | Data f :: es' => f :: reported es'
  | _ :: es' => reported es'
  end.

(** The unlink of [k] is still to come: pending, or waiting for the lock. *)
Definition to_unlink (k : string) (s : purger) : Prop :=
  k ∈ unlinking s
  ∨ ∃ e, locks s !! k = Some e ∧ StaleUnlink k ∈ FileLocker.onRelease e.

(** What the purger keeps, [R] being the paths reported so far and [d0] the
    files at the start. *)
Definition kept (R : list string) (d0 : gmap string stats) (s : purger) : Prop :=
  exclusive s
  ∧ (∀ f, f ∈ unlinking s → f ∈ R)
  ∧ (∀ k e, locks s !! k = Some e → StaleUnlink k ∈ FileLocker.onRelease e → k ∈ R)
  ∧ (∀ k, k ∈ R → Fs.is_file (disk s) k = false ∨ to_unlink k s)
  ∧ (∀ p, p ∉ R → disk s !! p = d0 !! p).

(** The state in which [file] is unlocked: its holder is done. *)
Definition holder_done (R : list string) (d0 : gmap string stats) (file : string)
    (s : purger) : Prop :=
  (∀ k, k ≠ file → exclusive_at k s)
  ∧ busy file s = 0%nat
  ∧ (∀ e, locks s !! file = Some e → Forall (queued_for file) (FileLocker.onRelease e))
  ∧ (∀ f, f ∈ unlinking s → f ∈ R)
  ∧ (∀ k e, locks s !! k = Some e → StaleUnlink k ∈ FileLocker.onRelease e → k ∈ R)
  ∧ (∀ k, k ∈ R → Fs.is_file (disk s) k = false ∨ to_unlink k s)
  ∧ (∀ p, p ∉ R → disk s !! p = d0 !! p).

End Stale.
Arguments holder : clear implicits.
Arguments purger : clear implicits.
Arguments purge_event : clear implicits.
End Stale.

(** ** Further scenarios *)

(** [test_options] with [responseTimeout: 0]. *)
Definition no_timeout_options : options :=
  Options "/tmp/petra" (7 * 24 * 60 * 60) [] 10000 0 "lovell/petra"
          (λ _, "test-fingerprint") false.

(** A cache holding one expired entry. *)
Definition stale_seeded : state :=
  initial {[test_filename := Stats true 18 0 0]} 0.

(** The fetch of [request_sent] once the response has arrived: its body is
    being piped into the [.part] file. *)
Definition receiving : state :=
  default idle (run test_options [EvGetResponse 0 ok_response] request_sent).

(** The first of the [two_callers] is refused by the upstream. *)
Definition two_refused : state :=
  default idle (run test_options [EvGetError 0 refused_error] two_callers).

(** The events of a fetch served from the [seeded] cache. *)
Definition served_events : list event := [EvFetch test_url; EvStat 0 None].

Definition served : state :=
  default seeded (run test_options served_events seeded).

(** A file of somebody else in the cache directory. *)
Definition other_file : string := "/tmp/petra/ot/other".

Definition beside_other : state := initial {[other_file := Stats true 3 0 0]} 0.
(** * Properties *)

(** ** Strings *)

Module StrFacts.
Import Str.

#[local] Arguments String.append : simpl nomatch.

Lemma append_nil_r (s : string) : s +:+ "" = s.
Proof. induction s as [|c s IH]; simpl; [reflexivity | now rewrite IH]. Qed.

Lemma append_assoc (a b c : string) : (a +:+ b) +:+ c = a +:+ (b +:+ c).
Proof. induction a as [|x a IH]; simpl; [reflexivity | now rewrite IH]. Qed.

Lemma length_append (a b : string) :
  String.length (a +:+ b) = (String.length a + String.length b)%nat.
Proof. induction a as [|x a IH]; simpl; [reflexivity | now rewrite IH]. Qed.

Lemma prefix_spec (p s : string) :
  String.prefix p s = true ↔ ∃ t, s = p +:+ t.
Proof.
  revert s. induction p as [|a p IH]; intros s.
  - split; [intros _; now exists s | intros _; now destruct s].
  - destruct s as [|b s]; simpl.
    + split; [discriminate | intros [t Ht]; discriminate].
    + destruct (Ascii.ascii_dec a b) as [->|Hab].
      * rewrite IH. split; intros [t Ht]; exists t; congruence.
      * split; [discriminate | intros [t Ht]; congruence].
Qed.

Lemma drop_append (p t : string) : drop (String.length p) (p +:+ t) = t.
Proof. induction p as [|a p IH]; simpl; [now destruct t | exact IH]. Qed.

Lemma index_from_absent (needle s : string) (i : Z) :
  0 ≤ i → index_from needle s i = -1 ↔ ¬ substring_of needle s.
Proof.
  revert i. induction s as [|c s IH]; intros i Hi; cbn [index_from].
  - destruct (String.prefix needle "") eqn:Hp.
    + split; [lia |]. intros H. exfalso. apply H.
      apply prefix_spec in Hp as [t Ht]. exists "", t. exact Ht.
    + split; [| reflexivity]. intros _ (pre & post & H).
      destruct pre; [| discriminate]. simpl in H.
      assert (String.prefix needle "" = true) by (apply prefix_spec; now exists post).
      congruence.
  - destruct (String.prefix needle (String c s)) eqn:Hp.
    + split; [lia |]. intros H. exfalso. apply H.
      apply prefix_spec in Hp as [t Ht]. exists "", t. exact Ht.
    + rewrite (IH (i + 1)) by lia. split; intros H (pre & post & E); apply H.
      * destruct pre as [|x pre]; simpl in E.
        -- assert (String.prefix needle (String c s) = true)
             by (apply prefix_spec; now exists post).
           congruence.
        -- exists pre, post. congruence.
      * exists (String c pre), post. simpl. now rewrite E.
Qed.

Lemma indexOf_absent (s needle : string) :
  indexOf s needle = -1 ↔ ¬ substring_of needle s.
Proof. apply index_from_absent. lia. Qed.

Lemma digits_prefix_split (s : string) :
  ∃ post, s = digits_prefix s +:+ post ∧ all_digits (digits_prefix s) ∧ no_digit_head post.
Proof.
  induction s as [|c s (post & E & Hd & Hn)]; simpl.
  - exists "". repeat split.
  - destruct (is_digit c) eqn:Hc.
    + exists post. simpl. repeat split; [congruence | assumption..].
    + exists (String c s). simpl. repeat split. exact Hc.
Qed.

Lemma digits_prefix_unique (ds post : string) :
  all_digits ds → no_digit_head post → digits_prefix (ds +:+ post) = ds.
Proof.
  intros Hd Hn. induction ds as [|c ds IH]; simpl in *.
  - destruct post as [|x post]; simpl in *; [reflexivity | now rewrite Hn].
  - destruct Hd as [Hc Hd]. rewrite Hc. now rewrite IH.
Qed.

Lemma match_here_spec (d s ds : string) :
  match_here d s = Some ds ↔ occurs d s "" ds.
Proof.
  unfold match_here, occurs. simpl. split.
  - destruct (String.prefix d s) eqn:Hp; [| discriminate].
    apply prefix_spec in Hp as [t ->]. rewrite drop_append.
    destruct (digits_prefix_split t) as (post & E & Hd & Hn).
    destruct (digits_prefix t) as [|c r] eqn:Ht; [discriminate |].
    intros [= <-]. exists post.
    split; [congruence |]. split; [discriminate |]. split; assumption.
  - intros (post & -> & Hne & Hd & Hn).
    assert (Hp : String.prefix d (d +:+ ds +:+ post) = true)
      by (apply prefix_spec; eauto).
    rewrite Hp, drop_append, digits_prefix_unique by assumption.
    destruct ds; [congruence | reflexivity].
Qed.

Lemma occurs_tail (d s pre ds : string) (c : ascii) :
  occurs d s pre ds → occurs d (String c s) (String c pre) ds.
Proof. intros (post & -> & H). exists post. split; [reflexivity | exact H]. Qed.

Lemma occurs_cons (d s pre ds : string) (c : ascii) :
  occurs d (String c s) (String c pre) ds → occurs d s pre ds.
Proof. intros (post & E & H). exists post. split; [simpl in E; congruence | exact H]. Qed.

Lemma occurs_here_unique (d s ds ds' : string) :
  occurs d s "" ds → occurs d s "" ds' → ds = ds'.
Proof. rewrite <- !match_here_spec. congruence. Qed.

Lemma regex_match_none (d s : string) :
  regex_match d s = None ↔ no_match d s.
Proof.
  induction s as [|c s IH]; simpl.
  - destruct (match_here d "") as [ds|] eqn:Hm.
    + split; [discriminate |]. intros H. apply match_here_spec in Hm. now apply H in Hm.
    + split; [| reflexivity]. intros _ pre ds Ho.
      destruct pre as [|x pre].
      * apply match_here_spec in Ho. congruence.
      * destruct Ho as (post & E & _). discriminate.
  - destruct (match_here d (String c s)) as [ds|] eqn:Hm.
    + split; [discriminate |]. intros H. apply match_here_spec in Hm. now apply H in Hm.
    + rewrite IH. split; intros H pre ds Ho.
      * destruct pre as [|x pre].
        -- apply match_here_spec in Ho. congruence.
        -- assert (x = c) as -> by (destruct Ho as (post & E & _); simpl in E; congruence).
           apply occurs_cons in Ho. now apply H in Ho.
      * apply (H (String c pre) ds). now apply occurs_tail.
Qed.

Lemma regex_match_first (d s ds : string) :
  regex_match d s = Some ds ↔ first_match d s ds.
Proof.
  revert ds. induction s as [|c s IH]; intros ds; simpl.
  - destruct (match_here d "") as [ds0|] eqn:Hm.
    + apply match_here_spec in Hm. split.
      * intros [= <-]. exists "". split; [exact Hm | intros; simpl; lia].
      * intros (pre & Ho & _). f_equal.
        destruct pre; [| destruct Ho as (post & E & _); discriminate].
        eapply occurs_here_unique; eassumption.
    + split; [discriminate |]. intros (pre & Ho & _).
      destruct pre; [| destruct Ho as (post & E & _); discriminate].
      apply match_here_spec in Ho. congruence.
  - destruct (match_here d (String c s)) as [ds0|] eqn:Hm.
    + apply match_here_spec in Hm. split.
      * intros [= <-]. exists "". split; [exact Hm | intros; simpl; lia].
      * intros (pre & Ho & Hmin). f_equal.
        specialize (Hmin "" ds0 Hm). destruct pre; [| simpl in Hmin; lia].
        eapply occurs_here_unique; eassumption.
    + rewrite IH. split.
      * intros (pre & Ho & Hmin). exists (String c pre). split; [now apply occurs_tail |].
        intros pre' ds' Ho'. destruct pre' as [|x pre'].
        -- apply match_here_spec in Ho'. congruence.
        -- assert (x = c) as -> by (destruct Ho' as (post & E & _); simpl in E; congruence).
           apply occurs_cons in Ho'. specialize (Hmin _ _ Ho'). simpl. lia.
      * intros (pre & Ho & Hmin). destruct pre as [|x pre].
        -- apply match_here_spec in Ho. congruence.
        -- assert (x = c) as -> by (destruct Ho as (post & E & _); simpl in E; congruence).
           exists pre. split; [now apply occurs_cons in Ho |].
           intros pre' ds' Ho'. apply (occurs_tail _ _ _ _ c) in Ho'.
           specialize (Hmin _ _ Ho'). simpl in Hmin. lia.
Qed.

Lemma is_digit_value (c : ascii) : is_digit c = true → 0 ≤ digit_value c ≤ 9.
Proof.
  unfold is_digit, digit_value. intros H.
  apply andb_true_iff in H as [H1 H2].
  apply Nat.leb_le in H1, H2. lia.
Qed.

Lemma parse_digits_nonneg (s : string) (acc : Z) : 0 ≤ acc → 0 ≤ parse_digits acc s.
Proof.
  revert acc. induction s as [|c s IH]; intros acc Ha; simpl; [exact Ha |].
  destruct (is_digit c) eqn:Hc; [| exact Ha].
  apply IH. pose proof (is_digit_value c Hc). lia.
Qed.

Lemma parseInt_nonneg (s : string) : 0 ≤ parseInt s.
Proof. apply parse_digits_nonneg. lia. Qed.

(** [parseInt] reads back the decimal numeral of a natural number. *)
Lemma parse_digits_snoc (s : string) (c : ascii) (acc : Z) :
  all_digits s → is_digit c = true →
  parse_digits acc (s +:+ String c "") = 10 * parse_digits acc s + digit_value c.
Proof.
  revert acc. induction s as [|x s IH]; intros acc Hs Hc; simpl in *.
  - now rewrite Hc.
  - destruct Hs as [Hx Hs]. rewrite Hx. now apply IH.
Qed.

End StrFacts.

(** ** C3: the TTL parser *)


(** ** C2: the lock table *)

Module LockerFacts.
Import FileLocker.

Section Facts.
Context {P : Type}.
Implicit Types (t : gmap string (entry P)) (cs : list (call P)) (k : string).

Lemma do_call_other k (c : call P) t :
  match c with Lock f _ _ | Unlock f _ => f ≠ k end →
  (do_call c t).1 !! k = t !! k.
Proof.
  destruct c as [f p now|f now]; intros Hf; simpl; unfold lock, unlock.
  - destruct (t !! f); simpl; now rewrite lookup_insert_ne.
  - destruct (t !! f) as [e|]; [| reflexivity].
    destruct (onRelease e); simpl;
      [now rewrite lookup_delete_ne | now rewrite lookup_insert_ne].
Qed.

Lemma tracks_other k held (c : call P) t :
  match c with Lock f _ _ | Unlock f _ => f ≠ k end →
  tracks k held t → tracks k held (do_call c t).1.
Proof.
  intros Hf. unfold tracks. now rewrite (do_call_other k c t Hf).
Qed.

Lemma tracks_lock k held p now t :
  tracks k held t → tracks k (S held) (lock k p now t).1.
Proof.
  unfold lock. destruct held as [|w]; simpl.
  - intros ->. simpl. eexists. rewrite lookup_insert_eq. split; reflexivity.
  - intros (e & -> & Hlen). simpl. eexists. rewrite lookup_insert_eq.
    split; [reflexivity |]. simpl. rewrite length_app. simpl. lia.
Qed.

Lemma tracks_unlock k held now t :
  tracks k (S held) t → tracks k held (unlock k now t).1.
Proof.
  unfold unlock. intros (e & -> & Hlen).
  destruct (onRelease e) as [|p w] eqn:Hq; simpl in *.
  - subst held. simpl. apply lookup_delete_eq.
  - subst held. simpl. eexists. rewrite lookup_insert_eq. split; reflexivity.
Qed.

Lemma run_calls_cons (c : call P) cs t :
  (run_calls (c :: cs) t).1 = (run_calls cs (do_call c t).1).1.
Proof.
  simpl. destruct (do_call c t) as [t1 ran]. simpl.
  now destruct (run_calls cs t1).
Qed.

Lemma balanced_from_releases k cs : ∀ held t,
  tracks k held t → balanced_from k held cs = true →
  (run_calls cs t).1 !! k = None.
Proof.
  induction cs as [|c cs IH]; intros held t Ht Hb.
  - simpl in *. apply Nat.eqb_eq in Hb. subst held. exact Ht.
  - rewrite run_calls_cons. destruct c as [f p now|f now]; simpl in Hb.
    + destruct (decide (f = k)) as [->|Hf].
      * apply (IH (S held)); [| exact Hb]. now apply tracks_lock.
      * apply (IH held); [| exact Hb].
        now apply (tracks_other k held (Lock f p now)).
    + destruct (decide (f = k)) as [->|Hf].
      * destruct held as [|h]; [discriminate |].
        apply (IH h); [| exact Hb]. now apply tracks_unlock.
      * apply (IH held); [| exact Hb].
        now apply (tracks_other k held (Unlock f now)).
Qed.

(** A [lock] of a held key queues its continuation behind the others. *)
Lemma lock_appends k p now t e :
  t !! k = Some e →
  lock k p now t = (<[k := Entry (lastUpdated e) (onRelease e ++ [p])]> t, None).
Proof. unfold lock. now intros ->. Qed.

End Facts.
End LockerFacts.

(** C2. For every key [k], table with no entry for [k], and sequence of
    [lock]/[unlock] calls (on any keys) in which every [unlock(k)] is made
    while a caller of [lock(k)] has not unlocked yet and none is left at the
    end, the table has no entry for [k] after the sequence.  The first
    [lock] creates the entry and runs its [proceed]; a later [lock] queues
    its [proceed] at the tail; [unlock] hands over to the head of the queue,
    or deletes the entry when the queue is empty. *)
Theorem FileLocker_balanced {P : Type} (k : string) :
  (∀ (t : gmap string (FileLocker.entry P)) cs,
     t !! k = None → FileLocker.balanced k cs →
     (FileLocker.run_calls cs t).1 !! k = None)
  ∧ (∀ (t : gmap string (FileLocker.entry P)) p now,
       t !! k = None →
       FileLocker.lock k p now t = (<[k := FileLocker.Entry now []]> t, Some p))
  ∧ (∀ (t : gmap string (FileLocker.entry P)) e p now,
       t !! k = Some e →
       FileLocker.lock k p now t
       = (<[k := FileLocker.Entry (FileLocker.lastUpdated e)
                                  (FileLocker.onRelease e ++ [p])]> t, None))
  ∧ (∀ (t : gmap string (FileLocker.entry P)) e p waiting now,
       t !! k = Some e → FileLocker.onRelease e = p :: waiting →
       FileLocker.unlock k now t = (<[k := FileLocker.Entry now waiting]> t, Some p))
  ∧ (∀ (t : gmap string (FileLocker.entry P)) e now,
       t !! k = Some e → FileLocker.onRelease e = [] →
       FileLocker.unlock k now t = (delete k t, None)).
Proof.
  repeat split.
  - intros t cs Ht Hb. now apply (LockerFacts.balanced_from_releases k cs 0%nat t).
  - intros t p now Ht. unfold FileLocker.lock. now rewrite Ht.
  - intros t e p now Ht. now apply LockerFacts.lock_appends.
  - intros t e p w now Ht Hq. unfold FileLocker.unlock. now rewrite Ht, Hq.
  - intros t e now Ht Hq. unfold FileLocker.unlock. now rewrite Ht, Hq.
Qed.

(** Three callers contend for one key while another key is used: the first
    runs at once, the other two in arrival order, and the table ends empty. *)
Example FileLocker_fifo :
  FileLocker.run_calls
    [FileLocker.Lock "k" 1%nat 10; FileLocker.Lock "k" 2%nat 11;
     FileLocker.Lock "j" 7%nat 12; FileLocker.Lock "k" 3%nat 12;
     FileLocker.Unlock "k" 13; FileLocker.Unlock "j" 14;
     FileLocker.Unlock "k" 15; FileLocker.Unlock "k" 16] ∅
  = (∅, [1; 7; 2; 3]%nat).
Proof. vm_compute. reflexivity. Qed.

(** ** C5: the filesystem probe *)

(** C5. The probe reports a hit with [(atime, mtime)] iff the stat succeeds
    on a regular file of positive size whose [mtime] is strictly after the
    current time (for a stat answered by the file system: iff such a file
    exists at the path).  On [ENOENT] it calls [fs.mkdir] on the shard
    directory, which creates it when absent, and reports a miss whatever
    [mkdir] answers, logging only codes other than [EEXIST].  On any other
    stat error it logs and reports a miss, never an error.  In every
    remaining case (wrong type, zero size, [mtime <= now]) it reports a
    miss. *)
Theorem probe_spec (o : options) (c : fetch_call) (s : state) :
  (∀ r a m,
     (statted o c r s).2 = Some (Hit a m)
     ↔ ∃ st, r = inr st ∧ isFile st = true ∧ 0 < size st ∧ clock s < mtime st
             ∧ a = atime st ∧ m = mtime st)
  ∧ (∀ a m,
       (statted o c (Fs.stat (files s) (filename c)) s).2 = Some (Hit a m)
       ↔ ∃ st, files s !! filename c = Some st
               ∧ isFile st = true ∧ 0 < size st ∧ clock s < mtime st
               ∧ a = atime st ∧ m = mtime st)
  ∧ statted o c (inl "ENOENT") s = (spawn (TMkdir c) s, None)
  ∧ (∀ err s1,
       (mkdired c err s1).2 = Miss
       ∧ (mkdired c err s1).1
         = match err with
           | Some errcode =>
               if decide (errcode = "EEXIST") then s1
               else log ("Could not mkdir " +:+ cachePath c +:+ " " +:+ errcode) s1
           | None => s1
           end)
  ∧ (∀ d rest,
       pick (sel_mkdir d) (tasks s) = Some (c, rest) →
       files s !! cachePath c = None →
       ∃ s' st, step o (EvMkdir d None) s = Some s'
                ∧ files s' !! cachePath c = Some st ∧ isFile st = false)
  ∧ (∀ errcode,
       errcode ≠ "ENOENT" →
       statted o c (inl errcode) s
       = (log ("Could not stat " +:+ filename c +:+ " " +:+ errcode) s, Some Miss))
  ∧ (∀ st,
       ¬ (isFile st = true ∧ 0 < size st ∧ clock s < mtime st) →
       (statted o c (inr st) s).2 = Some Miss).
Proof.
  assert (Hhit : ∀ r a m,
     (statted o c r s).2 = Some (Hit a m)
     ↔ ∃ st, r = inr st ∧ isFile st = true ∧ 0 < size st ∧ clock s < mtime st
             ∧ a = atime st ∧ m = mtime st).
  { intros r a m. unfold statted. split.
    - destruct r as [errcode|st].
      + destruct (String.eqb errcode "ENOENT"); discriminate.
      + destruct (isFile st) eqn:Hf; [| discriminate].
        destruct (0 <? size st) eqn:Hs; [| discriminate].
        destruct (clock s <? mtime st) eqn:Hm; [| discriminate].
        simpl. intros [= <- <-]. exists st.
        apply Z.ltb_lt in Hs, Hm. repeat split; assumption.
    - intros (st & -> & Hf & Hs & Hm & -> & ->).
      apply Z.ltb_lt in Hs, Hm. now rewrite Hf, Hs, Hm. }
  split; [exact Hhit |]. split; [| split; [| split; [| split; [| split]]]].
  - intros a m. rewrite Hhit. unfold Fs.stat. split.
    + intros (st & Hr & H). exists st. split; [| exact H].
      destruct (files s !! filename c); congruence.
    + intros (st & Hr & H). exists st. rewrite Hr. split; [reflexivity | exact H].
  - reflexivity.
  - intros err s1. split; [reflexivity |]. unfold mkdired. simpl.
    destruct err as [errcode|]; [| reflexivity].
    destruct (decide (errcode = "EEXIST")) as [->|Hne]; [reflexivity |].
    apply String.eqb_neq in Hne. now rewrite Hne.
  - intros d rest Hp Hnone. simpl. rewrite Hp. unfold Fs.mkdir. rewrite Hnone. simpl.
    eexists _, _. split; [reflexivity |]. unfold probe_done, fetchFromUpstream, debug_log, log.
    destruct (debug o); simpl; rewrite lookup_insert_eq; split; reflexivity.
  - intros errcode Hne. unfold statted. apply String.eqb_neq in Hne. now rewrite Hne.
  - intros st Hno. unfold statted.
    destruct (isFile st) eqn:Hf; [| reflexivity].
    destruct (0 <? size st) eqn:Hs; [| reflexivity].
    destruct (clock s <? mtime st) eqn:Hm; [| reflexivity].
    apply Z.ltb_lt in Hs, Hm. tauto.
Qed.

(** ** One step of the event loop *)

Module StepFacts.

Lemma trace_locker_unlock (file : string) (s : state) :
  trace (locker_unlock file s) = trace s ++ handover (lockedFiles s) file.
Proof.
  unfold locker_unlock, handover, next_waiter, FileLocker.unlock.
  destruct (lockedFiles s !! file) as [e|]; [| reflexivity].
  destruct (FileLocker.onRelease e) as [|p w]; [reflexivity |].
  unfold invoke. simpl. now rewrite <- app_assoc.
Qed.

Lemma files_locker_unlock (file : string) (s : state) :
  files (locker_unlock file s) = files s.
Proof.
  unfold locker_unlock, FileLocker.unlock.
  destruct (lockedFiles s !! file) as [e|]; [| reflexivity].
  destruct (FileLocker.onRelease e) as [|p w]; [reflexivity |].
  now destruct p.
Qed.

Lemma clock_locker_unlock (file : string) (s : state) :
  clock (locker_unlock file s) = clock s.
Proof.
  unfold locker_unlock, FileLocker.unlock.
  destruct (lockedFiles s !! file) as [e|]; [| reflexivity].
  destruct (FileLocker.onRelease e) as [|p w]; [reflexivity |].
  now destruct p.
Qed.

Lemma trace_debug_log (o : options) (msg : string) (s : state) :
  trace (debug_log o msg s) = trace s ++ debugged o msg.
Proof.
  unfold debug_log, debugged. destruct (debug o); simpl; [reflexivity |].
  now rewrite app_nil_r.
Qed.

Lemma lockedFiles_debug_log (o : options) (msg : string) (s : state) :
  lockedFiles (debug_log o msg s) = lockedFiles s.
Proof. unfold debug_log. now destruct (debug o). Qed.

Lemma files_debug_log (o : options) (msg : string) (s : state) :
  files (debug_log o msg s) = files s.
Proof. unfold debug_log. now destruct (debug o). Qed.

Lemma tasks_debug_log (o : options) (msg : string) (s : state) :
  tasks (debug_log o msg s) = tasks s.
Proof. unfold debug_log. now destruct (debug o). Qed.

Lemma clock_debug_log (o : options) (msg : string) (s : state) :
  clock (debug_log o msg s) = clock s.
Proof. unfold debug_log. now destruct (debug o). Qed.

(** The trace of the three ways [fetch] answers its caller. *)

Lemma trace_probe_hit (o : options) (c : fetch_call) (a m : Z) (s : state) :
  trace (probe_done o c (Hit a m) s)
  = trace s ++ debugged o ("Filesystem hit " +:+ filename c)
            ++ handover (lockedFiles s) (filename c)
            ++ [OCallback (done c) (Delivered (filename c) a m)].
Proof.
  unfold probe_done. simpl.
  rewrite trace_locker_unlock, trace_debug_log, lockedFiles_debug_log.
  now rewrite <- !app_assoc.
Qed.

Lemma trace_upstream_ok (o : options) (c : fetch_call) (a m : Z) (s : state) :
  trace (upstream_done o c (inr (a, m)) s)
  = trace s ++ debugged o ("Upstream OK " +:+ url c)
            ++ handover (lockedFiles s) (filename c)
            ++ [OCallback (done c) (Delivered (filename c) a m)].
Proof.
  unfold upstream_done. simpl.
  rewrite trace_locker_unlock, trace_debug_log, lockedFiles_debug_log.
  now rewrite <- !app_assoc.
Qed.

Lemma trace_upstream_failed (o : options) (c : fetch_call) (err : jserror) (s : state) :
  trace (upstream_done o c (inl err) s)
  = trace s ++ debugged o (message err)
            ++ [OCallback (done c) (Failed err)]
            ++ handover (lockedFiles s) (filename c).
Proof.
  unfold upstream_done.
  rewrite trace_locker_unlock. simpl.
  rewrite trace_debug_log, lockedFiles_debug_log.
  now rewrite <- !app_assoc.
Qed.

End StepFacts.

(** ** C10: the order of release and callback *)

(** C10. On a filesystem hit and on a successful upstream fetch the lock of
    the key is released, and the next waiter started, before the caller's
    callback runs; on an upstream failure the callback runs with the error
    first, and only then is the lock released and the next waiter started. *)
Theorem fetch_release_order (o : options) (s : state) (d : nat) (c : fetch_call) :
  (∀ rest fault a m s1,
     pick (sel_stat d) (tasks s) = Some (c, rest) →
     statted o c (match fault with
                  | Some errcode => inl errcode
                  | None => Fs.stat (files s) (filename c)
                  end) (set_tasks rest s) = (s1, Some (Hit a m)) →
     ∃ s', step o (EvStat d fault) s = Some s'
           ∧ trace s' = trace s ++ debugged o ("Filesystem hit " +:+ filename c)
                                ++ handover (lockedFiles s) (filename c)
                                ++ [OCallback (done c) (Delivered (filename c) a m)])
  ∧ (∀ rest a m,
       pick (sel_utimes d) (tasks s) = Some ((c, (a, m)), rest) →
       is_Some (files s !! filename c) →
       ∃ s', step o (EvUtimes d None) s = Some s'
             ∧ trace s' = trace s ++ debugged o ("Upstream OK " +:+ url c)
                                  ++ handover (lockedFiles s) (filename c)
                                  ++ [OCallback (done c) (Delivered (filename c) a m)])
  ∧ (∀ rest err,
       pick (sel_unlink d) (tasks s) = Some ((c, err), rest) →
       ∃ s', step o (EvUnlinkPart d) s = Some s'
             ∧ trace s' = trace s ++ debugged o (message (surfaced c err))
                                  ++ [OCallback (done c) (Failed (surfaced c err))]
                                  ++ handover (lockedFiles s) (filename c)).
Proof.
  split; [| split].
  - intros rest fault a m s1 Hp Hs. cbn [step]. rewrite Hp. cbv beta iota zeta. rewrite Hs.
    eexists. split; [reflexivity |].
    rewrite StepFacts.trace_probe_hit.
    unfold statted in Hs.
    destruct fault as [errcode|].
    + destruct (String.eqb errcode "ENOENT"); discriminate.
    + destruct (Fs.stat (files s) (filename c)) as [errcode|st].
      * destruct (String.eqb errcode "ENOENT"); discriminate.
      * destruct (_ && _); [| discriminate]. now injection Hs as <- _ _.
  - intros rest a m Hp [st Hst]. cbn [step]. rewrite Hp.
    unfold faulty, Fs.utimes. rewrite Hst. cbv beta iota.
    eexists. split; [reflexivity |].
    unfold stamped. now rewrite StepFacts.trace_upstream_ok.
  - intros rest err Hp. cbn [step]. rewrite Hp.
    eexists. split; [reflexivity |].
    unfold part_unlinked. now rewrite StepFacts.trace_upstream_failed.
Qed.

(** ** Picking a pending callback *)

Module PickFacts.

Lemma pick_none {A : Type} (sel : task → option A) (ts : list task) :
  pick sel ts = None ↔ Forall (λ t, sel t = None) ts.
Proof.
  induction ts as [|t ts IH]; simpl.
  - split; [constructor | reflexivity].
  - destruct (sel t) eqn:Ht.
    + split; [discriminate | intros H; inversion H; congruence].
    + destruct (pick sel ts) as [[a r]|].
      * split; [discriminate |]. intros H. inversion H; subst.
        destruct IH as [_ IH]. now specialize (IH ltac:(assumption)).
      * split; [| reflexivity]. intros _. constructor; [exact Ht | now apply IH].
Qed.

Lemma pick_some {A : Type} (sel : task → option A) (ts : list task) a rest :
  pick sel ts = Some (a, rest) →
  ∃ l1 t l2, ts = l1 ++ t :: l2 ∧ rest = l1 ++ l2 ∧ sel t = Some a
             ∧ Forall (λ t, sel t = None) l1.
Proof.
  revert rest. induction ts as [|t ts IH]; intros rest; simpl; [discriminate |].
  destruct (sel t) eqn:Ht.
  - intros [= <- <-]. exists [], t, ts. repeat split; [exact Ht | constructor].
  - destruct (pick sel ts) as [[a' r]|]; [| discriminate].
    intros [= <- <-]. destruct (IH r eq_refl) as (l1 & t' & l2 & -> & -> & Hs & Hl).
    exists (t :: l1), t', l2. repeat split; [exact Hs | now constructor].
Qed.

Lemma pick_snoc {A : Type} (sel : task → option A) (ts : list task) t a :
  pick sel ts = None → sel t = Some a → pick sel (ts ++ [t]) = Some (a, ts).
Proof.
  intros Hn Ht. induction ts as [|x ts IH]; simpl in *.
  - now rewrite Ht.
  - destruct (sel x); [discriminate |].
    destruct (pick sel ts) as [[? ?]|]; [discriminate |].
    now rewrite IH.
Qed.

(** Removing the picked callback does not make another selector succeed. *)
Lemma pick_rest_none {A B : Type} (sel : task → option A) (sel' : task → option B)
    (ts : list task) a rest :
  pick sel ts = Some (a, rest) → pick sel' ts = None → pick sel' rest = None.
Proof.
  intros Hs Hn. apply pick_some in Hs as (l1 & t & l2 & -> & -> & _ & _).
  apply pick_none in Hn. apply pick_none.
  apply Forall_app in Hn as [H1 H2]. inversion H2; subst.
  apply Forall_app. now split.
Qed.

Lemma for_call_inv (d : nat) (c c' : fetch_call) :
  for_call d c = Some c' → c' = c ∧ done c = d.
Proof.
  unfold for_call. destruct (Nat.eqb (done c) d) eqn:E; [| discriminate].
  apply Nat.eqb_eq in E. now intros [= <-].
Qed.

Lemma for_call_done (c : fetch_call) : for_call (done c) c = Some c.
Proof. unfold for_call. now rewrite Nat.eqb_refl. Qed.

(** The closure found by a selector belongs to the call it was asked for. *)
Lemma picked_done {A : Type} (sel : task → option A) (proj : A → fetch_call) (d : nat)
    (ts : list task) a rest :
  (∀ t a, sel t = Some a → done (proj a) = d) →
  pick sel ts = Some (a, rest) → done (proj a) = d.
Proof.
  intros Hsel Hp. apply pick_some in Hp as (l1 & t & l2 & _ & _ & Hs & _).
  now apply (Hsel t).
Qed.

Ltac sel_done :=
  let t := fresh "t" in let x := fresh "x" in
  intros t x; destruct t; simpl; try discriminate;
  repeat match goal with
         | |- context [match ?timer with Some _ => _ | None => _ end] =>
             destruct timer; [| discriminate]
         | |- context [if ?b then _ else _] => destruct b; [| discriminate]
         end;
  match goal with
  | |- context [for_call ?d ?c0] =>
      let H := fresh "H" in
      destruct (for_call d c0) eqn:H; [| discriminate];
      apply for_call_inv in H as [-> ?]; now intros [= <-]
  end.

Lemma sel_rename_done d ts c res rest :
  pick (sel_rename d) ts = Some ((c, res), rest) → done c = d.
Proof. apply (picked_done (sel_rename d) fst). sel_done. Qed.

Lemma sel_utimes_done d ts c am rest :
  pick (sel_utimes d) ts = Some ((c, am), rest) → done c = d.
Proof. apply (picked_done (sel_utimes d) fst). sel_done. Qed.

Lemma outcomes_app (d : nat) (l1 l2 : list obs) :
  outcomes d (l1 ++ l2) = outcomes d l1 ++ outcomes d l2.
Proof.
  induction l1 as [|ob l1 IH]; simpl; [reflexivity |].
  destruct ob as [| | | |? |d' r]; try exact IH.
  destruct (Nat.eqb d' d); simpl; now rewrite IH.
Qed.

Lemma outcomes_debugged (o : options) (d : nat) (msg : string) :
  outcomes d (debugged o msg) = [].
Proof. unfold debugged. now destruct (debug o). Qed.

Lemma outcomes_handover (d : nat) locks file : outcomes d (handover locks file) = [].
Proof. unfold handover. now destruct (next_waiter locks file). Qed.

Lemma outcomes_callback (c : fetch_call) (r : outcome) :
  outcomes (done c) [OCallback (done c) r] = [r].
Proof. simpl. now rewrite Nat.eqb_refl. Qed.

End PickFacts.

(** ** Calls with a single pending callback *)

Module CallFacts.
Import PickFacts.

Ltac addressed_tac :=
  let t := fresh "t" in let x := fresh "x" in
  intros t x; destruct t; simpl; try discriminate;
  repeat match goal with
         | |- context [match ?timer with Some _ => _ | None => _ end] =>
             destruct timer; [| discriminate]
         | |- context [if Z.leb ?a ?b then _ else _] => destruct (Z.leb a b); [| discriminate]
         end;
  try match goal with
      | |- context [for_call ?d ?c0] =>
          let H := fresh "H" in
          destruct (for_call d c0) eqn:H; [| discriminate];
          apply for_call_inv in H as [-> ?]; intros _; now split
      end.

Lemma addressed_stat d : addressed (sel_stat d) d.
Proof. addressed_tac. Qed.
Lemma addressed_mkdir d : addressed (sel_mkdir d) d.
Proof. addressed_tac. Qed.
Lemma addressed_get d : addressed (sel_get d) d.
Proof. addressed_tac. Qed.
Lemma addressed_body d : addressed (sel_body d) d.
Proof. addressed_tac. Qed.
Lemma addressed_timer now d : addressed (sel_timer now d) d.
Proof. addressed_tac. Qed.
Lemma addressed_close d : addressed (sel_close d) d.
Proof. addressed_tac. Qed.
Lemma addressed_rename d : addressed (sel_rename d) d.
Proof. addressed_tac. Qed.
Lemma addressed_utimes d : addressed (sel_utimes d) d.
Proof. addressed_tac. Qed.
Lemma addressed_unlink d : addressed (sel_unlink d) d.
Proof. addressed_tac. Qed.
Lemma addressed_purge d : addressed (sel_purge d) d.
Proof.
  intros t x; destruct t as [| | | | | | | | |file d']; simpl; try discriminate.
  destruct (Nat.eqb d' d) eqn:E; [| discriminate].
  apply Nat.eqb_eq in E. intros _. now split.
Qed.

Create HintDb petra.

#[global] Hint Resolve addressed_stat addressed_mkdir addressed_get addressed_body
  addressed_timer addressed_close addressed_rename addressed_utimes
  addressed_unlink addressed_purge : petra.

Lemma settled_pick {A : Type} (sel : task → option A) (d : nat) (ts : list task) :
  addressed sel d → settled d ts → pick sel ts = None.
Proof.
  intros Hsel Hts. apply pick_none. eapply Forall_impl; [exact Hts |].
  intros t Ht. simpl in Ht. destruct (sel t) as [a|] eqn:E; [| reflexivity].
  destruct (Hsel t a E) as [Hid Hlive]. specialize (Ht Hid). congruence.
Qed.

(** The one live callback of call [d] is the one picked. *)
Lemma pick_only {A : Type} (sel : task → option A) (d : nat) (l1 l2 : list task) t a :
  addressed sel d → settled d (l1 ++ l2) → sel t = Some a →
  pick sel (l1 ++ t :: l2) = Some (a, l1 ++ l2).
Proof.
  intros Hsel Hs Ht. apply Forall_app in Hs as [H1 H2].
  pose proof (settled_pick sel d l1 Hsel H1) as Hn1.
  clear H1 H2. induction l1 as [|x l1 IH]; simpl in *.
  - now rewrite Ht.
  - destruct (sel x); [discriminate |].
    destruct (pick sel l1) as [[? ?]|]; [discriminate |].
    now rewrite IH.
Qed.

Lemma pick_last {A : Type} (sel : task → option A) (d : nat) (ts : list task) t a :
  addressed sel d → settled d ts → sel t = Some a →
  pick sel (ts ++ [t]) = Some (a, ts).
Proof.
  intros Hsel Hs Ht.
  rewrite <- (app_nil_r ts) at 2.
  apply (pick_only sel d ts [] t a Hsel); [now rewrite app_nil_r | exact Ht].
Qed.

Lemma settled_snoc_aborted d ts c : settled d ts → settled d (ts ++ [TAborted c]).
Proof.
  intros H. apply Forall_app. split; [exact H |].
  constructor; [reflexivity | constructor].
Qed.

End CallFacts.

(** ** C4: the expiry stamp *)

Module StampFacts.

(** A successful rename leaves the downloaded file at the canonical path. *)
Lemma rename_ok (fs : gmap string stats) (p q : string) :
  (Fs.rename fs p q).2 = None →
  ∃ fs1 st0, Fs.rename fs p q = (fs1, None) ∧ fs1 !! q = Some st0.
Proof.
  unfold Fs.rename.
  destruct (fs !! p) as [st|]; [| discriminate].
  destruct (fs !! q) as [st'|].
  - destruct (isFile st && negb (isFile st')); [discriminate |].
    destruct (negb (isFile st) && isFile st'); [discriminate |].
    intros _. eexists _, st. split; [reflexivity | apply lookup_insert_eq].
  - intros _. eexists _, st. split; [reflexivity | apply lookup_insert_eq].
Qed.

(** The callback of a successful rename reads the clock and asks [utimes]
    for [atime = now] and [mtime = now + ttl * 1000]. *)
Lemma rename_step (o : options) (s : state) (d : nat) (c : fetch_call) (res : response)
    (rest : list task) :
  pick (sel_rename d) (tasks s) = Some ((c, res), rest) →
  (Fs.rename (files s) (partial c) (filename c)).2 = None →
  ∃ s', step o (EvRename d None) s = Some s'
        ∧ tasks s'
          = rest ++ [TUtimes c (clock s)
                       (clock s + Z.max (minimumTtl o)
                                    (ttlFromCacheControlHeader (cacheControl res)) * 1000)]
        ∧ files s' = (Fs.rename (files s) (partial c) (filename c)).1
        ∧ clock s' = clock s ∧ trace s' = trace s.
Proof.
  intros Hp Hren. destruct (rename_ok _ _ _ Hren) as (fs1 & st0 & Hfs & _).
  cbn [step]. rewrite Hp. unfold faulty. rewrite Hfs. cbv beta iota.
  eexists. split; [reflexivity |]. now repeat split.
Qed.

(** The callback of a successful [utimes] hands the caller the two times it
    asked for, which the file now carries. *)
Lemma utimes_step (o : options) (s : state) (d : nat) (c : fetch_call) (a m : Z)
    (rest : list task) :
  pick (sel_utimes d) (tasks s) = Some ((c, (a, m)), rest) →
  is_Some (files s !! filename c) →
  ∃ s' st, step o (EvUtimes d None) s = Some s'
           ∧ outcomes d (trace s') = outcomes d (trace s) ++ [Delivered (filename c) a m]
           ∧ files s' !! filename c = Some st ∧ atime st = a ∧ mtime st = m.
Proof.
  intros Hp [st0 Hst0].
  pose proof (PickFacts.sel_utimes_done _ _ _ _ _ Hp) as Hd. subst d.
  cbn [step]. rewrite Hp. unfold faulty, Fs.utimes. rewrite Hst0. cbv beta iota.
  eexists _, (Stats (isFile st0) (size st0) a m). split; [reflexivity |].
  split; [| split; [| split; reflexivity]].
  - unfold stamped. rewrite StepFacts.trace_upstream_ok. cbn [trace set_files set_tasks].
    rewrite !PickFacts.outcomes_app, PickFacts.outcomes_debugged, PickFacts.outcomes_handover.
    now rewrite PickFacts.outcomes_callback.
  - unfold stamped, upstream_done. cbn [files emit].
    rewrite StepFacts.files_locker_unlock, StepFacts.files_debug_log.
    apply lookup_insert_eq.
Qed.

End StampFacts.


(** ** C6: the error taxonomy *)

Module ErrorFacts.
Import PickFacts CallFacts.

(** The step that surfaces an [onError]. *)
Lemma surface (o : options) (s : state) (c : fetch_call) (err : jserror) l1 l2 :
  tasks s = l1 ++ TUnlinkPart c err :: l2 →
  settled (done c) (l1 ++ l2) →
  ∃ s', step o (EvUnlinkPart (done c)) s = Some s'
        ∧ outcomes (done c) (trace s')
          = outcomes (done c) (trace s) ++ [Failed (surfaced c err)]
        ∧ files s' = Fs.unlink (files s) (partial c).
Proof.
  intros Ht Hs. cbn [step]. rewrite Ht.
  rewrite (pick_only (sel_unlink (done c)) (done c) l1 l2 _ (c, err))
    by (auto with petra; simpl; now rewrite for_call_done).
  eexists. split; [reflexivity |]. unfold part_unlinked. split.
  - rewrite StepFacts.trace_upstream_failed. cbn [trace set_files set_tasks].
    rewrite !outcomes_app, outcomes_debugged, outcomes_handover, outcomes_callback.
    now rewrite app_nil_r.
  - unfold upstream_done. rewrite StepFacts.files_locker_unlock. cbn [files emit].
    now rewrite StepFacts.files_debug_log.
Qed.

Lemma includes_spec (l : list string) (v : jsvalue) :
  includes l v = true ↔ ∃ ct, v = JString ct ∧ ct ∈ l.
Proof.
  destruct v; simpl; try (split; [discriminate | intros (ct & H & _); discriminate]).
  rewrite bool_decide_eq_true. split; [eauto | now intros (ct & [= <-] & H)].
Qed.

Lemma accepted_checks (o : options) (res : response) :
  accepted o res →
  negb (statusCode res =? 200) = false
  ∧ (0 <? Z.of_nat (List.length (mediaTypes o)))
    && negb (includes (mediaTypes o) (contentType res)) = false.
Proof.
  intros [Hst Hm]. rewrite Hst. split; [reflexivity |].
  destruct Hm as [->|Hin]; [reflexivity |].
  apply includes_spec in Hin. rewrite Hin. apply andb_false_r.
Qed.

(** The state once an accepted response has started to stream. *)
Lemma respond (o : options) (s : state) (c : fetch_call) (res : response) l1 l2 :
  tasks s = l1 ++ TGet c :: l2 →
  settled (done c) (l1 ++ l2) →
  accepted o res →
  step o (EvGetResponse (done c) res) s
  = Some (State (lockedFiles s) (Fs.create (files s) (partial c) (clock s)) (clock s)
                ((l1 ++ l2) ++ [TBody c res (if 0 <? responseTimeout o
                                             then Some (clock s + responseTimeout o)
                                             else None)])
                (fresh s) (trace s)).
Proof.
  intros Ht Hs Hacc. cbn [step]. rewrite Ht.
  rewrite (pick_only (sel_get (done c)) (done c) l1 l2 _ c)
    by (auto with petra; simpl; now rewrite for_call_done).
  unfold get_responded. destruct (accepted_checks o res Hacc) as [-> ->].
  reflexivity.
Qed.

Lemma run_snoc (o : options) (es : list event) (e : event) (s s1 s2 : state) :
  run o es s = Some s1 → step o e s1 = Some s2 → run o (es ++ [e]) s = Some s2.
Proof.
  revert s. induction es as [|x es IH]; intros s; simpl.
  - intros [= <-] ->. reflexivity.
  - destruct (step o x s) as [sx|]; [| discriminate]. apply IH.
Qed.

Lemma run_app (o : options) (es1 es2 : list event) (s : state) :
  run o (es1 ++ es2) s = match run o es1 s with
                         | Some s1 => run o es2 s1
                         | None => None
                         end.
Proof.
  revert s. induction es1 as [|x es IH]; intros s; simpl; [reflexivity |].
  destruct (step o x s) as [sx|]; [apply IH | reflexivity].
Qed.

Lemma partial_ne (c : fetch_call) : partial c ≠ filename c.
Proof.
  unfold partial. intros H.
  apply (f_equal String.length) in H. rewrite StrFacts.length_append in H.
  simpl in H. lia.
Qed.

(** A failing path: events that leave one [onError] pending for the call
    and invoke no callback, followed by the unlink. *)
Lemma fails_after (o : options) (s s1 : state) (c : fetch_call) (err : jserror)
    (es : list event) l1 l2 :
  run o es s = Some s1 →
  tasks s1 = l1 ++ TUnlinkPart c err :: l2 →
  settled (done c) (l1 ++ l2) →
  outcomes (done c) (trace s1) = outcomes (done c) (trace s) →
  ∃ s', run o (es ++ [EvUnlinkPart (done c)]) s = Some s'
        ∧ outcomes (done c) (trace s')
          = outcomes (done c) (trace s) ++ [Failed (surfaced c err)].
Proof.
  intros Hrun Ht Hs Hout.
  destruct (surface o s1 c err l1 l2 Ht Hs) as (s' & Hstep & Hout' & _).
  exists s'. split; [now apply (run_snoc o es _ s s1) |].
  now rewrite Hout', Hout.
Qed.

End ErrorFacts.

(** C6 (as amended). With the request of a fetch pending, every failure
    raised at the transport, validation or timeout stage carries one numeric
    code: an error instead of a response gives 504 when its code is
    [ECONNREFUSED], [ETIMEDOUT] or [ESOCKETTIMEDOUT] and 502 otherwise; a
    status other than 200 gives that status, with [status code N]; a
    Content-Type outside a non-empty [mediaTypes] gives 415, with
    [unsupported media-type X]; the response timer gives 504, with
    [response timeout of Nms].  An error of the response stream keeps the
    code of the underlying error, and a failed rename or utimes carries no
    code.  Every message is prefixed by [Upstream {url} failed: ]. *)
Theorem upstream_error_codes (o : options) (s : state) (c : fetch_call)
    (l1 l2 : list task) :
  tasks s = l1 ++ TGet c :: l2 →
  settled (done c) (l1 ++ l2) →
  let d := done c in
  let upstream msg := "Upstream " +:+ url c +:+ " failed: " +:+ msg in
  (∀ err, fails_with o s c [EvGetError d err; EvUnlinkPart d]
            (JsError (upstream (message err)) (JNumber (transport_code (code err)))))
  ∧ (∀ x, x ∈ timeout_codes → transport_code (JString x) = 504)
  ∧ (∀ v, (∀ x, v = JString x → x ∉ timeout_codes) → transport_code v = 502)
  ∧ (∀ res, statusCode res ≠ 200 →
       fails_with o s c [EvGetResponse d res; EvUnlinkPart d]
         (JsError (upstream ("status code " +:+ pretty (statusCode res)))
                  (JNumber (statusCode res))))
  ∧ (∀ res, statusCode res = 200 → mediaTypes o ≠ [] →
       (∀ ct, contentType res = JString ct → ct ∉ mediaTypes o) →
       fails_with o s c [EvGetResponse d res; EvUnlinkPart d]
         (JsError (upstream ("unsupported media-type " +:+ template (contentType res)))
                  (JNumber 415)))
  ∧ (∀ res δ, accepted o res → 0 < responseTimeout o → responseTimeout o ≤ δ →
       fails_with o s c [EvGetResponse d res; EvTick δ; EvTimer d; EvUnlinkPart d]
         (JsError (upstream ("response timeout of " +:+ pretty (responseTimeout o) +:+ "ms"))
                  (JNumber 504)))
  ∧ (∀ res err, accepted o res →
       fails_with o s c [EvGetResponse d res; EvBodyError d err; EvUnlinkPart d]
         (JsError (upstream (message err)) (code err)))
  ∧ (∀ res n errcode, accepted o res → 0 ≤ n →
       fails_with o s c [EvGetResponse d res; EvBodyEnd d n; EvFileClose d;
                         EvRename d (Some errcode); EvUnlinkPart d]
         (JsError (upstream ("could not rename " +:+ partial c +:+ " as " +:+ filename c
                             +:+ " " +:+ errcode)) JUndefined))
  ∧ (∀ a m errcode,
       fails_with o (set_tasks (l1 ++ TUtimes c a m :: l2) s) c
                  [EvUtimes d (Some errcode); EvUnlinkPart d]
         (JsError (upstream ("could not update " +:+ filename c +:+ " " +:+ errcode))
                  JUndefined)).
Proof.
  intros Ht Hs d upstream. subst d upstream.
  assert (Hs' : settled (done c) ((l1 ++ l2) ++ [])) by now rewrite app_nil_r.
  assert (Hget : pick (sel_get (done c)) (l1 ++ TGet c :: l2) = Some (c, l1 ++ l2)).
  { apply (CallFacts.pick_only _ (done c)); [auto with petra | exact Hs |].
    simpl. apply PickFacts.for_call_done. }
  split; [| split; [| split; [| split; [| split; [| split; [| split; [| split]]]]]]].
  - intros err.
    eapply (ErrorFacts.fails_after o s _ c
              (errorWithCode (message err) (transport_code (code err)))
              [EvGetError (done c) err] (l1 ++ l2) []).
    + cbn [run step]. rewrite Ht, Hget. reflexivity.
    + reflexivity.
    + exact Hs'.
    + reflexivity.
  - intros x Hx. simpl. now rewrite bool_decide_eq_true_2.
  - intros v Hv. destruct v; try reflexivity. simpl.
    rewrite bool_decide_eq_false_2; [reflexivity | now apply Hv].
  - intros res Hst.
    eapply (ErrorFacts.fails_after o s _ c
              (errorWithCode ("status code " +:+ pretty (statusCode res)) (statusCode res))
              [EvGetResponse (done c) res] (l1 ++ l2) []).
    + cbn [run step]. rewrite Ht, Hget. unfold get_responded.
      apply Z.eqb_neq in Hst. rewrite Hst. reflexivity.
    + reflexivity.
    + exact Hs'.
    + simpl. rewrite PickFacts.outcomes_app. simpl. now rewrite app_nil_r.
  - intros res Hst Hm Hct.
    eapply (ErrorFacts.fails_after o s _ c
              (errorWithCode ("unsupported media-type " +:+ template (contentType res)) 415)
              [EvGetResponse (done c) res] (l1 ++ l2) []).
    + cbn [run step]. rewrite Ht, Hget. unfold get_responded. rewrite Hst.
      assert (includes (mediaTypes o) (contentType res) = false) as ->.
      { destruct (includes _ _) eqn:E; [| reflexivity].
        apply ErrorFacts.includes_spec in E as (ct & E & Hin). now apply Hct in E. }
      assert ((0 <? Z.of_nat (List.length (mediaTypes o))) = true) as ->.
      { destruct (mediaTypes o); [congruence | reflexivity]. }
      reflexivity.
    + reflexivity.
    + exact Hs'.
    + simpl. rewrite PickFacts.outcomes_app. simpl. now rewrite app_nil_r.
  - intros res δ Hacc Hpos Hδ.
    eapply (ErrorFacts.fails_after o s _ c
              (errorWithCode ("response timeout of " +:+ pretty (responseTimeout o) +:+ "ms") 504)
              [EvGetResponse (done c) res; EvTick δ; EvTimer (done c)]
              (l1 ++ l2) [TAborted c]).
    + cbn [run]. rewrite (ErrorFacts.respond o s c res l1 l2 Ht Hs Hacc).
      cbn [step]. assert ((0 <=? δ) = true) as -> by (apply Z.leb_le; lia).
      cbn [tasks clock].
      assert ((0 <? responseTimeout o) = true) as -> by (now apply Z.ltb_lt).
      rewrite (CallFacts.pick_last (sel_timer (clock s + δ) (done c)) (done c) _ _ c);
        [reflexivity | auto with petra | exact Hs |].
      simpl. assert ((clock s + responseTimeout o <=? clock s + δ) = true) as ->
        by (apply Z.leb_le; lia).
      apply PickFacts.for_call_done.
    + simpl. now rewrite <- app_assoc.
    + now apply CallFacts.settled_snoc_aborted.
    + simpl. rewrite PickFacts.outcomes_app. simpl. now rewrite app_nil_r.
  - intros res err Hacc.
    eapply (ErrorFacts.fails_after o s _ c err
              [EvGetResponse (done c) res; EvBodyError (done c) err] (l1 ++ l2) []).
    + cbn [run]. rewrite (ErrorFacts.respond o s c res l1 l2 Ht Hs Hacc).
      cbn [step tasks].
      rewrite (CallFacts.pick_last (sel_body (done c)) (done c) _ _ (c, res));
        [reflexivity | auto with petra | exact Hs |].
      simpl. now rewrite PickFacts.for_call_done.
    + reflexivity.
    + exact Hs'.
    + reflexivity.
  - intros res n errcode Hacc Hn.
    eapply (ErrorFacts.fails_after o s _ c
              (newError ("could not rename " +:+ partial c +:+ " as " +:+ filename c
                         +:+ " " +:+ errcode))
              [EvGetResponse (done c) res; EvBodyEnd (done c) n; EvFileClose (done c);
               EvRename (done c) (Some errcode)] (l1 ++ l2) []).
    + cbn [run]. rewrite (ErrorFacts.respond o s c res l1 l2 Ht Hs Hacc).
      cbn [step tasks].
      rewrite (CallFacts.pick_last (sel_body (done c)) (done c) _ _ (c, res));
        [| auto with petra | exact Hs | simpl; now rewrite PickFacts.for_call_done].
      assert ((0 <=? n) = true) as -> by (apply Z.leb_le; lia).
      cbn [body_ended spawn set_tasks set_files tasks].
      rewrite (CallFacts.pick_last (sel_close (done c)) (done c) _ _ (c, res));
        [| auto with petra | exact Hs | simpl; now rewrite PickFacts.for_call_done].
      cbn [file_closed spawn set_tasks set_files tasks].
      rewrite (CallFacts.pick_last (sel_rename (done c)) (done c) _ _ (c, res));
        [| auto with petra | exact Hs | simpl; now rewrite PickFacts.for_call_done].
      reflexivity.
    + reflexivity.
    + exact Hs'.
    + reflexivity.
  - intros a m errcode.
    eapply (ErrorFacts.fails_after o _ _ c
              (newError ("could not update " +:+ filename c +:+ " " +:+ errcode))
              [EvUtimes (done c) (Some errcode)]
              (l1 ++ l2) []).
    + cbn [run step tasks set_tasks].
      rewrite (CallFacts.pick_only (sel_utimes (done c)) (done c) l1 l2 _ (c, (a, m)));
        [reflexivity | auto with petra | exact Hs |].
      simpl. now rewrite PickFacts.for_call_done.
    + reflexivity.
    + exact Hs'.
    + reflexivity.
Qed.

(** ** C7: what a failed fetch leaves on disk *)

Module CleanupFacts.
Import PickFacts CallFacts.

Lemma pick_focus {A : Type} (sel : task → option A) (d : nat) (l1 l2 : list task) t :
  addressed sel d → settled d (l1 ++ l2) →
  pick sel (l1 ++ t :: l2)
  = match sel t with
    | Some a => Some (a, l1 ++ l2)
    | None => None
    end.
Proof.
  intros Hsel Hs. destruct (sel t) as [a|] eqn:Ht.
  - now apply (pick_only sel d).
  - apply pick_none. apply Forall_app in Hs as [H1 H2].
    apply Forall_app. split; [| constructor; [exact Ht |]].
    + apply pick_none. now apply (settled_pick sel d).
    + apply pick_none. now apply (settled_pick sel d).
Qed.

Lemma create_other fs p k now : p ≠ k → Fs.create fs p now !! k = fs !! k.
Proof.
  intros Hne. unfold Fs.create. destruct (fs !! p) as [st|].
  - destruct (isFile st); [now rewrite lookup_insert_ne | reflexivity].
  - now rewrite lookup_insert_ne.
Qed.

Lemma written_other fs p k n now : p ≠ k → Fs.written fs p n now !! k = fs !! k.
Proof.
  intros Hne. unfold Fs.written. destruct (fs !! p) as [st|]; [| reflexivity].
  destruct (isFile st); [now rewrite lookup_insert_ne | reflexivity].
Qed.

Lemma unlink_other fs p k : p ≠ k → Fs.unlink fs p !! k = fs !! k.
Proof.
  intros Hne. unfold Fs.unlink. destruct (fs !! p) as [st|]; [| reflexivity].
  destruct (isFile st); [now rewrite lookup_delete_ne | reflexivity].
Qed.

Lemma unlink_is_file fs p : Fs.is_file (Fs.unlink fs p) p = false.
Proof.
  unfold Fs.is_file, Fs.unlink. destruct (fs !! p) as [st|] eqn:E.
  - destruct (isFile st) eqn:Hf; [now rewrite lookup_delete_eq | now rewrite E, Hf].
  - now rewrite E.
Qed.

Lemma rename_result fs from to :
  match Fs.rename fs from to with
  | (fs', None) => is_Some (fs' !! to)
  | (fs', Some _) => fs' = fs
  end.
Proof.
  unfold Fs.rename. destruct (fs !! from) as [st|]; [| reflexivity].
  destruct (fs !! to) as [st'|].
  - destruct (isFile st && negb (isFile st')); [reflexivity |].
    destruct (negb (isFile st) && isFile st'); [reflexivity |].
    rewrite lookup_insert_eq. eauto.
  - rewrite lookup_insert_eq. eauto.
Qed.

Lemma settled_nil_r d (ts : list task) : settled d ts → settled d (ts ++ []).
Proof. now rewrite app_nil_r. Qed.

#[local] Hint Resolve settled_nil_r settled_snoc_aborted : petra.

(** Every callback of the upstream fetch leaves it at a stage. *)
Lemma stage_step (o : options) (c : fetch_call) orig called (e : event) (s s' : state) :
  upstream_event (done c) e = true →
  step o e s = Some s' →
  in_stage c orig called s → in_stage c orig called s'.
Proof.
  intros He Hstep (l1 & t & l2 & Ht & Hs & Hst & Hout).
  pose proof (partial_ne := ErrorFacts.partial_ne c).
  destruct e as [δ|u|u|d f|d f|d err|d res|d n|d err|d|d err|d|d f|d f|d|d];
    simpl in He; try discriminate;
    try (apply Nat.eqb_eq in He; subst d);
    cbn [step] in Hstep.
  - (* tick *)
    destruct (0 <=? δ); [| discriminate]. injection Hstep as <-.
    now exists l1, t, l2.
  - (* the request fails *)
    rewrite Ht, (pick_focus _ (done c)) in Hstep by auto with petra.
    destruct Hst; simpl in Hstep; try discriminate.
    rewrite for_call_done in Hstep. injection Hstep as <-.
    exists (l1 ++ l2), (TUnlinkPart c (errorWithCode (message err) (transport_code (code err)))), [].
    repeat split; auto with petra. now apply StFailed.
  - (* the response arrives *)
    rewrite Ht, (pick_focus _ (done c)) in Hstep by auto with petra.
    destruct Hst; simpl in Hstep; try discriminate.
    rewrite for_call_done in Hstep. injection Hstep as <-.
    unfold get_responded.
    destruct (negb (statusCode res =? 200)).
    { eexists (l1 ++ l2), _, []. repeat split; auto with petra.
      - now apply StFailed.
      - simpl. rewrite outcomes_app. simpl. now rewrite app_nil_r. }
    destruct (_ && _).
    { eexists (l1 ++ l2), _, []. repeat split; auto with petra.
      - now apply StFailed.
      - simpl. rewrite outcomes_app. simpl. now rewrite app_nil_r. }
    eexists (l1 ++ l2), _, []. repeat split; auto with petra.
    apply StBody. simpl. now rewrite create_other.
  - (* the body ends *)
    rewrite Ht, (pick_focus _ (done c)) in Hstep by auto with petra.
    destruct Hst; simpl in Hstep; try discriminate.
    rewrite for_call_done in Hstep. simpl in Hstep.
    destruct (0 <=? n); [| discriminate]. injection Hstep as <-.
    eexists (l1 ++ l2), _, []. repeat split; auto with petra.
    apply StClose. simpl. now rewrite written_other.
  - (* the body fails *)
    rewrite Ht, (pick_focus _ (done c)) in Hstep by auto with petra.
    destruct Hst; simpl in Hstep; try discriminate.
    rewrite for_call_done in Hstep. simpl in Hstep. injection Hstep as <-.
    eexists (l1 ++ l2), _, []. repeat split; auto with petra.
    now apply StFailed.
  - (* the timer fires *)
    rewrite Ht, (pick_focus _ (done c)) in Hstep by auto with petra.
    destruct Hst; simpl in Hstep; try discriminate.
    destruct timer as [due|]; [| discriminate].
    destruct (due <=? clock s); [| discriminate].
    rewrite for_call_done in Hstep. injection Hstep as <-.
    eexists (l1 ++ l2), _, [TAborted c]. repeat split.
    + simpl. now rewrite <- app_assoc.
    + auto with petra.
    + now apply StFailed.
    + simpl. rewrite outcomes_app. simpl. now rewrite app_nil_r.
  - (* the file closes *)
    rewrite Ht, (pick_focus _ (done c)) in Hstep by auto with petra.
    destruct Hst; simpl in Hstep; try discriminate.
    rewrite for_call_done in Hstep. simpl in Hstep. injection Hstep as <-.
    eexists (l1 ++ l2), _, []. repeat split; auto with petra.
    now apply StRename.
  - (* the rename completes *)
    rewrite Ht, (pick_focus _ (done c)) in Hstep by auto with petra.
    destruct Hst; simpl in Hstep; try discriminate.
    rewrite for_call_done in Hstep. simpl in Hstep.
    destruct f as [errcode|]; simpl in Hstep.
    + injection Hstep as <-.
      eexists (l1 ++ l2), _, []. repeat split; auto with petra.
      now apply StFailed.
    + pose proof (rename_result (files s) (partial c) (filename c)) as Hr.
      destruct (Fs.rename (files s) (partial c) (filename c)) as [fs' [errcode|]];
        injection Hstep as <-.
      * subst fs'. eexists (l1 ++ l2), _, []. repeat split; auto with petra.
        now apply StFailed.
      * eexists (l1 ++ l2), _, []. repeat split; auto with petra.
        now apply StUtimes.
  - (* utimes fails *)
    destruct f as [errcode|]; [| discriminate].
    apply Nat.eqb_eq in He; subst d.
    rewrite Ht, (pick_focus _ (done c)) in Hstep by auto with petra.
    destruct Hst; simpl in Hstep; try discriminate.
    rewrite for_call_done in Hstep. simpl in Hstep. injection Hstep as <-.
    eexists (l1 ++ l2), _, []. repeat split; auto with petra.
    now apply StUnstamped.
Qed.

Lemma stage_run (o : options) (c : fetch_call) orig called (es : list event) :
  ∀ s s', forallb (upstream_event (done c)) es = true →
          run o es s = Some s' →
          in_stage c orig called s → in_stage c orig called s'.
Proof.
  induction es as [|e es IH]; intros s s' Hes Hrun Hin; simpl in *.
  - now injection Hrun as <-.
  - apply andb_true_iff in Hes as [He Hes].
    destruct (step o e s) as [s1|] eqn:Hstep; [| discriminate].
    apply (IH s1 s' Hes Hrun). now apply (stage_step o c orig called e s).
Qed.

End CleanupFacts.


(** ** C1: single flight *)

Module FlightFacts.
Import PickFacts.

Lemma holders_app k (l1 l2 : list task) :
  holders k (l1 ++ l2) = (holders k l1 + holders k l2)%nat.
Proof. unfold holders. now rewrite List.filter_app, length_app. Qed.

Lemma holders_cons k t (l : list task) :
  holders k (t :: l) = ((if holds k t then 1 else 0) + holders k l)%nat.
Proof. unfold holders. simpl. now destruct (holds k t). Qed.

Lemma holders_snoc k t (l : list task) :
  holders k (l ++ [t]) = (holders k l + (if holds k t then 1 else 0))%nat.
Proof. rewrite holders_app, holders_cons. change (holders k []) with 0%nat. lia. Qed.

Lemma holders_removed k t (l1 l2 : list task) :
  holders k (l1 ++ t :: l2)
  = (holders k (l1 ++ l2) + (if holds k t then 1 else 0))%nat.
Proof. rewrite !holders_app, holders_cons. lia. Qed.

Lemma holds_file t : live t = true → holds (task_file t) t = true.
Proof. intros H. unfold holds. rewrite H. simpl. now apply bool_decide_eq_true. Qed.

Lemma holds_other k t : k ≠ task_file t → holds k t = false.
Proof.
  intros H. unfold holds. rewrite bool_decide_eq_false_2 by congruence.
  apply andb_false_r.
Qed.

Lemma holds_dead k t : live t = false → holds k t = false.
Proof. intros H. unfold holds. now rewrite H. Qed.

Lemma holds_started p : holds (proceed_file p) (started p) = true.
Proof. destruct p; now apply holds_file. Qed.

Lemma holds_started_other k p : k ≠ proceed_file p → holds k (started p) = false.
Proof. intros H. apply holds_other. now destruct p. Qed.

Lemma single_flight_view s s' : same_view s s' → single_flight s → single_flight s'.
Proof. intros [HL HT] H k. unfold single_flight in H. now rewrite HL, HT. Qed.

Lemma running_view k0 s s' : same_view s s' → running k0 s → running k0 s'.
Proof. intros [HL HT]. unfold running. now rewrite HL, HT. Qed.

Lemma view_emit ob s : same_view s (emit ob s).
Proof. now split. Qed.

Lemma view_debug_log o msg s : same_view s (debug_log o msg s).
Proof. unfold debug_log. destruct (debug o); now split. Qed.

Lemma view_set_files fs s : same_view s (set_files fs s).
Proof. now split. Qed.

(** Taking the picked callback off the list. *)
Lemma pick_running {A : Type} (sel : task → option A) (file : A → string)
    (s : state) a rest :
  filed sel file →
  pick sel (tasks s) = Some (a, rest) →
  single_flight s →
  running (file a) (set_tasks rest s).
Proof.
  intros Hsel Hp Hsf.
  apply pick_some in Hp as (l1 & t & l2 & Ht & -> & Hs & _).
  destruct (Hsel t a Hs) as [Hlive Hfile].
  pose proof (Hsf (file a)) as Hk. unfold guarded in Hk.
  rewrite Ht, holders_removed, <- Hfile, (holds_file t Hlive) in Hk.
  unfold running. cbn [lockedFiles tasks set_tasks]. rewrite <- Hfile.
  destruct (lockedFiles s !! task_file t) as [e|]; [| lia].
  destruct Hk as [Hk Hq]. split; [eauto |]. split; [lia |].
  intros k Hne. specialize (Hsf k). unfold guarded in *.
  now rewrite Ht, holders_removed, (holds_other k t Hne), Nat.add_0_r in Hsf.
Qed.

(** The callback registers its successor. *)
Lemma running_spawn k0 t s :
  running k0 s → live t = true → task_file t = k0 → single_flight (spawn t s).
Proof.
  intros ((e & He & Hq) & H0 & Hothers) Hlive Hfile k. subst k0.
  unfold guarded. cbn [lockedFiles tasks spawn set_tasks].
  rewrite holders_snoc. destruct (decide (k = task_file t)) as [->|Hne].
  - rewrite He, H0, (holds_file t Hlive). now split.
  - specialize (Hothers k Hne). unfold guarded in Hothers.
    rewrite (holds_other k t) by congruence. now rewrite Nat.add_0_r.
Qed.

Lemma single_flight_spawn_dead t s :
  single_flight s → live t = false → single_flight (spawn t s).
Proof.
  intros Hsf Hdead k. specialize (Hsf k). unfold guarded in *.
  cbn [lockedFiles tasks spawn set_tasks].
  now rewrite holders_snoc, (holds_dead k t Hdead), Nat.add_0_r.
Qed.

(** The callback releases the lock. *)
Lemma running_unlock k0 s : running k0 s → single_flight (locker_unlock k0 s).
Proof.
  intros ((e & He & Hq) & H0 & Hothers) k.
  unfold locker_unlock, FileLocker.unlock. rewrite He.
  destruct (FileLocker.onRelease e) as [|p w] eqn:Hw.
  - unfold guarded. cbn [lockedFiles tasks set_locks emit].
    destruct (decide (k = k0)) as [->|Hne].
    + now rewrite lookup_delete_eq.
    + rewrite lookup_delete_ne by congruence. now apply Hothers.
  - inversion Hq as [|? ? Hp Hw']; subst.
    unfold guarded, invoke. cbn [lockedFiles tasks spawn set_tasks emit set_locks].
    rewrite holders_snoc.
    destruct (decide (k = proceed_file p)) as [->|Hne].
    + rewrite lookup_insert_eq, H0, holds_started. cbn [FileLocker.onRelease].
      split; [reflexivity | exact Hw'].
    + rewrite lookup_insert_ne by congruence.
      specialize (Hothers k Hne). unfold guarded in Hothers.
      now rewrite holds_started_other, Nat.add_0_r.
Qed.

(** [fetch] and [purge] take or queue for the lock. *)
Lemma single_flight_lock k p s :
  proceed_file p = k → single_flight s → single_flight (locker_lock k p s).
Proof.
  intros Hp Hsf k'. unfold locker_lock, FileLocker.lock.
  pose proof (Hsf k) as Hk. unfold guarded in Hk.
  destruct (lockedFiles s !! k) as [e|] eqn:He.
  - unfold guarded. cbn [lockedFiles tasks set_locks].
    destruct (decide (k' = k)) as [->|Hne].
    + rewrite lookup_insert_eq. cbn [FileLocker.onRelease].
      destruct Hk as [Hk Hq]. split; [exact Hk |].
      apply Forall_app. split; [exact Hq | now constructor].
    + rewrite lookup_insert_ne by congruence. apply Hsf.
  - subst k. unfold guarded, invoke. cbn [lockedFiles tasks spawn set_tasks emit set_locks].
    rewrite holders_snoc.
    destruct (decide (k' = proceed_file p)) as [->|Hne].
    + rewrite lookup_insert_eq, Hk, holds_started. cbn [FileLocker.onRelease].
      split; [reflexivity | constructor].
    + rewrite lookup_insert_ne by congruence.
      specialize (Hsf k'). unfold guarded in Hsf.
      now rewrite holds_started_other, Nat.add_0_r.
Qed.

Ltac filed_tac :=
  let t := fresh "t" in let x := fresh "x" in
  intros t x; destruct t; simpl; try discriminate;
  repeat match goal with
         | |- context [match ?timer with Some _ => _ | None => _ end] =>
             destruct timer; [| discriminate]
         | |- context [if Z.leb ?a ?b then _ else _] => destruct (Z.leb a b); [| discriminate]
         end;
  try match goal with
      | |- context [for_call ?d ?c0] =>
          let H := fresh "H" in
          destruct (for_call d c0) eqn:H; [| discriminate];
          apply for_call_inv in H as [-> ?]; intros [= <-]; now split
      end.

Lemma filed_stat d : filed (sel_stat d) filename.
Proof. filed_tac. Qed.
Lemma filed_mkdir d : filed (sel_mkdir d) filename.
Proof. filed_tac. Qed.
Lemma filed_get d : filed (sel_get d) filename.
Proof. filed_tac. Qed.
Lemma filed_body d : filed (sel_body d) (λ a, filename a.1).
Proof. filed_tac. Qed.
Lemma filed_timer now d : filed (sel_timer now d) filename.
Proof. filed_tac. Qed.
Lemma filed_close d : filed (sel_close d) (λ a, filename a.1).
Proof. filed_tac. Qed.
Lemma filed_rename d : filed (sel_rename d) (λ a, filename a.1).
Proof. filed_tac. Qed.
Lemma filed_utimes d : filed (sel_utimes d) (λ a, filename a.1).
Proof. filed_tac. Qed.
Lemma filed_unlink d : filed (sel_unlink d) (λ a, filename a.1).
Proof. filed_tac. Qed.
Lemma filed_purge d : filed (sel_purge d) (λ file, file).
Proof.
  intros t x; destruct t as [| | | | | | | | |file d']; simpl; try discriminate.
  destruct (Nat.eqb d' d); [| discriminate]. intros [= <-]. now split.
Qed.

Lemma single_flight_onError c err s :
  running (filename c) s → single_flight (onError c err s).
Proof. intros H. now apply (running_spawn (filename c)). Qed.

Lemma single_flight_upstream_done o c r s :
  running (filename c) s → single_flight (upstream_done o c r s).
Proof.
  intros H. unfold upstream_done. destruct r as [err|[a m]].
  - apply running_unlock.
    apply (running_view _ _ _ (view_emit _ _)).
    now apply (running_view _ _ _ (view_debug_log _ _ _)).
  - apply (single_flight_view _ _ (view_emit _ _)).
    apply running_unlock.
    now apply (running_view _ _ _ (view_debug_log _ _ _)).
Qed.

Lemma single_flight_probe_done o c r s :
  running (filename c) s → single_flight (probe_done o c r s).
Proof.
  intros H. unfold probe_done. destruct r as [a m|].
  - apply (single_flight_view _ _ (view_emit _ _)).
    apply running_unlock.
    now apply (running_view _ _ _ (view_debug_log _ _ _)).
  - unfold fetchFromUpstream. apply (running_spawn (filename c)); [| reflexivity..].
    apply (running_view _ _ _ (view_emit _ _)).
    now apply (running_view _ _ _ (view_debug_log _ _ _)).
Qed.

(** Every step of a well-behaved environment keeps the promise of the lock
    table. *)
Lemma single_flight_step (o : options) (e : event) (s s' : state) :
  well_behaved e = true → step o e s = Some s' →
  single_flight s → single_flight s'.
Proof.
  intros Hwb Hstep Hsf.
  destruct e as [δ|u|u|d f|d f|d err|d res|d n|d err|d|d err|d|d f|d f|d|d];
    try discriminate; cbn [step] in Hstep.
  - destruct (0 <=? δ); [| discriminate]. injection Hstep as <-. exact Hsf.
  - injection Hstep as <-. unfold fetch. now apply single_flight_lock.
  - injection Hstep as <-. unfold purge. now apply single_flight_lock.
  - destruct (pick (sel_stat d) (tasks s)) as [[c rest]|] eqn:Hp; [| discriminate].
    pose proof (pick_running _ _ s c rest (filed_stat d) Hp Hsf) as Hrun.
    revert Hstep. unfold statted.
    destruct (match f with Some errcode => inl errcode | None => _ end) as [errcode|st].
    + destruct (String.eqb errcode "ENOENT"); intros [= <-].
      * now apply (running_spawn (filename c)).
      * apply (single_flight_probe_done o c Miss).
        now apply (running_view _ _ _ (view_emit _ _)).
    + destruct (_ && _); intros [= <-].
      * now apply (single_flight_probe_done o c (Hit (atime st) (mtime st))).
      * apply (single_flight_probe_done o c Miss).
        now apply (running_view _ _ _ (view_debug_log _ _ _)).
  - destruct (pick (sel_mkdir d) (tasks s)) as [[c rest]|] eqn:Hp; [| discriminate].
    pose proof (pick_running _ _ s c rest (filed_mkdir d) Hp Hsf) as Hrun.
    destruct (faulty f (files s) _) as [fs' err]. injection Hstep as <-.
    apply (single_flight_probe_done o c Miss). unfold mkdired. cbn [fst].
    apply (running_view _ _ _ (view_set_files fs' _)) in Hrun.
    destruct err as [errcode|]; [| exact Hrun].
    destruct (String.eqb errcode "EEXIST"); [exact Hrun |].
    now apply (running_view _ _ _ (view_emit _ _)).
  - destruct (pick (sel_get d) (tasks s)) as [[c rest]|] eqn:Hp; [| discriminate].
    pose proof (pick_running _ _ s c rest (filed_get d) Hp Hsf) as Hrun.
    injection Hstep as <-. now apply single_flight_onError.
  - destruct (pick (sel_get d) (tasks s)) as [[c rest]|] eqn:Hp; [| discriminate].
    pose proof (pick_running _ _ s c rest (filed_get d) Hp Hsf) as Hrun.
    injection Hstep as <-. unfold get_responded.
    destruct (negb _).
    { apply single_flight_onError. now apply (running_view _ _ _ (view_emit _ _)). }
    destruct (_ && _).
    { apply single_flight_onError. now apply (running_view _ _ _ (view_emit _ _)). }
    apply (running_spawn (filename c)); [| reflexivity..].
    now apply (running_view _ _ _ (view_set_files _ _)).
  - destruct (pick (sel_body d) (tasks s)) as [[[c res] rest]|] eqn:Hp; [| discriminate].
    pose proof (pick_running _ _ s _ rest (filed_body d) Hp Hsf) as Hrun.
    destruct (0 <=? n); [| discriminate]. injection Hstep as <-.
    unfold body_ended. apply (running_spawn (filename c)); [| reflexivity..].
    now apply (running_view _ _ _ (view_set_files _ _)).
  - destruct (pick (sel_body d) (tasks s)) as [[[c res] rest]|] eqn:Hp; [| discriminate].
    pose proof (pick_running _ _ s _ rest (filed_body d) Hp Hsf) as Hrun.
    injection Hstep as <-. now apply single_flight_onError.
  - destruct (pick (sel_timer (clock s) d) (tasks s)) as [[c rest]|] eqn:Hp; [| discriminate].
    pose proof (pick_running _ _ s _ rest (filed_timer (clock s) d) Hp Hsf) as Hrun.
    injection Hstep as <-. unfold timed_out.
    apply single_flight_spawn_dead; [| reflexivity].
    apply single_flight_onError. now apply (running_view _ _ _ (view_emit _ _)).
  - destruct (pick (sel_close d) (tasks s)) as [[[c res] rest]|] eqn:Hp; [| discriminate].
    pose proof (pick_running _ _ s _ rest (filed_close d) Hp Hsf) as Hrun.
    injection Hstep as <-. now apply (running_spawn (filename c)).
  - destruct (pick (sel_rename d) (tasks s)) as [[[c res] rest]|] eqn:Hp; [| discriminate].
    pose proof (pick_running _ _ s _ rest (filed_rename d) Hp Hsf) as Hrun.
    destruct (faulty f (files s) _) as [fs' err]. injection Hstep as <-.
    apply (running_view _ _ _ (view_set_files fs' _)) in Hrun.
    unfold renamed. destruct err as [errcode|].
    + now apply single_flight_onError.
    + now apply (running_spawn (filename c)).
  - destruct (pick (sel_utimes d) (tasks s)) as [[[c [a m]] rest]|] eqn:Hp; [| discriminate].
    pose proof (pick_running _ _ s _ rest (filed_utimes d) Hp Hsf) as Hrun.
    destruct (faulty f (files s) _) as [fs' err]. injection Hstep as <-.
    apply (running_view _ _ _ (view_set_files fs' _)) in Hrun.
    unfold stamped. destruct err as [errcode|].
    + now apply single_flight_onError.
    + now apply single_flight_upstream_done.
  - destruct (pick (sel_unlink d) (tasks s)) as [[[c err] rest]|] eqn:Hp; [| discriminate].
    pose proof (pick_running _ _ s _ rest (filed_unlink d) Hp Hsf) as Hrun.
    injection Hstep as <-. unfold part_unlinked.
    apply single_flight_upstream_done.
    now apply (running_view _ _ _ (view_set_files _ _)).
  - destruct (pick (sel_purge d) (tasks s)) as [[file rest]|] eqn:Hp; [| discriminate].
    pose proof (pick_running _ _ s _ rest (filed_purge d) Hp Hsf) as Hrun.
    injection Hstep as <-. unfold purge_unlinked.
    apply (single_flight_view _ _ (view_emit _ _)).
    apply running_unlock.
    now apply (running_view _ _ _ (view_set_files _ _)).
Qed.

Lemma single_flight_run (o : options) (es : list event) :
  ∀ s s', forallb well_behaved es = true → run o es s = Some s' →
          single_flight s → single_flight s'.
Proof.
  induction es as [|e es IH]; intros s s' Hes Hrun Hsf; simpl in *.
  - now injection Hrun as <-.
  - apply andb_true_iff in Hes as [He Hes].
    destruct (step o e s) as [s1|] eqn:Hstep; [| discriminate].
    apply (IH s1 s' Hes Hrun). now apply (single_flight_step o e s).
Qed.

Lemma single_flight_initial fs now : single_flight (initial fs now).
Proof. intros k. unfold guarded. simpl. now rewrite lookup_empty. Qed.

(** A request on the wire belongs to the holder of the lock. *)
Lemma in_flight_holders k s : (in_flight k s ≤ holders k (tasks s))%nat.
Proof.
  unfold in_flight, holders. induction (tasks s) as [|t ts IH]; simpl; [lia |].
  assert (H : requesting k t = true → holds k t = true).
  { destruct t; simpl; try discriminate; now unfold holds. }
  destruct (requesting k t); [rewrite H by reflexivity; simpl; lia |].
  destruct (holds k t); simpl; lia.
Qed.

Lemma single_flight_bound k s : single_flight s → (in_flight k s ≤ 1)%nat.
Proof.
  intros H. pose proof (in_flight_holders k s). specialize (H k). unfold guarded in H.
  destruct (lockedFiles s !! k); [destruct H |]; lia.
Qed.

End FlightFacts.

(** ** Closures come from [fetch] *)

Module CallsFacts.
Import PickFacts.

Section Calls.
Variable P : fetch_call → Prop.

Lemma all_calls_view s s' : same_view s s' → all_calls P s → all_calls P s'.
Proof. intros [HL HT]. unfold all_calls. now rewrite HL, HT. Qed.

Lemma all_calls_spawn t s :
  all_calls P s → (∀ c, task_call t = Some c → P c) → all_calls P (spawn t s).
Proof.
  intros [HT HL] Ht. split; [| exact HL].
  cbn [tasks spawn set_tasks]. apply Forall_app. split; [exact HT | now constructor].
Qed.

Lemma all_calls_picked {A : Type} (sel : task → option A) s a rest :
  pick sel (tasks s) = Some (a, rest) →
  all_calls P s →
  all_calls P (set_tasks rest s)
  ∧ ∃ t, sel t = Some a ∧ ∀ c, task_call t = Some c → P c.
Proof.
  intros Hp [HT HL]. apply pick_some in Hp as (l1 & t & l2 & Ht & -> & Hs & _).
  rewrite Ht in HT. apply Forall_app in HT as [H1 H2]. inversion H2; subst.
  split; [| eauto]. split; [| exact HL].
  cbn [tasks set_tasks]. apply Forall_app. now split.
Qed.

Lemma all_calls_unlock k s : all_calls P s → all_calls P (locker_unlock k s).
Proof.
  intros [HT HL]. unfold locker_unlock, FileLocker.unlock.
  destruct (lockedFiles s !! k) as [e|] eqn:He; [| now split].
  destruct (FileLocker.onRelease e) as [|p w] eqn:Hw.
  - split; [exact HT |]. cbn [lockedFiles set_locks emit].
    intros k' e' He'. apply lookup_delete_Some in He' as [_ He']. now apply (HL k').
  - pose proof (HL k e He) as Hq. rewrite Hw in Hq. inversion Hq; subst.
    unfold invoke. apply all_calls_spawn; [| now destruct p].
    split; [exact HT |]. cbn [lockedFiles set_locks emit].
    intros k' e' He'. apply lookup_insert_Some in He' as [[<- <-]|[_ He']];
      [assumption | now apply (HL k')].
Qed.

Lemma all_calls_lock k p s :
  all_calls P s → (∀ c, proceed_call p = Some c → P c) →
  all_calls P (locker_lock k p s).
Proof.
  intros [HT HL] Hp. unfold locker_lock, FileLocker.lock.
  destruct (lockedFiles s !! k) as [e|] eqn:He.
  - split; [exact HT |]. cbn [lockedFiles set_locks].
    intros k' e' He'. apply lookup_insert_Some in He' as [[<- <-]|[_ He']].
    + cbn [FileLocker.onRelease]. apply Forall_app. split; [now apply (HL k) | now constructor].
    + now apply (HL k').
  - unfold invoke. apply all_calls_spawn; [| now destruct p].
    split; [exact HT |]. cbn [lockedFiles set_locks emit].
    intros k' e' He'. apply lookup_insert_Some in He' as [[<- <-]|[_ He']];
      [constructor | now apply (HL k')].
Qed.

Lemma all_calls_upstream_done o c r s :
  all_calls P s → all_calls P (upstream_done o c r s).
Proof.
  intros H. unfold upstream_done. destruct r as [err|[a m]].
  - apply all_calls_unlock.
    apply (all_calls_view _ _ (FlightFacts.view_emit _ _)).
    now apply (all_calls_view _ _ (FlightFacts.view_debug_log _ _ _)).
  - apply (all_calls_view _ _ (FlightFacts.view_emit _ _)).
    apply all_calls_unlock.
    now apply (all_calls_view _ _ (FlightFacts.view_debug_log _ _ _)).
Qed.

Lemma all_calls_probe_done o c r s :
  P c → all_calls P s → all_calls P (probe_done o c r s).
Proof.
  intros Hc H. unfold probe_done. destruct r as [a m|].
  - apply (all_calls_view _ _ (FlightFacts.view_emit _ _)).
    apply all_calls_unlock.
    now apply (all_calls_view _ _ (FlightFacts.view_debug_log _ _ _)).
  - unfold fetchFromUpstream. apply all_calls_spawn; [| now intros ? [= <-]].
    apply (all_calls_view _ _ (FlightFacts.view_emit _ _)).
    now apply (all_calls_view _ _ (FlightFacts.view_debug_log _ _ _)).
Qed.

Lemma all_calls_called {A : Type} (sel : task → option A) (call : A → fetch_call)
    s a rest :
  called sel call →
  pick sel (tasks s) = Some (a, rest) →
  all_calls P s →
  all_calls P (set_tasks rest s) ∧ P (call a).
Proof.
  intros Hsel Hp H.
  apply (all_calls_picked sel _ _ _ Hp) in H as [H (t & Hs & Ht)].
  split; [exact H |]. apply Ht. now apply Hsel.
Qed.

Ltac called_tac :=
  let t := fresh "t" in let x := fresh "x" in
  intros t x; destruct t; simpl; try discriminate;
  repeat match goal with
         | |- context [match ?timer with Some _ => _ | None => _ end] =>
             destruct timer; [| discriminate]
         | |- context [if Z.leb ?a ?b then _ else _] => destruct (Z.leb a b); [| discriminate]
         end;
  match goal with
  | |- context [for_call ?d ?c0] =>
      let H := fresh "H" in
      destruct (for_call d c0) eqn:H; [| discriminate];
      apply for_call_inv in H as [-> ?]; now intros [= <-]
  end.

Lemma called_stat d : called (sel_stat d) (λ c, c).
Proof. called_tac. Qed.
Lemma called_mkdir d : called (sel_mkdir d) (λ c, c).
Proof. called_tac. Qed.
Lemma called_get d : called (sel_get d) (λ c, c).
Proof. called_tac. Qed.
Lemma called_body d : called (sel_body d) fst.
Proof. called_tac. Qed.
Lemma called_timer now d : called (sel_timer now d) (λ c, c).
Proof. called_tac. Qed.
Lemma called_aborted d : called (sel_aborted d) (λ c, c).
Proof. called_tac. Qed.
Lemma called_close d : called (sel_close d) fst.
Proof. called_tac. Qed.
Lemma called_rename d : called (sel_rename d) fst.
Proof. called_tac. Qed.
Lemma called_utimes d : called (sel_utimes d) fst.
Proof. called_tac. Qed.
Lemma called_unlink d : called (sel_unlink d) fst.
Proof. called_tac. Qed.

Ltac picked lem Hp H :=
  let Ht := fresh "Ht" in
  apply (all_calls_called _ _ _ _ _ lem Hp) in H as [H Ht]; cbn [fst] in Ht.

Lemma all_calls_step (o : options) (e : event) (s s' : state) :
  (∀ u n, P (FetchCall u (_cachePath o (hash o u)) (canonical o u) n)) →
  step o e s = Some s' → all_calls P s → all_calls P s'.
Proof.
  intros Hnew Hstep H.
  destruct e as [δ|u|u|d f|d f|d err|d res|d n|d err|d|d err|d|d f|d f|d|d];
    cbn [step] in Hstep.
  - destruct (0 <=? δ); [| discriminate]. injection Hstep as <-. exact H.
  - injection Hstep as <-. unfold fetch. apply all_calls_lock; [exact H |].
    intros c [= <-]. apply Hnew.
  - injection Hstep as <-. unfold purge. apply all_calls_lock; [exact H | discriminate].
  - destruct (pick (sel_stat d) (tasks s)) as [[c rest]|] eqn:Hp; [| discriminate].
    picked (called_stat d) Hp H.
    revert Hstep. unfold statted.
    destruct (match f with Some errcode => inl errcode | None => _ end) as [errcode|st].
    + destruct (String.eqb errcode "ENOENT"); intros [= <-].
      * apply all_calls_spawn; [exact H | now intros ? [= <-]].
      * apply (all_calls_probe_done o c Miss); [exact Ht |].
        now apply (all_calls_view _ _ (FlightFacts.view_emit _ _)).
    + destruct (_ && _); intros [= <-].
      * now apply (all_calls_probe_done o c (Hit (atime st) (mtime st))).
      * apply (all_calls_probe_done o c Miss); [exact Ht |].
        now apply (all_calls_view _ _ (FlightFacts.view_debug_log _ _ _)).
  - destruct (pick (sel_mkdir d) (tasks s)) as [[c rest]|] eqn:Hp; [| discriminate].
    picked (called_mkdir d) Hp H.
    destruct (faulty f (files s) _) as [fs' err]. injection Hstep as <-.
    apply (all_calls_probe_done o c Miss); [exact Ht |]. unfold mkdired. cbn [fst].
    apply (all_calls_view _ _ (FlightFacts.view_set_files fs' _)) in H.
    destruct err as [errcode|]; [| exact H].
    destruct (String.eqb errcode "EEXIST"); [exact H |].
    now apply (all_calls_view _ _ (FlightFacts.view_emit _ _)).
  - destruct (pick (sel_get d) (tasks s)) as [[c rest]|] eqn:Hp; [| discriminate].
    picked (called_get d) Hp H.
    injection Hstep as <-. apply all_calls_spawn; [exact H | now intros ? [= <-]].
  - destruct (pick (sel_get d) (tasks s)) as [[c rest]|] eqn:Hp; [| discriminate].
    picked (called_get d) Hp H.
    injection Hstep as <-. unfold get_responded.
    destruct (negb _).
    { apply all_calls_spawn; [| now intros ? [= <-]].
      now apply (all_calls_view _ _ (FlightFacts.view_emit _ _)). }
    destruct (_ && _).
    { apply all_calls_spawn; [| now intros ? [= <-]].
      now apply (all_calls_view _ _ (FlightFacts.view_emit _ _)). }
    apply all_calls_spawn; [| now intros ? [= <-]].
    now apply (all_calls_view _ _ (FlightFacts.view_set_files _ _)).
  - destruct (pick (sel_body d) (tasks s)) as [[[c res] rest]|] eqn:Hp; [| discriminate].
    picked (called_body d) Hp H.
    destruct (0 <=? n); [| discriminate]. injection Hstep as <-.
    apply all_calls_spawn; [| now intros ? [= <-]].
    now apply (all_calls_view _ _ (FlightFacts.view_set_files _ _)).
  - destruct (pick (sel_body d) (tasks s)) as [[[c res] rest]|] eqn:Hp; [| discriminate].
    picked (called_body d) Hp H.
    injection Hstep as <-. apply all_calls_spawn; [exact H | now intros ? [= <-]].
  - destruct (pick (sel_timer (clock s) d) (tasks s)) as [[c rest]|] eqn:Hp; [| discriminate].
    picked (called_timer (clock s) d) Hp H.
    injection Hstep as <-. unfold timed_out.
    apply all_calls_spawn; [| now intros ? [= <-]].
    apply all_calls_spawn; [| now intros ? [= <-]].
    now apply (all_calls_view _ _ (FlightFacts.view_emit _ _)).
  - destruct (pick (sel_aborted d) (tasks s)) as [[c rest]|] eqn:Hp; [| discriminate].
    picked (called_aborted d) Hp H.
    injection Hstep as <-. apply all_calls_spawn; [exact H | now intros ? [= <-]].
  - destruct (pick (sel_close d) (tasks s)) as [[[c res] rest]|] eqn:Hp; [| discriminate].
    picked (called_close d) Hp H.
    injection Hstep as <-. apply all_calls_spawn; [exact H | now intros ? [= <-]].
  - destruct (pick (sel_rename d) (tasks s)) as [[[c res] rest]|] eqn:Hp; [| discriminate].
    picked (called_rename d) Hp H.
    destruct (faulty f (files s) _) as [fs' err]. injection Hstep as <-.
    apply (all_calls_view _ _ (FlightFacts.view_set_files fs' _)) in H.
    unfold renamed. destruct err as [errcode|];
      (apply all_calls_spawn; [exact H | now intros ? [= <-]]).
  - destruct (pick (sel_utimes d) (tasks s)) as [[[c [a m]] rest]|] eqn:Hp; [| discriminate].
    picked (called_utimes d) Hp H.
    destruct (faulty f (files s) _) as [fs' err]. injection Hstep as <-.
    apply (all_calls_view _ _ (FlightFacts.view_set_files fs' _)) in H.
    unfold stamped. destruct err as [errcode|].
    + apply all_calls_spawn; [exact H | now intros ? [= <-]].
    + now apply all_calls_upstream_done.
  - destruct (pick (sel_unlink d) (tasks s)) as [[[c err] rest]|] eqn:Hp; [| discriminate].
    picked (called_unlink d) Hp H.
    injection Hstep as <-. unfold part_unlinked.
    apply all_calls_upstream_done.
    now apply (all_calls_view _ _ (FlightFacts.view_set_files _ _)).
  - destruct (pick (sel_purge d) (tasks s)) as [[file rest]|] eqn:Hp; [| discriminate].
    apply (all_calls_picked _ _ _ _ Hp) in H as [H _].
    injection Hstep as <-. unfold purge_unlinked.
    apply (all_calls_view _ _ (FlightFacts.view_emit _ _)).
    apply all_calls_unlock.
    now apply (all_calls_view _ _ (FlightFacts.view_set_files _ _)).
Qed.

Lemma all_calls_run (o : options) (es : list event) :
  (∀ u n, P (FetchCall u (_cachePath o (hash o u)) (canonical o u) n)) →
  ∀ s s', run o es s = Some s' → all_calls P s → all_calls P s'.
Proof.
  intros Hnew. induction es as [|e es IH]; intros s s' Hrun H; simpl in *.
  - now injection Hrun as <-.
  - destruct (step o e s) as [s1|] eqn:Hstep; [| discriminate].
    apply (IH s1 s' Hrun). now apply (all_calls_step o e s).
Qed.

End Calls.

Lemma all_calls_initial P fs now : all_calls P (initial fs now).
Proof. split; [constructor |]. intros k e. simpl. now rewrite lookup_empty. Qed.

Lemma built_by_fetch o u n :
  built_by o (FetchCall u (_cachePath o (hash o u)) (canonical o u) n).
Proof. now split. Qed.

(** The requests for a fingerprint are requests for its canonical path. *)
Lemma in_flight_url_path o u s :
  all_calls (built_by o) s → (in_flight_url o u s ≤ in_flight (canonical o u) s)%nat.
Proof.
  intros [HT _]. unfold in_flight_url, in_flight.
  induction (tasks s) as [|t ts IH]; simpl; [lia |].
  inversion HT as [|? ? Ht HT']; subst. specialize (IH HT').
  assert (H : requesting_url o u t = true → requesting (canonical o u) t = true).
  { destruct t; simpl; try discriminate;
      (intros Hh; apply bool_decide_eq_true in Hh; apply bool_decide_eq_true;
       destruct (Ht _ eq_refl) as [-> _]; unfold canonical; now rewrite Hh). }
  destruct (requesting_url o u t); [rewrite H by reflexivity; simpl; lia |].
  destruct (requesting (canonical o u) t); simpl; lia.
Qed.

End CallsFacts.

Module WaiterFacts.
Import PickFacts CallFacts.

Lemma requested_app (d : nat) (l1 l2 : list obs) :
  requested d (l1 ++ l2) = (requested d l1 + requested d l2)%nat.
Proof.
  induction l1 as [|ob l1 IH]; simpl; [reflexivity |].
  destruct ob; try exact IH. rewrite IH. lia.
Qed.

Lemma requested_debugged (o : options) (d : nat) (msg : string) :
  requested d (debugged o msg) = 0%nat.
Proof. unfold debugged. now destruct (debug o). Qed.

Lemma requested_handover (d : nat) locks file : requested d (handover locks file) = 0%nat.
Proof. unfold handover. now destruct (next_waiter locks file). Qed.

Lemma outcomes_other (d d' : nat) (r : outcome) :
  d' ≠ d → outcomes d [OCallback d' r] = [].
Proof. intros H. simpl. apply Nat.eqb_neq in H. now rewrite H. Qed.

(** The holder's [utimes] succeeds with a fetch [w] first in the queue: the
    lock passes to [w], whose stat, [δ] milliseconds later, finds the entry
    just stamped. *)
Lemma waiter_hits (o : options) (s : state) (c w : fetch_call) (a m δ : Z)
    (l1 l2 : list task) (e : FileLocker.entry proceed) (q : list proceed) (st : stats) :
  tasks s = l1 ++ TUtimes c a m :: l2 →
  settled (done c) (l1 ++ l2) →
  settled (done w) (l1 ++ l2) →
  done w ≠ done c →
  filename w = filename c →
  lockedFiles s !! filename c = Some e →
  FileLocker.onRelease e = ProceedFetch w :: q →
  files s !! filename c = Some st →
  isFile st = true → 0 < size st →
  0 ≤ δ → clock s + δ < m →
  ∃ s', run o [EvUtimes (done c) None; EvTick δ; EvStat (done w) None] s = Some s'
        ∧ outcomes (done c) (trace s')
          = outcomes (done c) (trace s) ++ [Delivered (filename c) a m]
        ∧ outcomes (done w) (trace s')
          = outcomes (done w) (trace s) ++ [Delivered (filename c) a m]
        ∧ requested (done w) (trace s') = requested (done w) (trace s)
        ∧ in_flight (filename c) s' = in_flight (filename c) s.
Proof.
  intros Ht Hsc Hsw Hne Hfile He Hq Hst Hf Hsize Hδ Hm.
  set (fs1 := <[filename c := Stats (isFile st) (size st) a m]> (files s)).
  set (s0 := set_files fs1 (set_tasks (l1 ++ l2) s)).
  set (s1 := upstream_done o c (inr (a, m)) s0).
  assert (Hstep1 : step o (EvUtimes (done c) None) s = Some s1).
  { cbn [step]. rewrite Ht.
    rewrite (pick_only (sel_utimes (done c)) (done c) l1 l2 _ (c, (a, m)))
      by (auto with petra; simpl; now rewrite for_call_done).
    unfold faulty, Fs.utimes. rewrite Hst. reflexivity. }
  assert (Hunlock : locker_unlock (filename c) (debug_log o ("Upstream OK " +:+ url c) s0)
                    = invoke (ProceedFetch w)
                        (emit (OUnlock (filename c))
                           (set_locks (<[filename c := FileLocker.Entry (clock s) q]>
                                         (lockedFiles s))
                              (debug_log o ("Upstream OK " +:+ url c) s0)))).
  { unfold locker_unlock, FileLocker.unlock.
    rewrite StepFacts.lockedFiles_debug_log, StepFacts.clock_debug_log.
    cbn [lockedFiles clock s0 set_files set_tasks]. now rewrite He, Hq. }
  assert (Htasks1 : tasks s1 = (l1 ++ l2) ++ [TStat w]).
  { unfold s1, upstream_done. cbn [tasks emit]. rewrite Hunlock.
    unfold invoke. cbn [tasks spawn set_tasks emit set_locks].
    now rewrite StepFacts.tasks_debug_log. }
  assert (Hfiles1 : files s1 = fs1).
  { unfold s1, upstream_done. cbn [files emit].
    now rewrite StepFacts.files_locker_unlock, StepFacts.files_debug_log. }
  assert (Hclock1 : clock s1 = clock s).
  { unfold s1, upstream_done. cbn [clock emit].
    now rewrite StepFacts.clock_locker_unlock, StepFacts.clock_debug_log. }
  assert (Htrace1 : trace s1 = trace s ++ debugged o ("Upstream OK " +:+ url c)
                                       ++ handover (lockedFiles s) (filename c)
                                       ++ [OCallback (done c) (Delivered (filename c) a m)]).
  { unfold s1. now rewrite StepFacts.trace_upstream_ok. }
  set (s2 := State (lockedFiles s1) (files s1) (clock s1 + δ) (tasks s1) (fresh s1) (trace s1)).
  set (s3 := probe_done o w (Hit a m) (set_tasks (l1 ++ l2) s2)).
  assert (Hstep3 : step o (EvStat (done w) None) s2 = Some s3).
  { cbn [step]. cbn [tasks s2]. rewrite Htasks1.
    rewrite (pick_last (sel_stat (done w)) (done w) _ _ w)
      by (auto with petra; simpl; now rewrite for_call_done).
    cbn [files s2]. rewrite Hfiles1. unfold Fs.stat, fs1.
    rewrite Hfile, lookup_insert_eq. unfold statted.
    cbn [isFile size mtime atime clock set_tasks s2]. rewrite Hf, Hclock1.
    assert ((0 <? size st) = true) as -> by now apply Z.ltb_lt.
    assert ((clock s + δ <? m) = true) as -> by now apply Z.ltb_lt.
    reflexivity. }
  exists s3. split.
  { assert (Hstep2 : step o (EvTick δ) s1 = Some s2).
    { cbn [step]. assert ((0 <=? δ) = true) as -> by (apply Z.leb_le; lia).
      reflexivity. }
    cbn [run]. now rewrite Hstep1, Hstep2, Hstep3. }
  assert (Htrace3 : trace s3 = trace s1 ++ debugged o ("Filesystem hit " +:+ filename w)
                                        ++ handover (lockedFiles s1) (filename w)
                                        ++ [OCallback (done w) (Delivered (filename w) a m)]).
  { unfold s3. now rewrite StepFacts.trace_probe_hit. }
  rewrite Htrace3, Htrace1, Hfile.
  split; [| split; [| split]].
  - rewrite !outcomes_app, !outcomes_debugged, !outcomes_handover, outcomes_callback.
    rewrite outcomes_other by exact Hne. now rewrite !app_nil_r.
  - rewrite !outcomes_app, !outcomes_debugged, !outcomes_handover, outcomes_callback.
    rewrite outcomes_other by congruence. now rewrite app_nil_r.
  - rewrite !requested_app, !requested_debugged, !requested_handover. simpl. lia.
  - unfold in_flight.
    assert (Hts3 : ∃ extra, tasks s3 = (l1 ++ l2) ++ extra
                            ∧ List.filter (requesting (filename c)) extra = []).
    { unfold s3, probe_done. cbn [tasks emit].
      unfold locker_unlock. rewrite StepFacts.clock_debug_log, StepFacts.lockedFiles_debug_log.
      destruct (FileLocker.unlock _ _ _) as [t' [p|]].
      - exists [started p]. unfold invoke. cbn [tasks spawn set_tasks emit set_locks].
        rewrite StepFacts.tasks_debug_log. split; [reflexivity | now destruct p].
      - exists []. cbn [tasks set_tasks emit set_locks].
        rewrite StepFacts.tasks_debug_log. split; [now rewrite app_nil_r | reflexivity]. }
    destruct Hts3 as (extra & -> & Hextra).
    rewrite Ht, !List.filter_app, Hextra. simpl. now rewrite app_nil_r.
Qed.

End WaiterFacts.

(** C1 (as amended). In every execution from an idle instance in which no
    aborted response emits an error, at any time at most one upstream
    request per cache path, hence per fingerprint, is on the wire, and it
    belongs to the holder of the lock of that path: the lock taken in
    [fetch] is held from before the probe until after the materialization.
    When the holder's fetch succeeds and a fetch of the same path is first in
    the queue, that waiter takes over the lock, observes a hit and sends no
    request, provided the stored body is a non-empty regular file and the
    waiter's stat completes, without error, before the stamped expiry. *)
Theorem single_flight_per_key (o : options) :
  (∀ fs now es s,
     forallb well_behaved es = true →
     run o es (initial fs now) = Some s →
     (∀ u, (in_flight_url o u s ≤ 1)%nat)
     ∧ (∀ k, (in_flight k s ≤ 1)%nat
             ∧ ((0 < in_flight k s)%nat → is_Some (lockedFiles s !! k))))
  ∧ (∀ s c w a m δ l1 l2 e q st,
       tasks s = l1 ++ TUtimes c a m :: l2 →
       settled (done c) (l1 ++ l2) →
       settled (done w) (l1 ++ l2) →
       done w ≠ done c →
       filename w = filename c →
       lockedFiles s !! filename c = Some e →
       FileLocker.onRelease e = ProceedFetch w :: q →
       files s !! filename c = Some st →
       isFile st = true → 0 < size st →
       0 ≤ δ → clock s + δ < m →
       ∃ s', run o [EvUtimes (done c) None; EvTick δ; EvStat (done w) None] s = Some s'
             ∧ outcomes (done c) (trace s')
               = outcomes (done c) (trace s) ++ [Delivered (filename c) a m]
             ∧ outcomes (done w) (trace s')
               = outcomes (done w) (trace s) ++ [Delivered (filename c) a m]
             ∧ requested (done w) (trace s') = requested (done w) (trace s)
             ∧ in_flight (filename c) s' = in_flight (filename c) s).
Proof.
  split.
  - intros fs now es s Hes Hrun.
    pose proof (FlightFacts.single_flight_run o es _ _ Hes Hrun
                  (FlightFacts.single_flight_initial fs now)) as Hsf.
    pose proof (CallsFacts.all_calls_run (built_by o) o es
                  (CallsFacts.built_by_fetch o) _ _ Hrun
                  (CallsFacts.all_calls_initial _ fs now)) as Hcalls.
    split.
    + intros u. pose proof (CallsFacts.in_flight_url_path o u s Hcalls).
      pose proof (FlightFacts.single_flight_bound (canonical o u) s Hsf). lia.
    + intros k. split; [now apply FlightFacts.single_flight_bound |].
      intros Hpos. pose proof (FlightFacts.in_flight_holders k s) as Hle.
      specialize (Hsf k). unfold guarded in Hsf.
      destruct (lockedFiles s !! k); [eauto | lia].
  - intros. now apply (WaiterFacts.waiter_hits o s c w a m δ l1 l2 e q st).
Qed.

(** ** C8: purge *)

Module PurgeFacts.
Import PickFacts CallFacts.

Lemma unused_settled n d (ts : list task) : (n ≤ d)%nat → unused n ts → settled d ts.
Proof.
  intros Hle H. eapply Forall_impl; [exact H |]. simpl. intros t Ht Hid. lia.
Qed.

(** The callback of the unlink of a purge. *)
Lemma purge_completes (o : options) (s : state) (file : string) (d : nat) l1 l2 :
  tasks s = l1 ++ TPurgeUnlink file d :: l2 →
  settled d (l1 ++ l2) →
  ∃ s', step o (EvPurgeUnlink d) s = Some s'
        ∧ s' = purge_unlinked file d (set_tasks (l1 ++ l2) s)
        ∧ outcomes d (trace s') = outcomes d (trace s) ++ [Purged]
        ∧ trace s' = trace s ++ handover (lockedFiles s) file ++ [OCallback d Purged]
        ∧ Fs.is_file (files s') file = false.
Proof.
  intros Ht Hs. cbn [step]. rewrite Ht.
  rewrite (pick_only (sel_purge d) d l1 l2 _ file)
    by (auto with petra; simpl; now rewrite Nat.eqb_refl).
  eexists. split; [reflexivity |]. split; [reflexivity |].
  assert (Htr : trace (purge_unlinked file d (set_tasks (l1 ++ l2) s))
                = trace s ++ handover (lockedFiles s) file ++ [OCallback d Purged]).
  { unfold purge_unlinked. cbn [trace emit].
    rewrite StepFacts.trace_locker_unlock. cbn [trace lockedFiles set_files set_tasks].
    now rewrite <- app_assoc. }
  split; [| split; [exact Htr |]].
  - rewrite Htr, !outcomes_app, outcomes_handover. simpl. now rewrite Nat.eqb_refl.
  - unfold purge_unlinked. cbn [files emit]. rewrite StepFacts.files_locker_unlock.
    cbn [files set_files]. apply CleanupFacts.unlink_is_file.
Qed.

(** A purge of a path whose lock is free runs to completion at once. *)
Lemma purge_free (o : options) (u : string) (s : state) :
  lockedFiles s !! canonical o u = None →
  settled (fresh s) (tasks s) →
  ∃ s', run o [EvPurge u; EvPurgeUnlink (fresh s)] s = Some s'
        ∧ outcomes (fresh s) (trace s') = outcomes (fresh s) (trace s) ++ [Purged]
        ∧ Fs.is_file (files s') (canonical o u) = false
        ∧ lockedFiles s' = lockedFiles s
        ∧ tasks s' = tasks s
        ∧ fresh s' = S (fresh s)
        ∧ (∀ d, d ≠ fresh s → outcomes d (trace s') = outcomes d (trace s)).
Proof.
  intros Hfree Hs.
  pose (file := canonical o u). pose (d := fresh s).
  pose (s1 := purge o u s).
  assert (H1 : tasks s1 = tasks s ++ [TPurgeUnlink file d]
               ∧ lockedFiles s1 = <[file := FileLocker.Entry (clock s) []]> (lockedFiles s)
               ∧ trace s1 = trace s ++ [OProceed (ProceedPurge file d)]
               ∧ files s1 = files s ∧ fresh s1 = S d).
  { unfold s1, file, d, purge, locker_lock, FileLocker.lock.
    cbn [lockedFiles clock]. fold (canonical o u). rewrite Hfree. now repeat split. }
  destruct H1 as (Ht1 & HL1 & Htr1 & Hf1 & Hn1).
  destruct (purge_completes o s1 file d (tasks s) []) as (s' & Hstep & Hs' & Hout & Htr & Hfile).
  { exact Ht1. }
  { now rewrite app_nil_r. }
  exists s'. split.
  { change (run o [EvPurge u; EvPurgeUnlink (fresh s)] s)
      with (match step o (EvPurgeUnlink d) s1 with
            | Some s2 => Some s2
            | None => None
            end).
    now rewrite Hstep. }
  assert (Hview : lockedFiles s' = lockedFiles s ∧ tasks s' = tasks s ∧ fresh s' = S d).
  { rewrite Hs'. unfold purge_unlinked, locker_unlock, FileLocker.unlock.
    cbn [lockedFiles set_files set_tasks]. rewrite HL1, lookup_insert_eq.
    cbn [FileLocker.onRelease lockedFiles tasks fresh emit set_locks set_files set_tasks].
    rewrite app_nil_r, Hn1. repeat split.
    rewrite delete_insert_eq. now apply delete_id. }
  destruct Hview as (HL & HT & HN). subst d file.
  split; [| split; [exact Hfile | split; [exact HL | split; [exact HT | split; [exact HN |]]]]].
  - rewrite Hout, Htr1, outcomes_app. simpl. now rewrite app_nil_r.
  - intros d' Hd'. rewrite Htr, Htr1, !outcomes_app, outcomes_handover. simpl.
    apply Nat.eqb_neq in Hd'. rewrite Nat.eqb_sym in Hd'. rewrite Hd'.
    now rewrite !app_nil_r.
Qed.

End PurgeFacts.


(** ** One answer per call *)

Module OnceFacts.
Import PickFacts.

Section Weights.
Variable all : bool.

Lemma pending_app d (l1 l2 : list task) :
  pending_of all d (l1 ++ l2) = (pending_of all d l1 + pending_of all d l2)%nat.
Proof. unfold pending_of. now rewrite List.filter_app, length_app. Qed.

Lemma pending_one d (t : task) :
  pending_of all d [t] = if counted all t && Nat.eqb (task_id t) d then 1%nat else 0%nat.
Proof. unfold pending_of. simpl. now destruct (counted all t && Nat.eqb (task_id t) d). Qed.

Lemma pending_removed d t (l1 l2 : list task) :
  pending_of all d (l1 ++ t :: l2)
  = (pending_of all d (l1 ++ l2) + pending_of all d [t])%nat.
Proof.
  change (t :: l2) with ([t] ++ l2). rewrite !pending_app. lia.
Qed.

Lemma queued_comm d (j1 j2 : string) (z1 z2 : FileLocker.entry proceed) (y : nat) :
  (queued_in all d z1 + (queued_in all d z2 + y)
   = queued_in all d z2 + (queued_in all d z1 + y))%nat.
Proof. lia. Qed.

Lemma queued_delete d (locks : gmap string (FileLocker.entry proceed)) k e :
  locks !! k = Some e →
  queued all d locks = (queued_in all d e + queued all d (delete k locks))%nat.
Proof.
  intros He. unfold queued.
  apply (map_fold_delete_L (λ _ e n, (queued_in all d e + n)%nat)); [| exact He].
  intros. apply queued_comm; assumption.
Qed.

Lemma queued_insert d (locks : gmap string (FileLocker.entry proceed)) k e :
  locks !! k = None →
  queued all d (<[k := e]> locks) = (queued_in all d e + queued all d locks)%nat.
Proof.
  intros He. unfold queued.
  apply (map_fold_insert_L (λ _ e n, (queued_in all d e + n)%nat)); [| exact He].
  intros. apply queued_comm; assumption.
Qed.

Lemma queued_update d (locks : gmap string (FileLocker.entry proceed)) k e e' :
  locks !! k = Some e →
  (queued all d (<[k := e']> locks) + queued_in all d e
   = queued all d locks + queued_in all d e')%nat.
Proof.
  intros He. rewrite <- (insert_delete_eq locks k e').
  rewrite queued_insert by apply lookup_delete_eq.
  rewrite (queued_delete d locks k e He). lia.
Qed.

Lemma queued_empty d : queued all d ∅ = 0%nat.
Proof. unfold queued. apply map_fold_empty. Qed.

Lemma pending_started d p :
  pending_of all d [started p]
  = if counted_proceed all p && Nat.eqb (proceed_id p) d then 1%nat else 0%nat.
Proof. rewrite pending_one. now destruct p. Qed.

Lemma answered_app d (l1 l2 : list obs) :
  answered all d (l1 ++ l2) = (answered all d l1 + answered all d l2)%nat.
Proof. unfold answered. now rewrite outcomes_app, List.filter_app, length_app. Qed.

(** The effect of each primitive on the tokens of call [d]. *)

Lemma tokens_log d msg s : tokens all d (log msg s) = tokens all d s.
Proof.
  unfold tokens, log. cbn [tasks lockedFiles trace emit].
  rewrite answered_app. unfold answered at 2. simpl. lia.
Qed.

Lemma tokens_debug_log d o msg s : tokens all d (debug_log o msg s) = tokens all d s.
Proof. unfold debug_log. destruct (debug o); [apply tokens_log | reflexivity]. Qed.

Lemma tokens_emit_request d n u s : tokens all d (emit (ORequest n u) s) = tokens all d s.
Proof.
  unfold tokens. cbn [tasks lockedFiles trace emit].
  rewrite answered_app. unfold answered at 2. simpl. lia.
Qed.

Lemma tokens_emit_abort d n s : tokens all d (emit (OAbort n) s) = tokens all d s.
Proof.
  unfold tokens. cbn [tasks lockedFiles trace emit].
  rewrite answered_app. unfold answered at 2. simpl. lia.
Qed.

Lemma tokens_emit_unlock d k s : tokens all d (emit (OUnlock k) s) = tokens all d s.
Proof.
  unfold tokens. cbn [tasks lockedFiles trace emit].
  rewrite answered_app. unfold answered at 2. simpl. lia.
Qed.

Lemma tokens_emit_proceed d p s : tokens all d (emit (OProceed p) s) = tokens all d s.
Proof.
  unfold tokens. cbn [tasks lockedFiles trace emit].
  rewrite answered_app. unfold answered at 2. simpl. lia.
Qed.

Lemma tokens_emit_callback d n r s :
  tokens all d (emit (OCallback n r) s)
  = (tokens all d s + if counted_outcome all r && Nat.eqb n d then 1 else 0)%nat.
Proof.
  unfold tokens. cbn [tasks lockedFiles trace emit].
  rewrite answered_app. unfold answered at 2. simpl.
  destruct (Nat.eqb n d); simpl; [| rewrite andb_false_r; lia].
  rewrite andb_true_r. destruct (counted_outcome all r); simpl; lia.
Qed.

Lemma tokens_spawn d t s :
  tokens all d (spawn t s) = (tokens all d s + pending_of all d [t])%nat.
Proof.
  unfold tokens. cbn [tasks lockedFiles trace spawn set_tasks].
  rewrite pending_app. lia.
Qed.

Lemma tokens_invoke d p s :
  tokens all d (invoke p s)
  = (tokens all d s + if counted_proceed all p && Nat.eqb (proceed_id p) d then 1 else 0)%nat.
Proof. unfold invoke. now rewrite tokens_spawn, pending_started, tokens_emit_proceed. Qed.

Lemma tokens_set_locks_same d s :
  tokens all d (set_locks (lockedFiles s) s) = tokens all d s.
Proof. reflexivity. Qed.

(** Releasing a lock moves a token from the queue to the pending list. *)
Lemma tokens_unlock d k s : tokens all d (locker_unlock k s) = tokens all d s.
Proof.
  unfold locker_unlock, FileLocker.unlock.
  destruct (lockedFiles s !! k) as [e|] eqn:He.
  - destruct (FileLocker.onRelease e) as [|p w] eqn:Hw.
    + rewrite tokens_emit_unlock.
      unfold tokens. cbn [tasks lockedFiles trace set_locks].
      rewrite (queued_delete d (lockedFiles s) k e He).
      unfold queued_in. rewrite Hw. simpl. lia.
    + rewrite tokens_invoke, tokens_emit_unlock.
      unfold tokens. cbn [tasks lockedFiles trace set_locks].
      pose proof (queued_update d (lockedFiles s) k e (FileLocker.Entry (clock s) w) He) as Hq.
      unfold queued_in in Hq at 1 2. rewrite Hw in Hq. cbn [FileLocker.onRelease] in Hq.
      simpl in Hq. unfold queued_in.
      destruct (counted_proceed all p && Nat.eqb (proceed_id p) d); simpl in Hq; lia.
  - now rewrite tokens_emit_unlock.
Qed.

(** Asking for a lock puts a token in the queue or in the pending list. *)
Lemma tokens_lock d k p s :
  tokens all d (locker_lock k p s)
  = (tokens all d s + if counted_proceed all p && Nat.eqb (proceed_id p) d then 1 else 0)%nat.
Proof.
  unfold locker_lock, FileLocker.lock.
  destruct (lockedFiles s !! k) as [e|] eqn:He.
  - unfold tokens. cbn [tasks lockedFiles trace set_locks].
    pose proof (queued_update d (lockedFiles s) k e
                  (FileLocker.Entry (FileLocker.lastUpdated e)
                                    (FileLocker.onRelease e ++ [p])) He) as Hq.
    unfold queued_in in Hq at 1 2. cbn [FileLocker.onRelease] in Hq.
    rewrite List.filter_app, length_app in Hq. simpl in Hq.
    unfold queued_in.
    destruct (counted_proceed all p && Nat.eqb (proceed_id p) d); simpl in Hq; lia.
  - rewrite tokens_invoke. unfold tokens. cbn [tasks lockedFiles trace set_locks].
    rewrite (queued_insert d (lockedFiles s) k _ He). unfold queued_in. simpl. lia.
Qed.

(** Running a callback takes its token off the pending list. *)
Lemma tokens_picked {A : Type} (sel : task → option A) d d0 w s a rest :
  weighed sel d0 all w →
  pick sel (tasks s) = Some (a, rest) →
  tokens all d s
  = (tokens all d (set_tasks rest s) + if w && Nat.eqb d0 d then 1 else 0)%nat.
Proof.
  intros Hsel Hp. apply pick_some in Hp as (l1 & t & l2 & Ht & -> & Hs & _).
  destruct (Hsel t a Hs) as [Hid Hw].
  unfold tokens. cbn [tasks lockedFiles trace set_tasks].
  rewrite Ht, pending_removed, pending_one, Hw, Hid. lia.
Qed.

Lemma tokens_upstream_done d o c r s :
  tokens all d (upstream_done o c r s)
  = (tokens all d s + if all && Nat.eqb (done c) d then 1 else 0)%nat.
Proof.
  unfold upstream_done. destruct r as [err|[a m]].
  - now rewrite tokens_unlock, tokens_emit_callback, tokens_debug_log.
  - now rewrite tokens_emit_callback, tokens_unlock, tokens_debug_log.
Qed.

Lemma tokens_probe_done d o c r s :
  tokens all d (probe_done o c r s)
  = (tokens all d s + if all && Nat.eqb (done c) d then 1 else 0)%nat.
Proof.
  unfold probe_done. destruct r as [a m|].
  - now rewrite tokens_emit_callback, tokens_unlock, tokens_debug_log.
  - unfold fetchFromUpstream.
    now rewrite tokens_spawn, tokens_emit_request, tokens_debug_log, pending_one.
Qed.

Lemma tokens_onError d c err s :
  tokens all d (onError c err s)
  = (tokens all d s + if all && Nat.eqb (done c) d then 1 else 0)%nat.
Proof. unfold onError. now rewrite tokens_spawn, pending_one. Qed.

Ltac weighed_tac :=
  let t := fresh "t" in let x := fresh "x" in
  intros t x; destruct t; simpl; try discriminate;
  repeat match goal with
         | |- context [match ?timer with Some _ => _ | None => _ end] =>
             destruct timer; [| discriminate]
         | |- context [if Z.leb ?a ?b then _ else _] => destruct (Z.leb a b); [| discriminate]
         end;
  match goal with
  | |- context [for_call ?d ?c0] =>
      let H := fresh "H" in
      destruct (for_call d c0) eqn:H; [| discriminate];
      apply for_call_inv in H as [-> ?]; intros _; now split
  end.

Lemma weighed_stat d : weighed (sel_stat d) d all all.
Proof. weighed_tac. Qed.
Lemma weighed_mkdir d : weighed (sel_mkdir d) d all all.
Proof. weighed_tac. Qed.
Lemma weighed_get d : weighed (sel_get d) d all all.
Proof. weighed_tac. Qed.
Lemma weighed_body d : weighed (sel_body d) d all all.
Proof. weighed_tac. Qed.
Lemma weighed_timer now d : weighed (sel_timer now d) d all all.
Proof. weighed_tac. Qed.
Lemma weighed_aborted d : weighed (sel_aborted d) d all false.
Proof. weighed_tac. Qed.
Lemma weighed_close d : weighed (sel_close d) d all all.
Proof. weighed_tac. Qed.
Lemma weighed_rename d : weighed (sel_rename d) d all all.
Proof. weighed_tac. Qed.
Lemma weighed_utimes d : weighed (sel_utimes d) d all all.
Proof. weighed_tac. Qed.
Lemma weighed_unlink d : weighed (sel_unlink d) d all all.
Proof. weighed_tac. Qed.
Lemma weighed_purge d : weighed (sel_purge d) d all true.
Proof.
  intros t x; destruct t as [| | | | | | | | |file d']; simpl; try discriminate.
  destruct (Nat.eqb d' d) eqn:E; [| discriminate].
  apply Nat.eqb_eq in E. intros _. now split.
Qed.

Lemma task_call_id t c : task_call t = Some c → task_id t = done c.
Proof. destruct t; simpl; try discriminate; now intros [= <-]. Qed.

(** The closure handed to a callback belongs to the call it was picked for. *)
Lemma picked_id {A : Type} (sel : task → option A) (call : A → fetch_call) (d : nat)
    (w : bool) (ts : list task) a rest :
  called sel call → weighed sel d all w →
  pick sel ts = Some (a, rest) → done (call a) = d.
Proof.
  intros Hc Ha Hp. apply pick_some in Hp as (l1 & t & l2 & _ & _ & Hs & _).
  destruct (Ha t a Hs) as [Hid _]. rewrite <- Hid. symmetry.
  apply task_call_id. now apply Hc.
Qed.

(** Every event keeps the tokens of every call, and a call of the API gives
    one token to the new call; when the callbacks of [fetch] are counted the
    environment must be well behaved. *)
Lemma tokens_step (o : options) (d : nat) (e : event) (s s' : state) :
  (all = true → well_behaved e = true) → step o e s = Some s' →
  tokens all d s' = (tokens all d s + calls all d e s)%nat.
Proof.
  intros Hwb Hstep.
  destruct e as [δ|u|u|n f|n f|n err|n res|n sz|n err|n|n err|n|n f|n f|n|n];
    cbn [step] in Hstep; cbn [calls].
  - destruct (0 <=? δ); [| discriminate]. injection Hstep as <-.
    unfold tokens. cbn [tasks lockedFiles trace]. lia.
  - injection Hstep as <-. unfold fetch. now rewrite tokens_lock.
  - injection Hstep as <-. unfold purge. now rewrite tokens_lock.
  - destruct (pick (sel_stat n) (tasks s)) as [[c rest]|] eqn:Hp; [| discriminate].
    pose proof (picked_id _ _ n _ _ _ _ (CallsFacts.called_stat n) (weighed_stat n) Hp) as Hd.
    cbn beta in Hd. subst n.
    rewrite Nat.add_0_r, (tokens_picked _ d _ _ _ _ _ (weighed_stat (done c)) Hp).
    revert Hstep. unfold statted.
    destruct (match f with Some errcode => inl errcode | None => _ end) as [errcode|st].
    + destruct (String.eqb errcode "ENOENT"); intros Hs';
        apply (inj Some) in Hs'; subst s'; cbv beta iota zeta.
      * now rewrite tokens_spawn, pending_one.
      * now rewrite (tokens_probe_done d o c Miss), tokens_log.
    + destruct (_ && _); intros Hs';
        apply (inj Some) in Hs'; subst s'; cbv beta iota zeta.
      * now rewrite (tokens_probe_done d o c (Hit (atime st) (mtime st))).
      * now rewrite (tokens_probe_done d o c Miss), tokens_debug_log.
  - destruct (pick (sel_mkdir n) (tasks s)) as [[c rest]|] eqn:Hp; [| discriminate].
    pose proof (picked_id _ _ n _ _ _ _ (CallsFacts.called_mkdir n) (weighed_mkdir n) Hp) as Hd.
    cbn beta in Hd. subst n.
    rewrite Nat.add_0_r, (tokens_picked _ d _ _ _ _ _ (weighed_mkdir (done c)) Hp).
    destruct (faulty f (files s) _) as [fs' err].
    unfold mkdired in Hstep. cbv beta iota zeta in Hstep.
    apply (inj Some) in Hstep. subst s'.
    rewrite (tokens_probe_done d o c Miss).
    destruct err as [errcode|]; [| reflexivity].
    destruct (String.eqb errcode "EEXIST"); [reflexivity | now rewrite tokens_log].
  - destruct (pick (sel_get n) (tasks s)) as [[c rest]|] eqn:Hp; [| discriminate].
    pose proof (picked_id _ _ n _ _ _ _ (CallsFacts.called_get n) (weighed_get n) Hp) as Hd.
    cbn beta in Hd. subst n.
    rewrite Nat.add_0_r, (tokens_picked _ d _ _ _ _ _ (weighed_get (done c)) Hp).
    injection Hstep as <-. unfold get_failed. now rewrite tokens_onError.
  - destruct (pick (sel_get n) (tasks s)) as [[c rest]|] eqn:Hp; [| discriminate].
    pose proof (picked_id _ _ n _ _ _ _ (CallsFacts.called_get n) (weighed_get n) Hp) as Hd.
    cbn beta in Hd. subst n.
    rewrite Nat.add_0_r, (tokens_picked _ d _ _ _ _ _ (weighed_get (done c)) Hp).
    injection Hstep as <-. unfold get_responded.
    destruct (negb _); [now rewrite tokens_onError, tokens_emit_abort |].
    destruct (_ && _); [now rewrite tokens_onError, tokens_emit_abort |].
    now rewrite tokens_spawn, pending_one.
  - destruct (pick (sel_body n) (tasks s)) as [[[c res] rest]|] eqn:Hp; [| discriminate].
    pose proof (picked_id _ _ n _ _ _ _ (CallsFacts.called_body n) (weighed_body n) Hp) as Hd.
    cbn [fst] in Hd. subst n.
    rewrite Nat.add_0_r, (tokens_picked _ d _ _ _ _ _ (weighed_body (done c)) Hp).
    destruct (0 <=? sz); [| discriminate]. injection Hstep as <-.
    unfold body_ended. now rewrite tokens_spawn, pending_one.
  - destruct (pick (sel_body n) (tasks s)) as [[[c res] rest]|] eqn:Hp; [| discriminate].
    pose proof (picked_id _ _ n _ _ _ _ (CallsFacts.called_body n) (weighed_body n) Hp) as Hd.
    cbn [fst] in Hd. subst n.
    rewrite Nat.add_0_r, (tokens_picked _ d _ _ _ _ _ (weighed_body (done c)) Hp).
    injection Hstep as <-. unfold body_failed. now rewrite tokens_onError.
  - destruct (pick (sel_timer (clock s) n) (tasks s)) as [[c rest]|] eqn:Hp; [| discriminate].
    pose proof (picked_id _ _ n _ _ _ _ (CallsFacts.called_timer (clock s) n)
                  (weighed_timer (clock s) n) Hp) as Hd.
    cbn beta in Hd. subst n.
    rewrite Nat.add_0_r, (tokens_picked _ d _ _ _ _ _ (weighed_timer (clock s) (done c)) Hp).
    injection Hstep as <-. unfold timed_out.
    rewrite tokens_spawn, tokens_onError, tokens_emit_abort, pending_one.
    simpl. lia.
  - destruct (pick (sel_aborted n) (tasks s)) as [[c rest]|] eqn:Hp; [| discriminate].
    pose proof (picked_id _ _ n _ _ _ _ (CallsFacts.called_aborted n) (weighed_aborted n) Hp)
      as Hd.
    cbn beta in Hd. subst n.
    rewrite Nat.add_0_r, (tokens_picked _ d _ _ _ _ _ (weighed_aborted (done c)) Hp).
    injection Hstep as <-. unfold body_failed. rewrite tokens_onError.
    destruct all; [now specialize (Hwb eq_refl) | reflexivity].
  - destruct (pick (sel_close n) (tasks s)) as [[[c res] rest]|] eqn:Hp; [| discriminate].
    pose proof (picked_id _ _ n _ _ _ _ (CallsFacts.called_close n) (weighed_close n) Hp) as Hd.
    cbn [fst] in Hd. subst n.
    rewrite Nat.add_0_r, (tokens_picked _ d _ _ _ _ _ (weighed_close (done c)) Hp).
    injection Hstep as <-. unfold file_closed. now rewrite tokens_spawn, pending_one.
  - destruct (pick (sel_rename n) (tasks s)) as [[[c res] rest]|] eqn:Hp; [| discriminate].
    pose proof (picked_id _ _ n _ _ _ _ (CallsFacts.called_rename n) (weighed_rename n) Hp)
      as Hd.
    cbn [fst] in Hd. subst n.
    rewrite Nat.add_0_r, (tokens_picked _ d _ _ _ _ _ (weighed_rename (done c)) Hp).
    destruct (faulty f (files s) _) as [fs' err]. injection Hstep as <-.
    unfold renamed. destruct err as [errcode|].
    + now rewrite tokens_onError.
    + now rewrite tokens_spawn, pending_one.
  - destruct (pick (sel_utimes n) (tasks s)) as [[[c [a m]] rest]|] eqn:Hp; [| discriminate].
    pose proof (picked_id _ _ n _ _ _ _ (CallsFacts.called_utimes n) (weighed_utimes n) Hp)
      as Hd.
    cbn [fst] in Hd. subst n.
    rewrite Nat.add_0_r, (tokens_picked _ d _ _ _ _ _ (weighed_utimes (done c)) Hp).
    destruct (faulty f (files s) _) as [fs' err]. injection Hstep as <-.
    unfold stamped. destruct err as [errcode|].
    + now rewrite tokens_onError.
    + now rewrite tokens_upstream_done.
  - destruct (pick (sel_unlink n) (tasks s)) as [[[c err] rest]|] eqn:Hp; [| discriminate].
    pose proof (picked_id _ _ n _ _ _ _ (CallsFacts.called_unlink n) (weighed_unlink n) Hp)
      as Hd.
    cbn [fst] in Hd. subst n.
    rewrite Nat.add_0_r, (tokens_picked _ d _ _ _ _ _ (weighed_unlink (done c)) Hp).
    injection Hstep as <-. unfold part_unlinked. now rewrite tokens_upstream_done.
  - destruct (pick (sel_purge n) (tasks s)) as [[file rest]|] eqn:Hp; [| discriminate].
    rewrite Nat.add_0_r, (tokens_picked _ d _ _ _ _ _ (weighed_purge n) Hp).
    injection Hstep as <-. unfold purge_unlinked.
    now rewrite tokens_emit_callback, tokens_unlock.
Qed.

End Weights.

Lemma fresh_step (o : options) (e : event) (s s' : state) :
  step o e s = Some s' →
  fresh s' = match e with
             | EvFetch _ | EvPurge _ => S (fresh s)
             | _ => fresh s
             end.
Proof.
  assert (Hunlock : ∀ k s0, fresh (locker_unlock k s0) = fresh s0).
  { intros k s0. unfold locker_unlock.
    now destruct (FileLocker.unlock k (clock s0) (lockedFiles s0)) as [t [p|]]. }
  assert (Hlock : ∀ k p s0, fresh (locker_lock k p s0) = fresh s0).
  { intros k p s0. unfold locker_lock.
    now destruct (FileLocker.lock k p (clock s0) (lockedFiles s0)) as [t [p'|]]. }
  assert (Hdebug : ∀ msg s0, fresh (debug_log o msg s0) = fresh s0).
  { intros msg s0. unfold debug_log. now destruct (debug o). }
  assert (Hup : ∀ c r s0, fresh (upstream_done o c r s0) = fresh s0).
  { intros c r s0. unfold upstream_done. destruct r as [err|[a m]].
    - rewrite Hunlock. cbn [fresh emit]. apply Hdebug.
    - cbn [fresh emit]. now rewrite Hunlock, Hdebug. }
  assert (Hprobe : ∀ c r s0, fresh (probe_done o c r s0) = fresh s0).
  { intros c r s0. unfold probe_done. destruct r as [a m|].
    - cbn [fresh emit]. now rewrite Hunlock, Hdebug.
    - unfold fetchFromUpstream. cbn [fresh spawn set_tasks emit]. now rewrite Hdebug. }
  intros Hstep.
  destruct e as [δ|u|u|n f|n f|n err|n res|n sz|n err|n|n err|n|n f|n f|n|n];
    cbn [step] in Hstep.
  - destruct (0 <=? δ); [| discriminate]. now injection Hstep as <-.
  - injection Hstep as <-. unfold fetch. now rewrite Hlock.
  - injection Hstep as <-. unfold purge. now rewrite Hlock.
  - destruct (pick (sel_stat n) (tasks s)) as [[c rest]|]; [| discriminate].
    revert Hstep. unfold statted.
    destruct (match f with Some errcode => inl errcode | None => _ end) as [errcode|st].
    + destruct (String.eqb errcode "ENOENT"); intros Hs';
        apply (inj Some) in Hs'; subst s'; cbv beta iota zeta; [reflexivity |].
      now rewrite (Hprobe c Miss).
    + destruct (_ && _); intros Hs';
        apply (inj Some) in Hs'; subst s'; cbv beta iota zeta.
      * now rewrite (Hprobe c (Hit (atime st) (mtime st))).
      * now rewrite (Hprobe c Miss), Hdebug.
  - destruct (pick (sel_mkdir n) (tasks s)) as [[c rest]|]; [| discriminate].
    destruct (faulty f (files s) _) as [fs' err].
    unfold mkdired in Hstep. cbv beta iota zeta in Hstep.
    apply (inj Some) in Hstep. subst s'.
    rewrite (Hprobe c Miss).
    destruct err as [errcode|]; [| reflexivity].
    now destruct (String.eqb errcode "EEXIST").
  - destruct (pick (sel_get n) (tasks s)) as [[c rest]|]; [| discriminate].
    now injection Hstep as <-.
  - destruct (pick (sel_get n) (tasks s)) as [[c rest]|]; [| discriminate].
    injection Hstep as <-. unfold get_responded.
    destruct (negb _); [reflexivity |]. now destruct (_ && _).
  - destruct (pick (sel_body n) (tasks s)) as [[[c res] rest]|]; [| discriminate].
    destruct (0 <=? sz); [| discriminate]. now injection Hstep as <-.
  - destruct (pick (sel_body n) (tasks s)) as [[[c res] rest]|]; [| discriminate].
    now injection Hstep as <-.
  - destruct (pick (sel_timer (clock s) n) (tasks s)) as [[c rest]|]; [| discriminate].
    now injection Hstep as <-.
  - destruct (pick (sel_aborted n) (tasks s)) as [[c rest]|]; [| discriminate].
    now injection Hstep as <-.
  - destruct (pick (sel_close n) (tasks s)) as [[[c res] rest]|]; [| discriminate].
    now injection Hstep as <-.
  - destruct (pick (sel_rename n) (tasks s)) as [[[c res] rest]|]; [| discriminate].
    destruct (faulty f (files s) _) as [fs' err]. injection Hstep as <-.
    unfold renamed. now destruct err.
  - destruct (pick (sel_utimes n) (tasks s)) as [[[c [a m]] rest]|]; [| discriminate].
    destruct (faulty f (files s) _) as [fs' err]. injection Hstep as <-.
    unfold stamped. destruct err as [errcode|]; [reflexivity | now rewrite Hup].
  - destruct (pick (sel_unlink n) (tasks s)) as [[[c err] rest]|]; [| discriminate].
    injection Hstep as <-. unfold part_unlinked. now rewrite Hup.
  - destruct (pick (sel_purge n) (tasks s)) as [[file rest]|]; [| discriminate].
    injection Hstep as <-. unfold purge_unlinked. cbn [fresh emit]. now rewrite Hunlock.
Qed.

(** Every call made so far has at most one token, no other name has any, and
    when the callbacks of [fetch] are counted every call has exactly one. *)
Definition accounted (all : bool) (s : state) : Prop :=
  ∀ d, (tokens all d s ≤ 1)%nat
       ∧ ((fresh s ≤ d)%nat → tokens all d s = 0%nat)
       ∧ (all = true → (d < fresh s)%nat → tokens all d s = 1%nat).

Lemma accounted_call (all w : bool) (d : nat) (s s' : state) :
  (w = true → all = true → True) → (all = true → w = true) →
  fresh s' = S (fresh s) →
  tokens all d s' = (tokens all d s + if w && Nat.eqb (fresh s) d then 1 else 0)%nat →
  (tokens all d s ≤ 1)%nat →
  ((fresh s ≤ d)%nat → tokens all d s = 0%nat) →
  (all = true → (d < fresh s)%nat → tokens all d s = 1%nat) →
  (tokens all d s' ≤ 1)%nat
  ∧ ((fresh s' ≤ d)%nat → tokens all d s' = 0%nat)
  ∧ (all = true → (d < fresh s')%nat → tokens all d s' = 1%nat).
Proof.
  intros _ Hw Hf -> Hle Hzero Hone. rewrite Hf.
  destruct (Nat.eqb_spec (fresh s) d) as [Heq|Hne].
  - rewrite (Hzero ltac:(lia)), andb_true_r. split; [| split].
    + destruct w; simpl; lia.
    + intros; lia.
    + intros Ha _. now rewrite (Hw Ha).
  - rewrite andb_false_r, Nat.add_0_r. split; [| split].
    + exact Hle.
    + intros; apply Hzero; lia.
    + intros Ha Hd. apply Hone; [exact Ha | lia].
Qed.

Lemma accounted_step (o : options) (all : bool) (e : event) (s s' : state) :
  (all = true → well_behaved e = true) → step o e s = Some s' →
  accounted all s → accounted all s'.
Proof.
  intros Hwb Hstep Hs d. destruct (Hs d) as (Hle & Hzero & Hone).
  pose proof (tokens_step all o d e s s' Hwb Hstep) as Ht.
  pose proof (fresh_step o e s s' Hstep) as Hf.
  destruct e; cbn [calls] in Ht;
    try (rewrite Nat.add_0_r in Ht; rewrite Ht, Hf; now split; [| split]).
  - apply (accounted_call all all d s s'); auto.
  - apply (accounted_call all true d s s'); auto.
Qed.

Lemma accounted_run (o : options) (all : bool) (es : list event) :
  ∀ s s', (all = true → forallb well_behaved es = true) → run o es s = Some s' →
          accounted all s → accounted all s'.
Proof.
  induction es as [|e es IH]; intros s s' Hes Hrun Hs; simpl in *.
  - now injection Hrun as <-.
  - destruct (step o e s) as [s1|] eqn:Hstep; [| discriminate].
    apply (IH s1 s'); [| exact Hrun |].
    + intros Ha. specialize (Hes Ha). now apply andb_true_iff in Hes as [_ ?].
    + apply (accounted_step o all e s); [| exact Hstep | exact Hs].
      intros Ha. specialize (Hes Ha). now apply andb_true_iff in Hes as [? _].
Qed.

Lemma accounted_initial all fs now : accounted all (initial fs now).
Proof.
  intros d.
  assert (H : tokens all d (initial fs now) = 0%nat).
  { unfold tokens. cbn [initial tasks lockedFiles trace]. now rewrite queued_empty. }
  rewrite H. cbn [initial fresh].
  split; [lia | split; [reflexivity | intros _ Hd; inversion Hd]].
Qed.

(** Once called, a purge keeps its one token. *)
Lemma token_kept (o : options) (d : nat) (es : list event) :
  ∀ s s', accounted false s → tokens false d s = 1%nat →
          run o es s = Some s' → tokens false d s' = 1%nat.
Proof.
  induction es as [|e es IH]; intros s s' Hs H1 Hrun; simpl in Hrun.
  - now injection Hrun as <-.
  - destruct (step o e s) as [s1|] eqn:Hstep; [| discriminate].
    apply (IH s1 s'); [| | exact Hrun].
    + apply (accounted_step o false e s); [discriminate | exact Hstep | exact Hs].
    + rewrite (tokens_step false o d e s s1); [| discriminate | exact Hstep].
      destruct (Hs d) as (_ & Hzero & _).
      destruct e; cbn [calls andb]; try lia.
      destruct (Nat.eqb_spec (fresh s) d) as [Heq|Hne]; [| lia].
      rewrite Hzero in H1; [discriminate | lia].
Qed.

Lemma purge_token (o : options) (u : string) (es : list event) (s s' : state) :
  accounted false s →
  run o (EvPurge u :: es) s = Some s' →
  tokens false (fresh s) s' = 1%nat.
Proof.
  intros Hs Hrun. cbn [run step] in Hrun.
  apply (token_kept o (fresh s) es (purge o u s) s'); [| | exact Hrun].
  - apply (accounted_step o false (EvPurge u) s); [discriminate | reflexivity | exact Hs].
  - rewrite (tokens_step false o (fresh s) (EvPurge u) s (purge o u s));
      [| discriminate | reflexivity].
    destruct (Hs (fresh s)) as (_ & Hzero & _). rewrite (Hzero (Nat.le_refl _)).
    cbn [calls]. now rewrite Nat.eqb_refl.
Qed.

End OnceFacts.

(** Unless an aborted response emits an error, every callback runs at most
    once in an execution from an idle instance, and the callback of a call
    that has no callback pending and is in no queue has run exactly once. *)
Lemma callbacks_run_once (o : options) (fs : gmap string stats) (now : Z)
    (es : list event) (s : state) (d : nat) :
  forallb well_behaved es = true →
  run o es (initial fs now) = Some s →
  (List.length (outcomes d (trace s)) ≤ 1)%nat
  ∧ ((d < fresh s)%nat → pending_of true d (tasks s) = 0%nat →
     queued true d (lockedFiles s) = 0%nat →
     List.length (outcomes d (trace s)) = 1%nat).
Proof.
  intros Hes Hrun.
  destruct (OnceFacts.accounted_run o true es _ _ (λ _, Hes) Hrun
              (OnceFacts.accounted_initial true fs now) d) as (Hle & _ & Hone).
  assert (Ha : answered true d (trace s) = List.length (outcomes d (trace s))).
  { unfold answered. f_equal. induction (outcomes d (trace s)) as [|r l IH]; [reflexivity |].
    simpl. destruct r; simpl; now rewrite IH. }
  unfold tokens in Hle, Hone. rewrite Ha in Hle, Hone. split.
  - lia.
  - intros Hlt Hp Hq. specialize (Hone eq_refl Hlt). lia.
Qed.


(** ** Concrete executions *)

Module RunFacts.

(** An execution that can be checked by evaluation. *)
Lemma ran (o : options) (es : list event) (s : state) :
  is_Some (run o es s) → run o es s = Some (default s (run o es s)).
Proof. intros [s' ->]. reflexivity. Qed.

End RunFacts.

Ltac evaluate_run :=
  match goal with
  | |- ∃ s, run ?o ?es ?s0 = Some s ∧ _ =>
      exists (default s0 (run o es s0));
      split; [apply RunFacts.ran; vm_compute; eauto | repeat split; vm_compute; reflexivity]
  end.

(** ** C9: how often the callback runs *)

(** C9. The callback of [fetch] does not always run exactly once: when the
    response timer fires and the aborted response then emits an error, both
    reach [onError], and the caller's callback runs twice, first with the
    timeout (504) and then with the error of the response. *)
Theorem timeout_then_error_calls_back_twice :
  ∃ s, run test_options
         [EvFetch test_url; EvStat 0 None; EvMkdir 0 None;
          EvGetResponse 0 ok_response; EvTick 10000; EvTimer 0; EvUnlinkPart 0;
          EvAbortedError 0 aborted_error; EvUnlinkPart 0] idle = Some s
       ∧ outcomes 0 (trace s)
         = [Failed (JsError
                      "Upstream http://example.com/path failed: response timeout of 10000ms"
                      (JNumber 504));
            Failed (JsError "Upstream http://example.com/path failed: aborted"
                            (JString "ECONNRESET"))].
Proof. evaluate_run. Qed.

(** The second callback also releases the lock a second time: with two more
    fetches of the URL waiting, both end up with a request on the wire. *)
Example double_release_two_in_flight :
  ∃ s, run test_options
         [EvFetch test_url; EvFetch test_url; EvFetch test_url;
          EvStat 0 None; EvMkdir 0 None; EvGetResponse 0 ok_response;
          EvTick 10000; EvTimer 0; EvUnlinkPart 0;
          EvStat 1 None; EvMkdir 1 None;
          EvAbortedError 0 aborted_error; EvUnlinkPart 0;
          EvStat 2 None; EvMkdir 2 None] idle = Some s
       ∧ in_flight test_filename s = 2%nat.
Proof. evaluate_run. Qed.

(** ** Counterexamples to the claims as first stated *)

(** C1, as stated, fails: an upstream answer with an empty body is stored
    as a file of size 0, which the probe never takes for a hit, so the waiter
    that takes over the lock after the successful fetch misses and sends a
    request of its own. *)
Lemma waiter_misses_empty_body :
  ∃ s, run test_options
         [EvFetch test_url; EvFetch test_url; EvStat 0 None; EvMkdir 0 None;
          EvGetResponse 0 ok_response; EvBodyEnd 0 0; EvFileClose 0;
          EvRename 0 None; EvUtimes 0 None; EvStat 1 None] idle = Some s
       ∧ outcomes 0 (trace s) = [Delivered test_filename 0 604800000]
       ∧ requested 1 (trace s) = 1%nat
       ∧ outcomes 1 (trace s) = [].
Proof. evaluate_run. Qed.

(** The same happens with [minimumTtl: 0] and no Cache-Control header: the
    entry expires the moment it is stamped. *)
Example waiter_misses_with_zero_ttl :
  ∃ s, run zero_ttl_options
         [EvFetch test_url; EvFetch test_url; EvStat 0 None; EvMkdir 0 None;
          EvGetResponse 0 ok_response; EvBodyEnd 0 18; EvFileClose 0;
          EvRename 0 None; EvUtimes 0 None; EvStat 1 None] idle = Some s
       ∧ outcomes 0 (trace s) = [Delivered test_filename 0 0]
       ∧ requested 1 (trace s) = 1%nat
       ∧ outcomes 1 (trace s) = [].
Proof. evaluate_run. Qed.

(** C6, as stated, fails: the error of a failed rename (here onto a
    directory) has no code. *)
Lemma rename_failure_has_no_code :
  ∃ s, run test_options
         [EvFetch test_url; EvStat 0 None; EvGetResponse 0 ok_response;
          EvBodyEnd 0 18; EvFileClose 0; EvRename 0 None; EvUnlinkPart 0]
         (initial {[test_filename := Stats false 0 0 0]} 0) = Some s
       ∧ outcomes 0 (trace s)
         = [Failed (JsError ("Upstream http://example.com/path failed: could not rename "
                             +:+ "/tmp/petra/te/test-fingerprint.part as "
                             +:+ "/tmp/petra/te/test-fingerprint EISDIR") JUndefined)].
Proof. evaluate_run. Qed.


(** ** The theorems at the scenarios of the test suite *)

Lemma single_flight_per_key_witness :
  ((in_flight_url test_options test_url two_callers ≤ 1)%nat
   ∧ (in_flight test_filename two_callers ≤ 1)%nat)
  ∧ ∃ s', run test_options [EvUtimes 0 None; EvTick 5; EvStat 1 None] stamping = Some s'
          ∧ outcomes 1 (trace s')
            = outcomes 1 (trace stamping) ++ [Delivered test_filename 0 604800000]
          ∧ requested 1 (trace s') = requested 1 (trace stamping).
Proof.
  split.
  - destruct (proj1 (single_flight_per_key test_options) ∅ 0 two_callers_events two_callers)
      as [Hu Hk]; [reflexivity | apply RunFacts.ran; vm_compute; eauto |].
    split; [apply Hu | apply Hk].
  - destruct (proj2 (single_flight_per_key test_options) stamping (test_call 0) (test_call 1)
                0 604800000 5 [] [] (FileLocker.Entry 0 [ProceedFetch (test_call 1)]) []
                (Stats true 18 0 0))
      as (s' & Hrun & _ & Hout & Hreq & _).
    + vm_compute. reflexivity.
    + constructor.
    + constructor.
    + discriminate.
    + reflexivity.
    + vm_compute. reflexivity.
    + reflexivity.
    + vm_compute. reflexivity.
    + reflexivity.
    + reflexivity.
    + discriminate.
    + reflexivity.
    + exists s'. repeat split; assumption.
Defined.

Lemma FileLocker_balanced_witness :
  (FileLocker.run_calls
     [FileLocker.Lock "k" 1%nat 10; FileLocker.Lock "k" 2%nat 11;
      FileLocker.Lock "j" 7%nat 12; FileLocker.Unlock "k" 13;
      FileLocker.Unlock "k" 14] ∅).1 !! "k" = None.
Proof.
  apply (proj1 (FileLocker_balanced (P:=nat) "k")); [apply lookup_empty | reflexivity].
Defined.



Lemma probe_spec_witness :
  (statted test_options (test_call 0) (Fs.stat (files seeded) test_filename) seeded).2
  = Some (Hit 0 10000).
Proof.
  apply (proj1 (proj2 (probe_spec test_options (test_call 0) seeded))).
  exists (Stats true 18 0 10000). repeat split; try reflexivity.
Defined.

Lemma upstream_error_codes_witness :
  fails_with test_options request_sent (test_call 0)
    [EvGetError 0 refused_error; EvUnlinkPart 0]
    (JsError "Upstream http://example.com/path failed: connect ECONNREFUSED 127.0.0.1:50000"
             (JNumber 504)).
Proof.
  refine (proj1 (upstream_error_codes test_options request_sent (test_call 0) [] [] _ _)
            refused_error).
  - vm_compute. reflexivity.
  - constructor.
Defined.



Lemma fetch_release_order_witness :
  ∃ s', step test_options (EvUnlinkPart 0) refused = Some s'
        ∧ trace s'
          = trace refused
            ++ [OCallback 0 (Failed (JsError
                  "Upstream http://example.com/path failed: connect ECONNREFUSED 127.0.0.1:50000"
                  (JNumber 504)));
                OUnlock test_filename].
Proof.
  apply (proj2 (proj2 (fetch_release_order test_options refused 0 (test_call 0)))
           [] (errorWithCode "connect ECONNREFUSED 127.0.0.1:50000" 504)).
  vm_compute. reflexivity.
Defined.
(** * Further properties of the source *)

(** ** The [FileLocker]: queues *)

Module LawFacts.
Section Facts.
Import FileLocker LockerLaw.

Context {P : Type}.
Implicit Types (t : gmap string (entry P)) (cs : list (call P)).

Lemma waiting_other k (c : call P) t :
  call_file c ≠ k → waiting k (do_call c t).1 = waiting k t.
Proof.
  intros Hk. unfold waiting.
  rewrite LockerFacts.do_call_other; [reflexivity | now destruct c].
Qed.

(** One call on [k]: what it releases, followed by what is left waiting, is
    what was waiting followed by what it submits. *)
Lemma call_law k (c : call P) t :
  call_file c = k →
  option_list (do_call c t).2 ++ waiting k (do_call c t).1
  = waiting k t ++ submitted k [c].
Proof.
  intros <-. unfold waiting. destruct c as [file p now|file now]; simpl.
  - rewrite decide_True by reflexivity. unfold lock.
    destruct (t !! file) as [e|] eqn:He; simpl; rewrite lookup_insert_eq; simpl.
    + reflexivity.
    + reflexivity.
  - unfold unlock. destruct (t !! file) as [e|] eqn:He; simpl.
    + destruct (onRelease e) as [|next q] eqn:Hq; simpl.
      * now rewrite lookup_delete_eq.
      * rewrite lookup_insert_eq. simpl. now rewrite app_nil_r.
    + now rewrite He.
Qed.

Lemma submitted_cons k (c : call P) cs :
  submitted k (c :: cs) = submitted k [c] ++ submitted k cs.
Proof.
  destruct c as [file p now|file now]; simpl; [| reflexivity].
  now destruct (decide (file = k)).
Qed.

Lemma submitted_other k (c : call P) : call_file c ≠ k → submitted k [c] = [].
Proof.
  destruct c as [file p now|file now]; simpl; [| reflexivity].
  intros H. now rewrite decide_False.
Qed.

Lemma queue_law k cs : ∀ t,
  released k cs t ++ waiting k (run_calls cs t).1 = waiting k t ++ submitted k cs.
Proof.
  induction cs as [|c cs IH]; intros t.
  - simpl. now rewrite app_nil_r.
  - rewrite LockerFacts.run_calls_cons, submitted_cons. cbn [released].
    specialize (IH (do_call c t).1).
    destruct (do_call c t) as [t1 ran] eqn:Hc. cbn [fst snd] in *.
    destruct (run_calls cs t1) as [t2 rans] eqn:Hr. cbn [fst] in *.
    rewrite <- app_assoc, IH, app_assoc.
    destruct (decide (call_file c = k)) as [Hk|Hk].
    + pose proof (call_law k c t Hk) as H. rewrite Hc in H. cbn [fst snd] in H.
      now rewrite H, <- app_assoc.
    + pose proof (waiting_other k c t Hk) as H. rewrite Hc in H. cbn [fst] in H.
      now rewrite H, (submitted_other k c Hk).
Qed.

(** Calls on other keys change nothing for [k]. *)
Lemma projection k cs : ∀ t t',
  t !! k = t' !! k →
  (run_calls cs t).1 !! k = (run_calls (on_key k cs) t').1 !! k
  ∧ released k cs t = released k (on_key k cs) t'.
Proof.
  induction cs as [|c cs IH]; intros t t' Ht; [now split |].
  rewrite LockerFacts.run_calls_cons. cbn [released on_key List.filter].
  fold (on_key k cs).
  destruct (decide (call_file c = k)) as [Hk|Hk].
  - rewrite bool_decide_eq_true_2 by exact Hk.
    rewrite LockerFacts.run_calls_cons. cbn [released].
    destruct (decide (call_file c = k)) as [_|Hn]; [| contradiction].
    assert (Hsame : (do_call c t).1 !! k = (do_call c t').1 !! k
                    ∧ (do_call c t).2 = (do_call c t').2).
    { subst k. destruct c as [file p now|file now]; simpl in *.
      - unfold lock. rewrite <- Ht. destruct (t !! file); simpl;
          now rewrite !lookup_insert_eq.
      - unfold unlock. rewrite <- Ht. destruct (t !! file) as [e|] eqn:He; simpl.
        + destruct (onRelease e); simpl.
          * now rewrite !lookup_delete_eq.
          * now rewrite !lookup_insert_eq.
        + now rewrite He, <- Ht. }
    destruct Hsame as [H1 H2].
    destruct (IH _ _ H1) as [IH1 IH2].
    destruct (do_call c t) as [t1 ran], (do_call c t') as [t1' ran'].
    cbn [fst snd] in *. subst ran'.
    destruct (run_calls cs t1) as [t2 rans], (run_calls (on_key k cs) t1') as [t2' rans'].
    cbn [fst] in *. now rewrite IH1, IH2.
  - rewrite bool_decide_eq_false_2 by exact Hk.
    assert (H1 : (do_call c t).1 !! k = t' !! k).
    { rewrite LockerFacts.do_call_other; [exact Ht | now destruct c]. }
    destruct (IH _ _ H1) as [IH1 IH2].
    destruct (do_call c t) as [t1 ran]. cbn [fst] in *.
    destruct (run_calls cs t1) as [t2 rans]. cbn [fst] in *.
    now rewrite IH1, IH2.
Qed.

End Facts.
End LawFacts.

(** X1. The queue law of the [FileLocker]: for every sequence of [lock] and
    [unlock] calls, on any keys and in any order, and every key [k], the
    continuations invoked by the calls on [k], followed by those still
    waiting for [k], are the continuations that were waiting for [k] before,
    followed by those passed to [lock(k, _)], in the order of the calls.  So
    no continuation is dropped, none is invoked twice, and they are served
    first come, first served. *)
Theorem FileLocker_queue_law {P : Type} (k : string) (cs : list (FileLocker.call P))
    (lockedFiles : gmap string (FileLocker.entry P)) :
  LockerLaw.released k cs lockedFiles
  ++ LockerLaw.waiting k (FileLocker.run_calls cs lockedFiles).1
  = LockerLaw.waiting k lockedFiles ++ LockerLaw.submitted k cs.
Proof. apply LawFacts.queue_law. Qed.

(** X2. In a balanced sequence of calls that starts with [k] unlocked, every
    continuation passed to [lock(k, _)] is invoked, exactly once, and they
    are invoked in the order of the [lock] calls. *)
Theorem FileLocker_fifo_service {P : Type} (k : string) (cs : list (FileLocker.call P))
    (lockedFiles : gmap string (FileLocker.entry P)) :
  lockedFiles !! k = None →
  FileLocker.balanced k cs →
  LockerLaw.released k cs lockedFiles = LockerLaw.submitted k cs.
Proof.
  intros Hfree Hbal.
  pose proof (LawFacts.queue_law k cs lockedFiles) as Hlaw.
  pose proof (LockerFacts.balanced_from_releases k cs 0 lockedFiles Hfree Hbal) as Hend.
  unfold LockerLaw.waiting in Hlaw. rewrite Hfree in Hlaw.
  simpl in Hend. rewrite Hend in Hlaw. now rewrite app_nil_r in Hlaw.
Qed.

(** X3. Keys do not interfere: the entry of [k] after a sequence of calls,
    and the continuations invoked for [k], are those of the calls on [k]
    alone. *)
Theorem FileLocker_keys_independent {P : Type} (k : string)
    (cs : list (FileLocker.call P)) (lockedFiles : gmap string (FileLocker.entry P)) :
  (FileLocker.run_calls cs lockedFiles).1 !! k
  = (FileLocker.run_calls (LockerLaw.on_key k cs) lockedFiles).1 !! k
  ∧ LockerLaw.released k cs lockedFiles
    = LockerLaw.released k (LockerLaw.on_key k cs) lockedFiles.
Proof. now apply LawFacts.projection. Qed.

(** ** The callbacks of [fetch] and [purge], one step at a time *)

Module FlowFacts.
Import PickFacts CallFacts.

Lemma debug_log_state (o : options) (msg : string) (s : state) :
  debug_log o msg s
  = State (lockedFiles s) (files s) (clock s) (tasks s) (fresh s)
          (trace s ++ debugged o msg).
Proof.
  destruct s. unfold debug_log, debugged, log, emit. destruct (debug o); simpl.
  - reflexivity.
  - now rewrite app_nil_r.
Qed.

Lemma unlock_last (file : string) (s : state) (e : FileLocker.entry proceed) :
  lockedFiles s !! file = Some e → FileLocker.onRelease e = [] →
  locker_unlock file s
  = State (delete file (lockedFiles s)) (files s) (clock s) (tasks s) (fresh s)
          (trace s ++ [OUnlock file]).
Proof.
  intros He Hq. unfold locker_unlock, FileLocker.unlock. now rewrite He, Hq.
Qed.

Lemma unlock_next (file : string) (s : state) (e : FileLocker.entry proceed)
    (p : proceed) (q : list proceed) :
  lockedFiles s !! file = Some e → FileLocker.onRelease e = p :: q →
  locker_unlock file s
  = State (<[file := FileLocker.Entry (clock s) q]> (lockedFiles s)) (files s) (clock s)
          (tasks s ++ [started p]) (fresh s) (trace s ++ [OUnlock file; OProceed p]).
Proof.
  intros He Hq. unfold locker_unlock, FileLocker.unlock. rewrite He, Hq.
  unfold invoke, spawn, emit, set_tasks, set_locks. cbn [lockedFiles files clock tasks fresh trace].
  now rewrite <- app_assoc.
Qed.

Lemma lock_free (file : string) (p : proceed) (s : state) :
  lockedFiles s !! file = None →
  locker_lock file p s
  = State (<[file := FileLocker.Entry (clock s) []]> (lockedFiles s)) (files s) (clock s)
          (tasks s ++ [started p]) (fresh s) (trace s ++ [OProceed p]).
Proof.
  intros He. unfold locker_lock, FileLocker.lock. now rewrite He.
Qed.

Lemma lock_held (file : string) (p : proceed) (s : state) (e : FileLocker.entry proceed) :
  lockedFiles s !! file = Some e →
  locker_lock file p s
  = State (<[file := FileLocker.Entry (FileLocker.lastUpdated e)
                       (FileLocker.onRelease e ++ [p])]> (lockedFiles s))
          (files s) (clock s) (tasks s) (fresh s) (trace s).
Proof.
  intros He. unfold locker_lock, FileLocker.lock. now rewrite He.
Qed.

(** *** Calls of the API *)

Lemma fetch_free (o : options) (u : string) (s : state) :
  lockedFiles s !! canonical o u = None →
  step o (EvFetch u) s
  = Some (State (<[canonical o u := FileLocker.Entry (clock s) []]> (lockedFiles s))
                (files s) (clock s) (tasks s ++ [TStat (call_of o u (fresh s))])
                (S (fresh s))
                (trace s ++ [OProceed (ProceedFetch (call_of o u (fresh s)))])).
Proof.
  intros He. cbn [step]. unfold fetch. fold (canonical o u). fold (call_of o u (fresh s)).
  now rewrite lock_free.
Qed.

Lemma fetch_held (o : options) (u : string) (s : state) (e : FileLocker.entry proceed) :
  lockedFiles s !! canonical o u = Some e →
  step o (EvFetch u) s
  = Some (State (<[canonical o u :=
                     FileLocker.Entry (FileLocker.lastUpdated e)
                       (FileLocker.onRelease e
                        ++ [ProceedFetch (call_of o u (fresh s))])]> (lockedFiles s))
                (files s) (clock s) (tasks s) (S (fresh s)) (trace s)).
Proof.
  intros He. cbn [step]. unfold fetch. fold (canonical o u). fold (call_of o u (fresh s)).
  now rewrite (lock_held _ _ _ e).
Qed.

Lemma purge_call_free (o : options) (u : string) (s : state) :
  lockedFiles s !! canonical o u = None →
  step o (EvPurge u) s
  = Some (State (<[canonical o u := FileLocker.Entry (clock s) []]> (lockedFiles s))
                (files s) (clock s)
                (tasks s ++ [TPurgeUnlink (canonical o u) (fresh s)])
                (S (fresh s))
                (trace s ++ [OProceed (ProceedPurge (canonical o u) (fresh s))])).
Proof.
  intros He. cbn [step]. unfold purge. fold (canonical o u).
  now rewrite lock_free.
Qed.

Lemma tick (o : options) (δ : Z) (s : state) :
  0 ≤ δ →
  step o (EvTick δ) s
  = Some (State (lockedFiles s) (files s) (clock s + δ) (tasks s) (fresh s) (trace s)).
Proof. intros H. cbn [step]. now rewrite (proj2 (Z.leb_le 0 δ) H). Qed.

(** *** The probe *)

Section Probe.
Variables (o : options) (c : fetch_call) (s : state) (ts : list task).
Hypothesis Hts : tasks s = ts ++ [TStat c].
Hypothesis Hset : settled (done c) ts.

Lemma pick_stat : pick (sel_stat (done c)) (tasks s) = Some (c, ts).
Proof.
  rewrite Hts. apply (pick_last _ (done c)); [auto with petra | exact Hset |].
  simpl. apply for_call_done.
Qed.

(** Nothing at the path: the shard directory is made. *)
Lemma stat_absent :
  files s !! filename c = None →
  step o (EvStat (done c) None) s
  = Some (State (lockedFiles s) (files s) (clock s) (ts ++ [TMkdir c]) (fresh s) (trace s)).
Proof.
  intros Hf. cbn [step]. rewrite pick_stat. unfold Fs.stat. rewrite Hf. reflexivity.
Qed.

(** A stale or unusable entry: straight to the upstream. *)
Lemma stat_stale (st : stats) :
  files s !! filename c = Some st →
  fresh_entry (clock s) st = false →
  step o (EvStat (done c) None) s
  = Some (State (lockedFiles s) (files s) (clock s) (ts ++ [TGet c]) (fresh s)
                (trace s ++ debugged o ("Cached file " +:+ filename c +:+ " expired")
                         ++ debugged o ("Filesystem miss " +:+ filename c)
                         ++ [ORequest (done c) (url c)])).
Proof.
  intros Hf Hst. cbn [step]. rewrite pick_stat. unfold Fs.stat. rewrite Hf.
  unfold statted. cbn [clock set_tasks]. unfold fresh_entry in Hst. rewrite Hst.
  unfold probe_done, fetchFromUpstream. rewrite !debug_log_state.
  unfold spawn, emit, set_tasks. cbn [lockedFiles files clock tasks fresh trace].
  now rewrite <- !app_assoc.
Qed.

(** A [stat] that fails otherwise is logged and counts as a miss. *)
Lemma stat_fails (errcode : string) :
  errcode ≠ "ENOENT" →
  step o (EvStat (done c) (Some errcode)) s
  = Some (State (lockedFiles s) (files s) (clock s) (ts ++ [TGet c]) (fresh s)
                (trace s ++ [OLog ("Could not stat " +:+ filename c +:+ " " +:+ errcode)]
                         ++ debugged o ("Filesystem miss " +:+ filename c)
                         ++ [ORequest (done c) (url c)])).
Proof.
  intros Hne. cbn [step]. rewrite pick_stat. unfold statted.
  apply String.eqb_neq in Hne. rewrite Hne.
  unfold probe_done, fetchFromUpstream. rewrite !debug_log_state.
  unfold spawn, emit, log, set_tasks. cbn [lockedFiles files clock tasks fresh trace emit].
  now rewrite <- !app_assoc.
Qed.

(** A fresh entry: the lock is released and the caller answered. *)
Lemma stat_fresh (st : stats) :
  files s !! filename c = Some st →
  fresh_entry (clock s) st = true →
  step o (EvStat (done c) None) s
  = Some (emit (OCallback (done c) (Delivered (filename c) (atime st) (mtime st)))
            (locker_unlock (filename c)
               (State (lockedFiles s) (files s) (clock s) ts (fresh s)
                      (trace s ++ debugged o ("Filesystem hit " +:+ filename c))))).
Proof.
  intros Hf Hst. cbn [step]. rewrite pick_stat. unfold Fs.stat. rewrite Hf.
  unfold statted. cbn [clock set_tasks]. unfold fresh_entry in Hst. rewrite Hst.
  unfold probe_done. now rewrite debug_log_state.
Qed.

End Probe.

Section Mkdir.
Variables (o : options) (c : fetch_call) (s : state) (ts : list task).
Hypothesis Hts : tasks s = ts ++ [TMkdir c].
Hypothesis Hset : settled (done c) ts.

Lemma pick_mkdir : pick (sel_mkdir (done c)) (tasks s) = Some (c, ts).
Proof.
  rewrite Hts. apply (pick_last _ (done c)); [auto with petra | exact Hset |].
  simpl. apply for_call_done.
Qed.

(** The shard directory is there afterwards, made now or found; then the
    request is sent. *)
Lemma mkdir_done :
  step o (EvMkdir (done c) None) s
  = Some (State (lockedFiles s) (Fs.mkdir (files s) (cachePath c) (clock s)).1 (clock s)
                (ts ++ [TGet c]) (fresh s)
                (trace s ++ debugged o ("Filesystem miss " +:+ filename c)
                         ++ [ORequest (done c) (url c)])).
Proof.
  cbn [step]. rewrite pick_mkdir. unfold faulty, Fs.mkdir.
  destruct (files s !! cachePath c) as [st|]; cbv beta iota zeta;
    unfold mkdired, probe_done, fetchFromUpstream; simpl String.eqb; cbv beta iota zeta;
    rewrite !debug_log_state;
    unfold spawn, emit, set_tasks, set_files; cbn [lockedFiles files clock tasks fresh trace fst];
    now rewrite <- !app_assoc.
Qed.

End Mkdir.

(** *** The upstream fetch *)

Section Upstream.
Variables (o : options) (c : fetch_call) (s : state) (ts : list task).
Hypothesis Hset : settled (done c) ts.

Lemma pick_at {A : Type} (sel : task → option A) (t : task) (a : A) :
  addressed sel (done c) → sel t = Some a →
  tasks s = ts ++ [t] → pick sel (tasks s) = Some (a, ts).
Proof. intros Hsel Ht ->. now apply (pick_last sel (done c)). Qed.

Lemma get_accepted (res : response) :
  tasks s = ts ++ [TGet c] → accepted o res →
  step o (EvGetResponse (done c) res) s
  = Some (State (lockedFiles s) (Fs.create (files s) (partial c) (clock s)) (clock s)
                (ts ++ [TBody c res (timer_at o (clock s))]) (fresh s) (trace s)).
Proof.
  intros Hts Hacc.
  rewrite (ErrorFacts.respond o s c res ts [] Hts) by (now rewrite ?app_nil_r).
  now rewrite app_nil_r.
Qed.

Lemma body_end (res : response) (timer : option Z) (n : Z) :
  tasks s = ts ++ [TBody c res timer] → 0 ≤ n →
  step o (EvBodyEnd (done c) n) s
  = Some (State (lockedFiles s) (Fs.written (files s) (partial c) n (clock s)) (clock s)
                (ts ++ [TFileClose c res]) (fresh s) (trace s)).
Proof.
  intros Hts Hn. cbn [step].
  rewrite (pick_at (sel_body (done c)) (TBody c res timer) (c, res)); [| auto with petra | | exact Hts].
  - now rewrite (proj2 (Z.leb_le 0 n) Hn).
  - simpl. now rewrite for_call_done.
Qed.

Lemma file_close (res : response) :
  tasks s = ts ++ [TFileClose c res] →
  step o (EvFileClose (done c)) s
  = Some (State (lockedFiles s) (files s) (clock s) (ts ++ [TRename c res]) (fresh s)
                (trace s)).
Proof.
  intros Hts. cbn [step].
  rewrite (pick_at (sel_close (done c)) (TFileClose c res) (c, res)); [| auto with petra | | exact Hts].
  - reflexivity.
  - simpl. now rewrite for_call_done.
Qed.

Lemma rename_done (res : response) :
  tasks s = ts ++ [TRename c res] →
  (Fs.rename (files s) (partial c) (filename c)).2 = None →
  step o (EvRename (done c) None) s
  = Some (State (lockedFiles s) (Fs.rename (files s) (partial c) (filename c)).1 (clock s)
                (ts ++ [TUtimes c (clock s) (clock s + effective_ttl o res * 1000)])
                (fresh s) (trace s)).
Proof.
  intros Hts Hok. cbn [step].
  rewrite (pick_at (sel_rename (done c)) (TRename c res) (c, res)); [| auto with petra | | exact Hts].
  - unfold faulty. destruct (Fs.rename (files s) (partial c) (filename c)) as [fs' err].
    cbn [snd] in Hok. subst err. reflexivity.
  - simpl. now rewrite for_call_done.
Qed.

Lemma utimes_done (a m : Z) (st : stats) :
  tasks s = ts ++ [TUtimes c a m] →
  files s !! filename c = Some st →
  step o (EvUtimes (done c) None) s
  = Some (emit (OCallback (done c) (Delivered (filename c) a m))
            (locker_unlock (filename c)
               (State (lockedFiles s)
                      (<[filename c := Stats (isFile st) (size st) a m]> (files s))
                      (clock s) ts (fresh s)
                      (trace s ++ debugged o ("Upstream OK " +:+ url c))))).
Proof.
  intros Hts Hf. cbn [step].
  rewrite (pick_at (sel_utimes (done c)) (TUtimes c a m) (c, (a, m))); [| auto with petra | | exact Hts].
  - unfold faulty, Fs.utimes. rewrite Hf. cbv beta iota zeta.
    unfold stamped, upstream_done. now rewrite debug_log_state.
  - simpl. now rewrite for_call_done.
Qed.

Lemma part_unlink (err : jserror) :
  tasks s = ts ++ [TUnlinkPart c err] →
  step o (EvUnlinkPart (done c)) s
  = Some (locker_unlock (filename c)
            (State (lockedFiles s) (Fs.unlink (files s) (partial c)) (clock s) ts (fresh s)
                   (trace s ++ debugged o (message (surfaced c err))
                            ++ [OCallback (done c) (Failed (surfaced c err))]))).
Proof.
  intros Hts. cbn [step].
  rewrite (pick_at (sel_unlink (done c)) (TUnlinkPart c err) (c, err)); [| auto with petra | | exact Hts].
  - unfold part_unlinked, upstream_done. rewrite debug_log_state.
    unfold emit, set_files, set_tasks. cbn [lockedFiles files clock tasks fresh trace].
    now rewrite <- app_assoc.
  - simpl. now rewrite for_call_done.
Qed.

End Upstream.

Lemma purge_unlink (o : options) (s : state) (ts : list task) (file : string) (d : nat) :
  settled d ts →
  tasks s = ts ++ [TPurgeUnlink file d] →
  step o (EvPurgeUnlink d) s
  = Some (emit (OCallback d Purged)
            (locker_unlock file
               (State (lockedFiles s) (Fs.unlink (files s) file) (clock s) ts (fresh s)
                      (trace s)))).
Proof.
  intros Hset Hts. cbn [step]. rewrite Hts.
  rewrite (pick_last (sel_purge d) d ts _ file); [reflexivity | auto with petra | exact Hset |].
  simpl. now rewrite Nat.eqb_refl.
Qed.

(** *** Paths *)

Lemma canonical_ne_dir (o : options) (u : string) :
  canonical o u ≠ _cachePath o (hash o u).
Proof.
  unfold canonical, join. intros H. apply (f_equal String.length) in H.
  rewrite !StrFacts.length_append in H. simpl in H. lia.
Qed.

Lemma partial_ne_dir (o : options) (u : string) (d : nat) :
  partial (call_of o u d) ≠ _cachePath o (hash o u).
Proof.
  unfold partial, call_of, canonical, join. cbn [filename]. intros H.
  apply (f_equal String.length) in H.
  rewrite !StrFacts.length_append in H. simpl in H. lia.
Qed.

End FlowFacts.

(** Rewriting with a step lemma, up to the projections of the closure and of
    the state. *)
Ltac step_with lem :=
  let H := fresh "Hstep" in
  pose proof lem as H;
  cbn [call_of done filename url cachePath lockedFiles files clock tasks fresh trace] in H;
  rewrite H; clear H;
  cbn [lockedFiles files clock tasks fresh trace].

Ltac at_state tac :=
  match goal with
  | |- context [step _ _ ?s2] => tac s2
  end.

Module DownloadFacts.

(** What the download leaves in the file system: the body at the canonical
    path, nothing at the [.part] path. *)
Lemma stored (fs : gmap string stats) (part file : string) (n t0 t1 a m : Z) :
  part ≠ file →
  fs !! part = None →
  (∀ st, fs !! file = Some st → isFile st = true) →
  let fs2 := Fs.written (Fs.create fs part t0) part n t1 in
  ∃ st, Fs.rename fs2 part file = (<[file := st]> fs, None)
        ∧ isFile st = true ∧ size st = n.
Proof.
  intros Hne Hpart Hfile fs2. subst fs2.
  unfold Fs.create. rewrite Hpart.
  unfold Fs.written. rewrite lookup_insert_eq. cbn [isFile atime].
  unfold Fs.rename. rewrite lookup_insert_eq.
  rewrite !lookup_insert_ne by exact Hne.
  exists (Stats true n t0 t1).
  assert (Hfs : <[file := Stats true n t0 t1]>
                  (delete part (<[part := Stats true n t0 t1]>
                                  (<[part := Stats true 0 t0 t0]> fs)))
                = <[file := Stats true n t0 t1]> fs).
  { now rewrite delete_insert_eq, delete_insert_eq, (delete_id _ _ Hpart). }
  destruct (fs !! file) as [st'|] eqn:Hst.
  - rewrite (Hfile st' eq_refl). cbn [isFile andb negb]. now rewrite Hfs.
  - now rewrite Hfs.
Qed.

(** From the arrival of an accepted response to the answer. *)
Lemma download_ok (o : options) (c : fetch_call) (s : state) (ts : list task)
    (res : response) (n δ δ' : Z) :
  tasks s = ts ++ [TGet c] →
  settled (done c) ts →
  accepted o res →
  0 ≤ n → 0 ≤ δ → 0 ≤ δ' →
  files s !! partial c = None →
  (∀ st, files s !! filename c = Some st → isFile st = true) →
  let a := clock s + δ + δ' in
  let m := a + effective_ttl o res * 1000 in
  run o (download (done c) res n δ δ') s
  = Some (emit (OCallback (done c) (Delivered (filename c) a m))
            (locker_unlock (filename c)
               (State (lockedFiles s) (<[filename c := Stats true n a m]> (files s)) a ts
                      (fresh s) (trace s ++ debugged o ("Upstream OK " +:+ url c))))).
Proof.
  intros Hts Hset Hacc Hn Hδ Hδ' Hpart Hfile a m. subst a m.
  destruct (stored (files s) (partial c) (filename c) n (clock s) (clock s + δ)
              (clock s + δ + δ') 0 (ErrorFacts.partial_ne c) Hpart Hfile)
    as (st & Hren & Hst1 & Hst2).
  unfold download. cbn [run].
  rewrite (FlowFacts.get_accepted o c s ts Hset res Hts Hacc).
  rewrite (FlowFacts.tick o δ _ Hδ). cbn [lockedFiles files clock tasks fresh trace].
  at_state ltac:(fun s2 =>
    step_with (FlowFacts.body_end o c s2 ts Hset res (timer_at o (clock s)) n eq_refl Hn)).
  at_state ltac:(fun s2 => step_with (FlowFacts.file_close o c s2 ts Hset res eq_refl)).
  rewrite (FlowFacts.tick o δ' _ Hδ'). cbn [lockedFiles files clock tasks fresh trace].
  at_state ltac:(fun s2 => step_with (FlowFacts.rename_done o c s2 ts Hset res eq_refl)).
  2: { cbn [files]. now rewrite Hren. }
  rewrite Hren. cbn [fst].
  at_state ltac:(fun s2 =>
    step_with (FlowFacts.utimes_done o c s2 ts Hset (clock s + δ + δ')
                 (clock s + δ + δ' + effective_ttl o res * 1000) st eq_refl)).
  2: { cbn [files]. apply lookup_insert_eq. }
  now rewrite insert_insert_eq, Hst1, Hst2.
Qed.

End DownloadFacts.

(** ** [fetch] and [purge], end to end *)

(** X4. A fetch of a URL whose lock is free and whose entry is fresh (a
    regular file, not empty, not yet expired when the [stat] completes)
    answers [(null, filename, atime, mtime)] with the two times of the file,
    after releasing the lock; it sends no request, and leaves the files, the
    lock table and the pending callbacks exactly as they were. *)
Theorem fetch_hit (o : options) (u : string) (s : state) (st : stats) (δ : Z) :
  lockedFiles s !! canonical o u = None →
  settled (fresh s) (tasks s) →
  files s !! canonical o u = Some st →
  isFile st = true → 0 < size st →
  0 ≤ δ → clock s + δ < mtime st →
  run o [EvFetch u; EvTick δ; EvStat (fresh s) None] s
  = Some (State (lockedFiles s) (files s) (clock s + δ) (tasks s) (S (fresh s))
                (trace s ++ [OProceed (ProceedFetch (call_of o u (fresh s)))]
                         ++ debugged o ("Filesystem hit " +:+ canonical o u)
                         ++ [OUnlock (canonical o u);
                             OCallback (fresh s)
                               (Delivered (canonical o u) (atime st) (mtime st))])).
Proof.
  intros Hfree Hset Hf Hfile Hsize Hδ Hm.
  cbn [run]. rewrite (FlowFacts.fetch_free o u s Hfree).
  rewrite (FlowFacts.tick o δ _ Hδ). cbn [lockedFiles files clock tasks fresh trace].
  match goal with
  | |- context [step o (EvStat _ None) ?s2] =>
      step_with (FlowFacts.stat_fresh o (call_of o u (fresh s)) s2 (tasks s) eq_refl Hset st Hf)
  end.
  - rewrite (FlowFacts.unlock_last _ _ (FileLocker.Entry (clock s) []));
      [| apply lookup_insert_eq | reflexivity].
    unfold emit. cbn [lockedFiles files clock tasks fresh trace].
    rewrite delete_insert_eq, (delete_id _ _ Hfree), <- !app_assoc. reflexivity.
  - unfold fresh_entry. rewrite Hfile.
    rewrite (proj2 (Z.ltb_lt _ _) Hsize), (proj2 (Z.ltb_lt _ _) Hm). reflexivity.
Qed.




(** X8. A failure is not shared with the waiters: when the fetch that holds
    the lock fails and a fetch of the same path is first in the queue, with
    nothing cached, the holder's caller gets the error, the lock passes to
    the waiter, and the waiter sends its own request upstream. *)
Theorem failure_is_retried (o : options) (s : state) (c w : fetch_call) (err : jserror)
    (ts : list task) (e : FileLocker.entry proceed) (q : list proceed) :
  tasks s = ts ++ [TUnlinkPart c err] →
  settled (done c) ts →
  settled (done w) ts →
  filename w = filename c →
  lockedFiles s !! filename c = Some e →
  FileLocker.onRelease e = ProceedFetch w :: q →
  files s !! filename c = None →
  run o [EvUnlinkPart (done c); EvStat (done w) None; EvMkdir (done w) None] s
  = Some (State (<[filename c := FileLocker.Entry (clock s) q]> (lockedFiles s))
                (Fs.mkdir (Fs.unlink (files s) (partial c)) (cachePath w) (clock s)).1
                (clock s) (ts ++ [TGet w]) (fresh s)
                (trace s ++ debugged o (message (surfaced c err))
                         ++ [OCallback (done c) (Failed (surfaced c err));
                             OUnlock (filename c);
                             OProceed (ProceedFetch w)]
                         ++ debugged o ("Filesystem miss " +:+ filename c)
                         ++ [ORequest (done w) (url w)])).
Proof.
  intros Hts Hc Hw Hsame He Hq Hf.
  cbn [run]. rewrite (FlowFacts.part_unlink o c s ts Hc err Hts).
  match goal with
  | |- context [locker_unlock _ ?s2] =>
      rewrite (FlowFacts.unlock_next (filename c) s2 e (ProceedFetch w) q He Hq)
  end.
  cbn [lockedFiles files clock tasks fresh trace started].
  at_state ltac:(fun s2 => step_with (FlowFacts.stat_absent o w s2 ts eq_refl Hw)).
  2: { rewrite Hsame, CleanupFacts.unlink_other by apply ErrorFacts.partial_ne. exact Hf. }
  at_state ltac:(fun s2 => step_with (FlowFacts.mkdir_done o w s2 ts eq_refl Hw)).
  rewrite Hsame, <- !app_assoc. reflexivity.
Qed.

(** ** Many callers, one request *)

Module HerdFacts.
Import PickFacts.

Lemma sent_app (l1 l2 : list obs) : sent (l1 ++ l2) = (sent l1 + sent l2)%nat.
Proof. unfold sent. now rewrite List.filter_app, length_app. Qed.

Lemma sent_debugged (o : options) (msg : string) : sent (debugged o msg) = 0%nat.
Proof. unfold debugged. now destruct (debug o). Qed.

(** Callers that find the lock held queue up in the order of their calls. *)
Lemma queue_up (o : options) (u : string) (n : nat) : ∀ (s : state) e,
  lockedFiles s !! canonical o u = Some e →
  run o (repeat (EvFetch u) n) s
  = Some (State (<[canonical o u :=
                     FileLocker.Entry (FileLocker.lastUpdated e)
                       (FileLocker.onRelease e ++ waiters o u (seq (fresh s) n))]>
                   (lockedFiles s))
                (files s) (clock s) (tasks s) (fresh s + n) (trace s)).
Proof.
  induction n as [|n IH]; intros s e He.
  - cbn [repeat run seq waiters map]. rewrite app_nil_r, Nat.add_0_r.
    destruct e as [lu q]. cbn [FileLocker.lastUpdated FileLocker.onRelease].
    rewrite insert_id by exact He. now destruct s.
  - cbn [repeat run]. rewrite (FlowFacts.fetch_held o u s e He).
    match goal with
    | |- context [run o _ ?s2] => rewrite (IH s2 _ (lookup_insert_eq _ _ _))
    end.
    cbn [lockedFiles files clock tasks fresh trace FileLocker.lastUpdated
         FileLocker.onRelease].
    rewrite insert_insert_eq, <- app_assoc. cbn [seq waiters map app].
    now rewrite Nat.add_succ_r.
Qed.

Lemma stats_shift (d n : nat) : ∀ j,
  map (λ i, EvStat (d + i)%nat None) (seq j n)
  = map (λ i, EvStat i None) (seq (d + j) n).
Proof.
  induction n as [|n IH]; intros j; [reflexivity |].
  cbn [seq map]. now rewrite IH, Nat.add_succ_r.
Qed.

Section Serve.
Variables (o : options) (u : string) (st : stats).
Let k := canonical o u.

(** The lock is released while the callers [ids] wait for it, in that order,
    and the entry is fresh: each is answered from the file system in turn. *)
Lemma serve_all (ids : list nat) : ∀ (s : state) (ob : obs) e,
  lockedFiles s !! k = Some e →
  FileLocker.onRelease e = waiters o u ids →
  files s !! k = Some st →
  fresh_entry (clock s) st = true →
  Forall (λ i, settled i (tasks s)) ids →
  NoDup ids →
  ∃ s', run o (map (λ i, EvStat i None) ids) (emit ob (locker_unlock k s)) = Some s'
        ∧ lockedFiles s' = delete k (lockedFiles s)
        ∧ files s' = files s ∧ clock s' = clock s ∧ tasks s' = tasks s
        ∧ fresh s' = fresh s
        ∧ sent (trace s') = sent (trace s ++ [ob])
        ∧ ∀ j, outcomes j (trace s')
               = outcomes j (trace s ++ [ob])
                 ++ if bool_decide (j ∈ ids)
                    then [Delivered k (atime st) (mtime st)] else [].
Proof.
  induction ids as [|i ids IH]; intros s ob e He Hq Hf Hfresh Hset Hnd.
  - rewrite (FlowFacts.unlock_last k s e He Hq). cbn [map run].
    eexists. split; [reflexivity |].
    unfold emit. cbn [lockedFiles files clock tasks fresh trace].
    repeat split.
    + rewrite <- app_assoc, !sent_app. reflexivity.
    + intros j. rewrite <- app_assoc, !outcomes_app. cbn [outcomes].
      rewrite bool_decide_eq_false_2 by apply not_elem_of_nil.
      now rewrite !app_nil_r.
  - rewrite (FlowFacts.unlock_next k s e (ProceedFetch (call_of o u i)) (waiters o u ids) He Hq).
    unfold emit at 1. cbn [lockedFiles files clock tasks fresh trace started map run].
    apply Forall_cons in Hset as [Hi Hset]. apply NoDup_cons in Hnd as [Hni Hnd].
    at_state ltac:(fun s2 =>
      step_with (FlowFacts.stat_fresh o (call_of o u i) s2 (tasks s) eq_refl Hi st Hf Hfresh)).
    match goal with
    | |- context [locker_unlock _ ?s2] =>
        destruct (IH s2 (OCallback i (Delivered k (atime st) (mtime st)))
                    (FileLocker.Entry (clock s) (waiters o u ids)))
          as (s' & Hrun & HL & HF & HC & HT & HN & Hsent & Hout)
    end; try assumption; try reflexivity.
    { cbn [lockedFiles]. apply lookup_insert_eq. }
    exists s'. split; [exact Hrun |].
    cbn [lockedFiles files clock tasks fresh trace] in *.
    rewrite delete_insert_eq in HL.
    repeat split; try assumption.
    + rewrite Hsent, !sent_app, sent_debugged. cbn. lia.
    + intros j. rewrite Hout, !outcomes_app, outcomes_debugged. cbn [outcomes].
      rewrite !app_nil_r.
      destruct (Nat.eqb_spec i j) as [->|Hij].
      * rewrite (bool_decide_eq_true_2 (j ∈ j :: ids)) by apply list_elem_of_here.
        rewrite (bool_decide_eq_false_2 (j ∈ ids)) by exact Hni.
        now rewrite <- !app_assoc.
      * rewrite (bool_decide_ext (j ∈ i :: ids) (j ∈ ids)).
        { now rewrite !app_nil_r. }
        rewrite elem_of_cons. split; [intros [->|H]; [contradiction | exact H] | now right].
Qed.

End Serve.

End HerdFacts.


(** ** Locks and answers at rest *)

Module RestFacts.

Lemma holders_witness (k : string) (ts : list task) :
  (0 < holders k ts)%nat → ∃ t, t ∈ ts ∧ live t = true ∧ task_file t = k.
Proof.
  unfold holders. induction ts as [|t ts IH]; simpl; [lia |].
  destruct (holds k t) eqn:Hh.
  - intros _. exists t. split; [apply list_elem_of_here |].
    unfold holds in Hh. apply andb_true_iff in Hh as [Hl Hk].
    apply bool_decide_eq_true in Hk. now split.
  - intros H. destruct (IH H) as (t' & Hin & Hl & Hk).
    exists t'. split; [now apply list_elem_of_further | now split].
Qed.

Lemma holders_quiescent (k : string) (ts : list task) :
  Forall (λ t, live t = false) ts → holders k ts = 0%nat.
Proof.
  unfold holders. induction 1 as [|t ts Ht _ IH]; [reflexivity |].
  simpl. unfold holds at 1. now rewrite Ht.
Qed.

Lemma pending_quiescent (d : nat) (ts : list task) :
  Forall (λ t, live t = false) ts → pending_of true d ts = 0%nat.
Proof.
  unfold pending_of. induction 1 as [|t ts Ht _ IH]; [reflexivity |].
  simpl. destruct t; simpl in *; try discriminate. exact IH.
Qed.

Lemma answered_all (d : nat) (tr : list obs) :
  answered true d tr = List.length (outcomes d tr).
Proof.
  unfold answered. f_equal.
  induction (outcomes d tr) as [|r l IH]; [reflexivity |].
  simpl. destruct r; simpl; now rewrite IH.
Qed.

Lemma unlocked_at_rest (o : options) (fs : gmap string stats) (now : Z)
    (es : list event) (s : state) :
  forallb well_behaved es = true →
  run o es (initial fs now) = Some s →
  quiescent s → lockedFiles s = ∅.
Proof.
  intros Hes Hrun Hq.
  pose proof (FlightFacts.single_flight_run o es _ _ Hes Hrun
                (FlightFacts.single_flight_initial fs now)) as Hsf.
  apply map_eq. intros k. rewrite lookup_empty.
  specialize (Hsf k). unfold guarded in Hsf.
  destruct (lockedFiles s !! k) as [e|]; [| reflexivity].
  destruct Hsf as [H1 _]. rewrite (holders_quiescent k _ Hq) in H1. discriminate.
Qed.

End RestFacts.

(** X10. No lock outlives its work.  In every execution of an instance in
    which no aborted response emits an error, every key in the lock table
    has a pending callback of its holder, the one that will release it; and
    when no callback is pending the lock table is empty. *)
Theorem locks_follow_work (o : options) (fs : gmap string stats) (now : Z)
    (es : list event) (s : state) :
  forallb well_behaved es = true →
  run o es (initial fs now) = Some s →
  (∀ k, is_Some (lockedFiles s !! k) →
        ∃ t, t ∈ tasks s ∧ live t = true ∧ task_file t = k)
  ∧ (quiescent s → lockedFiles s = ∅).
Proof.
  intros Hes Hrun. split.
  - intros k [e He].
    pose proof (FlightFacts.single_flight_run o es _ _ Hes Hrun
                  (FlightFacts.single_flight_initial fs now) k) as Hsf.
    unfold guarded in Hsf. rewrite He in Hsf. destruct Hsf as [H1 _].
    apply RestFacts.holders_witness. lia.
  - now apply (RestFacts.unlocked_at_rest o fs now es).
Qed.

(** X11. Every call is answered.  In every execution of an instance in which
    no aborted response emits an error, once no callback is pending every
    call of [fetch] and of [purge] made so far has had its callback invoked
    exactly once. *)
Theorem calls_answered_at_rest (o : options) (fs : gmap string stats) (now : Z)
    (es : list event) (s : state) (d : nat) :
  forallb well_behaved es = true →
  run o es (initial fs now) = Some s →
  quiescent s →
  (d < fresh s)%nat →
  List.length (outcomes d (trace s)) = 1%nat.
Proof.
  intros Hes Hrun Hq Hd.
  destruct (OnceFacts.accounted_run o true es _ _ (λ _, Hes) Hrun
              (OnceFacts.accounted_initial true fs now) d) as (_ & _ & Hone).
  specialize (Hone eq_refl Hd). unfold tokens in Hone.
  rewrite (RestFacts.pending_quiescent d _ Hq) in Hone.
  rewrite (RestFacts.unlocked_at_rest o fs now es s Hes Hrun Hq) in Hone.
  rewrite OnceFacts.queued_empty, RestFacts.answered_all in Hone. exact Hone.
Qed.

(** ** Nothing but the paths of the URLs *)

Module FrameFacts.
Import PickFacts.

Section Keyed.
Variable K : string → option fetch_call → Prop.

Lemma keyed_view s s' : same_view s s' → keyed K s → keyed K s'.
Proof. intros [HL HT]. unfold keyed. now rewrite HL, HT. Qed.

Lemma keyed_spawn t s :
  keyed K s → K (task_file t) (task_call t) → keyed K (spawn t s).
Proof.
  intros [HT HL] Ht. split; [| exact HL].
  cbn [tasks spawn set_tasks]. apply Forall_app. split; [exact HT | now constructor].
Qed.

Lemma keyed_picked {A : Type} (sel : task → option A) s a rest :
  pick sel (tasks s) = Some (a, rest) →
  keyed K s →
  keyed K (set_tasks rest s) ∧ ∃ t, sel t = Some a ∧ K (task_file t) (task_call t).
Proof.
  intros Hp [HT HL]. apply pick_some in Hp as (l1 & t & l2 & Ht & -> & Hs & _).
  rewrite Ht in HT. apply Forall_app in HT as [H1 H2]. inversion H2; subst.
  split; [| eauto]. split; [| exact HL].
  cbn [tasks set_tasks]. apply Forall_app. now split.
Qed.

Lemma started_key p :
  task_file (started p) = proceed_file p ∧ task_call (started p) = proceed_call p.
Proof. now destruct p. Qed.

Lemma keyed_unlock k s : keyed K s → keyed K (locker_unlock k s).
Proof.
  intros [HT HL]. unfold locker_unlock, FileLocker.unlock.
  destruct (lockedFiles s !! k) as [e|] eqn:He; [| now split].
  destruct (FileLocker.onRelease e) as [|p w] eqn:Hw.
  - split; [exact HT |]. cbn [lockedFiles set_locks emit].
    intros k' e' He'. apply lookup_delete_Some in He' as [_ He']. now apply (HL k').
  - pose proof (HL k e He) as Hq. rewrite Hw in Hq. inversion Hq; subst.
    unfold invoke. apply keyed_spawn.
    + split; [exact HT |]. cbn [lockedFiles set_locks emit].
      intros k' e' He'. apply lookup_insert_Some in He' as [[<- <-]|[_ He']];
        [assumption | now apply (HL k')].
    + destruct (started_key p) as [-> ->]. assumption.
Qed.

Lemma keyed_lock k p s :
  keyed K s → K (proceed_file p) (proceed_call p) → keyed K (locker_lock k p s).
Proof.
  intros [HT HL] Hp. unfold locker_lock, FileLocker.lock.
  destruct (lockedFiles s !! k) as [e|] eqn:He.
  - split; [exact HT |]. cbn [lockedFiles set_locks].
    intros k' e' He'. apply lookup_insert_Some in He' as [[<- <-]|[_ He']].
    + cbn [FileLocker.onRelease]. apply Forall_app. split; [now apply (HL k) | now constructor].
    + now apply (HL k').
  - unfold invoke. apply keyed_spawn.
    + split; [exact HT |]. cbn [lockedFiles set_locks emit].
      intros k' e' He'. apply lookup_insert_Some in He' as [[<- <-]|[_ He']];
        [constructor | now apply (HL k')].
    + destruct (started_key p) as [-> ->]. assumption.
Qed.

Lemma keyed_upstream_done o c r s : keyed K s → keyed K (upstream_done o c r s).
Proof.
  intros H. unfold upstream_done. destruct r as [err|[a m]].
  - apply keyed_unlock.
    apply (keyed_view _ _ (FlightFacts.view_emit _ _)).
    now apply (keyed_view _ _ (FlightFacts.view_debug_log _ _ _)).
  - apply (keyed_view _ _ (FlightFacts.view_emit _ _)).
    apply keyed_unlock.
    now apply (keyed_view _ _ (FlightFacts.view_debug_log _ _ _)).
Qed.

Lemma keyed_probe_done o c r s :
  K (filename c) (Some c) → keyed K s → keyed K (probe_done o c r s).
Proof.
  intros Hc H. unfold probe_done. destruct r as [a m|].
  - apply (keyed_view _ _ (FlightFacts.view_emit _ _)).
    apply keyed_unlock.
    now apply (keyed_view _ _ (FlightFacts.view_debug_log _ _ _)).
  - unfold fetchFromUpstream. apply keyed_spawn; [| exact Hc].
    apply (keyed_view _ _ (FlightFacts.view_emit _ _)).
    now apply (keyed_view _ _ (FlightFacts.view_debug_log _ _ _)).
Qed.

Lemma task_file_call t c : task_call t = Some c → task_file t = filename c.
Proof. destruct t; simpl; try discriminate; now intros [= <-]. Qed.

Lemma keyed_called {A : Type} (sel : task → option A) (call : A → fetch_call)
    s a rest :
  called sel call →
  pick sel (tasks s) = Some (a, rest) →
  keyed K s →
  keyed K (set_tasks rest s) ∧ K (filename (call a)) (Some (call a)).
Proof.
  intros Hsel Hp H.
  apply (keyed_picked sel _ _ _ Hp) in H as [H (t & Hs & Ht)].
  split; [exact H |]. pose proof (Hsel t a Hs) as Hc.
  now rewrite Hc, (task_file_call t _ Hc) in Ht.
Qed.

Ltac picked lem Hp H :=
  let Ht := fresh "Ht" in
  apply (keyed_called _ _ _ _ _ lem Hp) in H as [H Ht]; cbn [fst] in Ht.

Lemma keyed_step (o : options) (e : event) (s s' : state) :
  (∀ u n, e = EvFetch u → K (canonical o u) (Some (call_of o u n))) →
  (∀ u, e = EvPurge u → K (canonical o u) None) →
  step o e s = Some s' → keyed K s → keyed K s'.
Proof.
  intros Hfetch Hpurge Hstep H.
  destruct e as [δ|u|u|d f|d f|d err|d res|d n|d err|d|d err|d|d f|d f|d|d];
    cbn [step] in Hstep.
  - destruct (0 <=? δ); [| discriminate]. injection Hstep as <-. exact H.
  - injection Hstep as <-. unfold fetch. apply keyed_lock; [exact H |].
    now apply (Hfetch u (fresh s)).
  - injection Hstep as <-. unfold purge. apply keyed_lock; [exact H |].
    now apply (Hpurge u).
  - destruct (pick (sel_stat d) (tasks s)) as [[c rest]|] eqn:Hp; [| discriminate].
    picked (CallsFacts.called_stat d) Hp H.
    revert Hstep. unfold statted.
    destruct (match f with Some errcode => inl errcode | None => _ end) as [errcode|st].
    + destruct (String.eqb errcode "ENOENT"); intros [= <-].
      * apply keyed_spawn; [exact H | exact Ht].
      * apply (keyed_probe_done o c Miss); [exact Ht |].
        now apply (keyed_view _ _ (FlightFacts.view_emit _ _)).
    + destruct (_ && _); intros [= <-].
      * now apply (keyed_probe_done o c (Hit (atime st) (mtime st))).
      * apply (keyed_probe_done o c Miss); [exact Ht |].
        now apply (keyed_view _ _ (FlightFacts.view_debug_log _ _ _)).
  - destruct (pick (sel_mkdir d) (tasks s)) as [[c rest]|] eqn:Hp; [| discriminate].
    picked (CallsFacts.called_mkdir d) Hp H.
    destruct (faulty f (files s) _) as [fs' err]. injection Hstep as <-.
    apply (keyed_probe_done o c Miss); [exact Ht |]. unfold mkdired. cbn [fst].
    apply (keyed_view _ _ (FlightFacts.view_set_files fs' _)) in H.
    destruct err as [errcode|]; [| exact H].
    destruct (String.eqb errcode "EEXIST"); [exact H |].
    now apply (keyed_view _ _ (FlightFacts.view_emit _ _)).
  - destruct (pick (sel_get d) (tasks s)) as [[c rest]|] eqn:Hp; [| discriminate].
    picked (CallsFacts.called_get d) Hp H.
    injection Hstep as <-. apply keyed_spawn; [exact H | exact Ht].
  - destruct (pick (sel_get d) (tasks s)) as [[c rest]|] eqn:Hp; [| discriminate].
    picked (CallsFacts.called_get d) Hp H.
    injection Hstep as <-. unfold get_responded.
    destruct (negb _).
    { apply keyed_spawn; [| exact Ht].
      now apply (keyed_view _ _ (FlightFacts.view_emit _ _)). }
    destruct (_ && _).
    { apply keyed_spawn; [| exact Ht].
      now apply (keyed_view _ _ (FlightFacts.view_emit _ _)). }
    apply keyed_spawn; [| exact Ht].
    now apply (keyed_view _ _ (FlightFacts.view_set_files _ _)).
  - destruct (pick (sel_body d) (tasks s)) as [[[c res] rest]|] eqn:Hp; [| discriminate].
    picked (CallsFacts.called_body d) Hp H.
    destruct (0 <=? n); [| discriminate]. injection Hstep as <-.
    apply keyed_spawn; [| exact Ht].
    now apply (keyed_view _ _ (FlightFacts.view_set_files _ _)).
  - destruct (pick (sel_body d) (tasks s)) as [[[c res] rest]|] eqn:Hp; [| discriminate].
    picked (CallsFacts.called_body d) Hp H.
    injection Hstep as <-. apply keyed_spawn; [exact H | exact Ht].
  - destruct (pick (sel_timer (clock s) d) (tasks s)) as [[c rest]|] eqn:Hp; [| discriminate].
    picked (CallsFacts.called_timer (clock s) d) Hp H.
    injection Hstep as <-. unfold timed_out.
    apply keyed_spawn; [| exact Ht].
    apply keyed_spawn; [| exact Ht].
    now apply (keyed_view _ _ (FlightFacts.view_emit _ _)).
  - destruct (pick (sel_aborted d) (tasks s)) as [[c rest]|] eqn:Hp; [| discriminate].
    picked (CallsFacts.called_aborted d) Hp H.
    injection Hstep as <-. apply keyed_spawn; [exact H | exact Ht].
  - destruct (pick (sel_close d) (tasks s)) as [[[c res] rest]|] eqn:Hp; [| discriminate].
    picked (CallsFacts.called_close d) Hp H.
    injection Hstep as <-. apply keyed_spawn; [exact H | exact Ht].
  - destruct (pick (sel_rename d) (tasks s)) as [[[c res] rest]|] eqn:Hp; [| discriminate].
    picked (CallsFacts.called_rename d) Hp H.
    destruct (faulty f (files s) _) as [fs' err]. injection Hstep as <-.
    apply (keyed_view _ _ (FlightFacts.view_set_files fs' _)) in H.
    unfold renamed. destruct err as [errcode|];
      (apply keyed_spawn; [exact H | exact Ht]).
  - destruct (pick (sel_utimes d) (tasks s)) as [[[c [a m]] rest]|] eqn:Hp; [| discriminate].
    picked (CallsFacts.called_utimes d) Hp H.
    destruct (faulty f (files s) _) as [fs' err]. injection Hstep as <-.
    apply (keyed_view _ _ (FlightFacts.view_set_files fs' _)) in H.
    unfold stamped. destruct err as [errcode|].
    + apply keyed_spawn; [exact H | exact Ht].
    + now apply keyed_upstream_done.
  - destruct (pick (sel_unlink d) (tasks s)) as [[[c err] rest]|] eqn:Hp; [| discriminate].
    picked (CallsFacts.called_unlink d) Hp H.
    injection Hstep as <-. unfold part_unlinked.
    apply keyed_upstream_done.
    now apply (keyed_view _ _ (FlightFacts.view_set_files _ _)).
  - destruct (pick (sel_purge d) (tasks s)) as [[file rest]|] eqn:Hp; [| discriminate].
    apply (keyed_picked _ _ _ _ Hp) in H as [H _].
    injection Hstep as <-. unfold purge_unlinked.
    apply (keyed_view _ _ (FlightFacts.view_emit _ _)).
    apply keyed_unlock.
    now apply (keyed_view _ _ (FlightFacts.view_set_files _ _)).
Qed.

End Keyed.

Lemma keyed_initial K fs now : keyed K (initial fs now).
Proof. split; [constructor |]. intros k e. simpl. now rewrite lookup_empty. Qed.

(** What the file-system calls do elsewhere. *)

Lemma mkdir_other fs p k now : p ≠ k → (Fs.mkdir fs p now).1 !! k = fs !! k.
Proof.
  intros Hne. unfold Fs.mkdir. destruct (fs !! p); [reflexivity |].
  cbn [fst]. now rewrite lookup_insert_ne.
Qed.

Lemma rename_other fs from to k :
  from ≠ k → to ≠ k → (Fs.rename fs from to).1 !! k = fs !! k.
Proof.
  intros H1 H2. unfold Fs.rename. destruct (fs !! from) as [st|]; [| reflexivity].
  assert (H : (<[to := st]> (delete from fs)) !! k = fs !! k).
  { now rewrite lookup_insert_ne, lookup_delete_ne. }
  destruct (fs !! to) as [st'|]; [| exact H].
  destruct (isFile st && negb (isFile st')); [reflexivity |].
  destruct (negb (isFile st) && isFile st'); [reflexivity | exact H].
Qed.

Lemma utimes_other fs p k a m : p ≠ k → (Fs.utimes fs p a m).1 !! k = fs !! k.
Proof.
  intros Hne. unfold Fs.utimes. destruct (fs !! p); [| reflexivity].
  cbn [fst]. now rewrite lookup_insert_ne.
Qed.

Lemma faulty_other fault fs (op : gmap string stats * option string) k :
  op.1 !! k = fs !! k → (faulty (A:=unit) fault fs op).1 !! k = fs !! k.
Proof. intros H. unfold faulty. now destruct fault. Qed.

Lemma files_probe_done o c r s : files (probe_done o c r s) = files s.
Proof.
  unfold probe_done. destruct r as [a m|].
  - cbn [files emit]. now rewrite StepFacts.files_locker_unlock, StepFacts.files_debug_log.
  - unfold fetchFromUpstream. cbn [files spawn set_tasks emit].
    apply StepFacts.files_debug_log.
Qed.

Lemma files_upstream_done o c r s : files (upstream_done o c r s) = files s.
Proof.
  unfold upstream_done. destruct r as [err|[a m]].
  - rewrite StepFacts.files_locker_unlock. cbn [files emit].
    apply StepFacts.files_debug_log.
  - cbn [files emit]. now rewrite StepFacts.files_locker_unlock, StepFacts.files_debug_log.
Qed.

Lemma files_locker_lock k p s : files (locker_lock k p s) = files s.
Proof.
  unfold locker_lock, FileLocker.lock.
  destruct (lockedFiles s !! k); [reflexivity | now destruct p].
Qed.

Ltac picked_key K lem Hp H :=
  let Ht := fresh "Ht" in
  let HH := fresh "HH" in
  pose proof (keyed_called K _ _ _ _ _ lem Hp H) as HH; clear H;
  destruct HH as [H Ht]; cbn [fst] in Ht; cbv beta in Ht.

Section Frame.
Variables (o : options) (U : string → Prop) (p : string).
Hypothesis Hp : ∀ u, U u → ¬ path_of o u p.

Lemma owned_paths (c : fetch_call) :
  owned o U (filename c) (Some c) →
  filename c ≠ p ∧ partial c ≠ p ∧ cachePath c ≠ p.
Proof.
  intros (u & Hu & Hf & Hc). destruct (Hc c eq_refl) as [_ Hdir].
  specialize (Hp u Hu). unfold path_of in Hp. unfold partial.
  rewrite Hf, Hdir. repeat split; intros <-; apply Hp; auto.
Qed.

(** A step changes nothing at a path that belongs to no URL in use. *)
Lemma files_step (e : event) (s s' : state) :
  keyed (owned o U) s → step o e s = Some s' → files s' !! p = files s !! p.
Proof.
  intros H Hstep.
  destruct e as [δ|u|u|d f|d f|d err|d res|d n|d err|d|d err|d|d f|d f|d|d];
    cbn [step] in Hstep.
  - destruct (0 <=? δ); [| discriminate]. now (apply (inj Some) in Hstep; subst s').
  - cbv beta iota zeta in Hstep; apply (inj Some) in Hstep; subst s'. unfold fetch. now rewrite files_locker_lock.
  - cbv beta iota zeta in Hstep; apply (inj Some) in Hstep; subst s'. unfold purge. now rewrite files_locker_lock.
  - destruct (pick (sel_stat d) (tasks s)) as [[c rest]|] eqn:Hpick; [| discriminate].
    revert Hstep. unfold statted.
    destruct (match f with Some errcode => inl errcode | None => _ end) as [errcode|st].
    + destruct (String.eqb errcode "ENOENT"); intros Hs';
        apply (inj Some) in Hs'; subst s'; cbv beta iota zeta; [reflexivity |].
      now rewrite files_probe_done.
    + destruct (_ && _); intros Hs';
        apply (inj Some) in Hs'; subst s'; cbv beta iota zeta; rewrite files_probe_done;
        [reflexivity | now rewrite StepFacts.files_debug_log].
  - destruct (pick (sel_mkdir d) (tasks s)) as [[c rest]|] eqn:Hpick; [| discriminate].
    picked_key (owned o U) (CallsFacts.called_mkdir d) Hpick H.
    destruct (owned_paths c Ht) as (_ & _ & Hdir).
    pose proof (faulty_other f (files s) _ p (mkdir_other (files s) _ p (clock s) Hdir)) as Hfs.
    destruct (faulty f (files s) _) as [fs' err]. unfold mkdired in Hstep.
    cbv beta iota zeta in Hstep; apply (inj Some) in Hstep; subst s'.
    rewrite files_probe_done. cbn [fst] in *.
    destruct err as [errcode|]; [| exact Hfs].
    destruct (String.eqb errcode "EEXIST"); exact Hfs.
  - destruct (pick (sel_get d) (tasks s)) as [[c rest]|] eqn:Hpick; [| discriminate].
    now (apply (inj Some) in Hstep; subst s').
  - destruct (pick (sel_get d) (tasks s)) as [[c rest]|] eqn:Hpick; [| discriminate].
    picked_key (owned o U) (CallsFacts.called_get d) Hpick H.
    destruct (owned_paths c Ht) as (_ & Hpart & _).
    cbv beta iota zeta in Hstep; apply (inj Some) in Hstep; subst s'. unfold get_responded.
    destruct (negb _); [reflexivity |]. destruct (_ && _); [reflexivity |].
    cbn [files spawn set_tasks set_files]. now apply CleanupFacts.create_other.
  - destruct (pick (sel_body d) (tasks s)) as [[[c res] rest]|] eqn:Hpick; [| discriminate].
    picked_key (owned o U) (CallsFacts.called_body d) Hpick H.
    destruct (owned_paths c Ht) as (_ & Hpart & _).
    destruct (0 <=? n); [| discriminate]. cbv beta iota zeta in Hstep; apply (inj Some) in Hstep; subst s'.
    unfold body_ended. cbn [files spawn set_tasks set_files].
    now apply CleanupFacts.written_other.
  - destruct (pick (sel_body d) (tasks s)) as [[[c res] rest]|] eqn:Hpick; [| discriminate].
    now (apply (inj Some) in Hstep; subst s').
  - destruct (pick (sel_timer (clock s) d) (tasks s)) as [[c rest]|] eqn:Hpick;
      [| discriminate].
    now (apply (inj Some) in Hstep; subst s').
  - destruct (pick (sel_aborted d) (tasks s)) as [[c rest]|] eqn:Hpick; [| discriminate].
    now (apply (inj Some) in Hstep; subst s').
  - destruct (pick (sel_close d) (tasks s)) as [[[c res] rest]|] eqn:Hpick; [| discriminate].
    now (apply (inj Some) in Hstep; subst s').
  - destruct (pick (sel_rename d) (tasks s)) as [[[c res] rest]|] eqn:Hpick; [| discriminate].
    picked_key (owned o U) (CallsFacts.called_rename d) Hpick H.
    destruct (owned_paths c Ht) as (Hfile & Hpart & _).
    pose proof (faulty_other f (files s) _ p
                  (rename_other (files s) _ _ p Hpart Hfile)) as Hfs.
    destruct (faulty f (files s) _) as [fs' err]. cbv beta iota zeta in Hstep; apply (inj Some) in Hstep; subst s'.
    unfold renamed. cbn [fst] in Hfs. now destruct err.
  - destruct (pick (sel_utimes d) (tasks s)) as [[[c [a m]] rest]|] eqn:Hpick;
      [| discriminate].
    picked_key (owned o U) (CallsFacts.called_utimes d) Hpick H.
    destruct (owned_paths c Ht) as (Hfile & _ & _).
    pose proof (faulty_other f (files s) _ p
                  (utimes_other (files s) _ p a m Hfile)) as Hfs.
    destruct (faulty f (files s) _) as [fs' err]. cbv beta iota zeta in Hstep; apply (inj Some) in Hstep; subst s'.
    unfold stamped. cbn [fst] in Hfs. destruct err; [exact Hfs |].
    now rewrite files_upstream_done.
  - destruct (pick (sel_unlink d) (tasks s)) as [[[c err] rest]|] eqn:Hpick; [| discriminate].
    picked_key (owned o U) (CallsFacts.called_unlink d) Hpick H.
    destruct (owned_paths c Ht) as (_ & Hpart & _).
    cbv beta iota zeta in Hstep; apply (inj Some) in Hstep; subst s'. unfold part_unlinked. rewrite files_upstream_done.
    cbn [files set_files set_tasks]. now apply CleanupFacts.unlink_other.
  - destruct (pick (sel_purge d) (tasks s)) as [[file rest]|] eqn:Hpick; [| discriminate].
    destruct (keyed_picked _ _ _ _ _ Hpick H) as [_ (t & Hs & Ht)].
    assert (Hfile : file ≠ p).
    { destruct t; simpl in Hs; try discriminate.
      destruct (Nat.eqb _ _); [| discriminate]. injection Hs as <-.
      destruct Ht as (u & Hu & Hf & _). simpl in Hf. rewrite Hf.
      intros <-. apply (Hp u Hu). now left. }
    cbv beta iota zeta in Hstep; apply (inj Some) in Hstep; subst s'. unfold purge_unlinked. cbn [files emit].
    rewrite StepFacts.files_locker_unlock. cbn [files set_files set_tasks].
    now apply CleanupFacts.unlink_other.
Qed.

End Frame.

Lemma owned_fetch o (U : string → Prop) u n :
  U u → owned o U (canonical o u) (Some (call_of o u n)).
Proof.
  intros Hu. exists u. split; [exact Hu |]. split; [reflexivity |].
  now intros c' [= <-].
Qed.

Lemma owned_purge o (U : string → Prop) u : U u → owned o U (canonical o u) None.
Proof. intros Hu. exists u. split; [exact Hu |]. split; [reflexivity | discriminate]. Qed.

Lemma frame_run (o : options) (U : string → Prop) (p : string) (es : list event) :
  (∀ u, U u → ¬ path_of o u p) →
  (∀ u, called_for es u → U u) →
  ∀ s s', run o es s = Some s' → keyed (owned o U) s →
          keyed (owned o U) s' ∧ files s' !! p = files s !! p.
Proof.
  intros Hp. induction es as [|e es IH]; intros HU s s' Hrun H; simpl in Hrun.
  - injection Hrun as <-. now split.
  - destruct (step o e s) as [s1|] eqn:Hstep; [| discriminate].
    assert (H1 : keyed (owned o U) s1).
    { apply (keyed_step _ o e s s1); [| | exact Hstep | exact H].
      - intros u n ->. apply owned_fetch, HU. left. apply list_elem_of_here.
      - intros u ->. apply owned_purge, HU. right. apply list_elem_of_here. }
    destruct (IH (λ u Hu, HU u match Hu with
                                | or_introl H => or_introl (list_elem_of_further _ _ _ H)
                                | or_intror H => or_intror (list_elem_of_further _ _ _ H)
                                end) s1 s' Hrun H1) as [H' Hfs].
    split; [exact H' |]. rewrite Hfs. now apply (files_step o U p Hp e s).
Qed.

End FrameFacts.


(** ** One request per fetch, at most *)

Module BudgetFacts.
Import PickFacts.

Section Budget.
Variable R : nat → string → bool.

Lemma bump (b : bool) (l : list task) (t : task) :
  List.length (if b then t :: l else l) = ((if b then 1 else 0) + List.length l)%nat.
Proof. now destruct b. Qed.

Lemma probes_app (l1 l2 : list task) :
  probes R (l1 ++ l2) = (probes R l1 + probes R l2)%nat.
Proof. unfold probes. now rewrite List.filter_app, length_app. Qed.

Lemma probes_one (t : task) : probes R [t] = if probing R t then 1%nat else 0%nat.
Proof. unfold probes. simpl. now destruct (probing R t). Qed.

Lemma requests_app (l1 l2 : list obs) :
  requests_of R (l1 ++ l2) = (requests_of R l1 + requests_of R l2)%nat.
Proof. unfold requests_of. now rewrite List.filter_app, length_app. Qed.

Lemma asks_comm (j1 j2 : string) (z1 z2 : FileLocker.entry proceed) (y : nat) :
  (asks_in R z1 + (asks_in R z2 + y) = asks_in R z2 + (asks_in R z1 + y))%nat.
Proof. lia. Qed.

Lemma asks_delete (locks : gmap string (FileLocker.entry proceed)) k e :
  locks !! k = Some e → asks R locks = (asks_in R e + asks R (delete k locks))%nat.
Proof.
  intros He. unfold asks.
  apply (map_fold_delete_L (λ _ e n, (asks_in R e + n)%nat)); [| exact He].
  intros. apply asks_comm; assumption.
Qed.

Lemma asks_insert (locks : gmap string (FileLocker.entry proceed)) k e :
  locks !! k = None → asks R (<[k := e]> locks) = (asks_in R e + asks R locks)%nat.
Proof.
  intros He. unfold asks.
  apply (map_fold_insert_L (λ _ e n, (asks_in R e + n)%nat)); [| exact He].
  intros. apply asks_comm; assumption.
Qed.

Lemma asks_update (locks : gmap string (FileLocker.entry proceed)) k e e' :
  locks !! k = Some e →
  (asks R (<[k := e']> locks) + asks_in R e = asks R locks + asks_in R e')%nat.
Proof.
  intros He. rewrite <- (insert_delete_eq locks k e').
  rewrite asks_insert by apply lookup_delete_eq.
  rewrite (asks_delete locks k e He). lia.
Qed.

Lemma asks_empty : asks R ∅ = 0%nat.
Proof. unfold asks. apply map_fold_empty. Qed.

Lemma probing_started p : probing R (started p) = asking R p.
Proof. now destruct p. Qed.

(** The effect of each primitive on the budget. *)

Lemma budget_emit ob s :
  budget R (emit ob s)
  = (budget R s + requests_of R [ob])%nat.
Proof.
  unfold budget. cbn [tasks lockedFiles trace emit]. rewrite requests_app. lia.
Qed.

Lemma budget_log msg s : budget R (log msg s) = budget R s.
Proof. unfold log. rewrite budget_emit. unfold requests_of. simpl. lia. Qed.

Lemma budget_debug_log o msg s : budget R (debug_log o msg s) = budget R s.
Proof. unfold debug_log. destruct (debug o); [apply budget_log | reflexivity]. Qed.

Lemma budget_spawn t s :
  budget R (spawn t s) = (budget R s + if probing R t then 1 else 0)%nat.
Proof.
  unfold budget. cbn [tasks lockedFiles trace spawn set_tasks].
  rewrite probes_app, probes_one. lia.
Qed.

Lemma budget_set_files fs s : budget R (set_files fs s) = budget R s.
Proof. reflexivity. Qed.

Lemma budget_invoke p s :
  budget R (invoke p s) = (budget R s + if asking R p then 1 else 0)%nat.
Proof.
  unfold invoke. rewrite budget_spawn, budget_emit, probing_started.
  unfold requests_of. simpl. lia.
Qed.

Lemma budget_unlock k s : budget R (locker_unlock k s) = budget R s.
Proof.
  unfold locker_unlock, FileLocker.unlock.
  destruct (lockedFiles s !! k) as [e|] eqn:He.
  - destruct (FileLocker.onRelease e) as [|p w] eqn:Hw.
    + rewrite budget_emit. unfold requests_of at 1. simpl.
      unfold budget. cbn [tasks lockedFiles trace set_locks].
      rewrite (asks_delete (lockedFiles s) k e He).
      unfold asks_in. rewrite Hw. simpl. lia.
    + rewrite budget_invoke, budget_emit. unfold requests_of at 1. simpl.
      unfold budget. cbn [tasks lockedFiles trace set_locks].
      pose proof (asks_update (lockedFiles s) k e (FileLocker.Entry (clock s) w) He) as Hq.
      unfold asks_in in Hq at 1 2. rewrite Hw in Hq. cbn [FileLocker.onRelease] in Hq.
      simpl in Hq. destruct (asking R p); simpl in Hq; lia.
  - rewrite budget_emit. unfold requests_of at 1. simpl.
    unfold budget. cbn [tasks lockedFiles trace set_locks]. lia.
Qed.

Lemma budget_lock k p s :
  budget R (locker_lock k p s) = (budget R s + if asking R p then 1 else 0)%nat.
Proof.
  unfold locker_lock, FileLocker.lock.
  destruct (lockedFiles s !! k) as [e|] eqn:He.
  - unfold budget. cbn [tasks lockedFiles trace set_locks].
    pose proof (asks_update (lockedFiles s) k e
                  (FileLocker.Entry (FileLocker.lastUpdated e)
                                    (FileLocker.onRelease e ++ [p])) He) as Hq.
    unfold asks_in in Hq at 1 2. cbn [FileLocker.onRelease] in Hq.
    rewrite List.filter_app, length_app in Hq. simpl in Hq.
    destruct (asking R p); simpl in Hq; lia.
  - rewrite budget_invoke. unfold budget. cbn [tasks lockedFiles trace set_locks].
    rewrite (asks_insert (lockedFiles s) k _ He). unfold asks_in. simpl. lia.
Qed.

(** Taking a callback off the pending list. *)
Lemma budget_picked {A : Type} (sel : task → option A) s a rest :
  pick sel (tasks s) = Some (a, rest) →
  ∃ t, sel t = Some a
       ∧ budget R s = (budget R (set_tasks rest s) + if probing R t then 1 else 0)%nat.
Proof.
  intros Hp. apply pick_some in Hp as (l1 & t & l2 & Ht & -> & Hs & _).
  exists t. split; [exact Hs |].
  unfold budget. cbn [tasks lockedFiles trace set_tasks].
  rewrite Ht. change (t :: l2) with ([t] ++ l2). rewrite !probes_app, probes_one. lia.
Qed.

Lemma budget_upstream_done o c r s : budget R (upstream_done o c r s) = budget R s.
Proof.
  unfold upstream_done. destruct r as [err|[a m]].
  - rewrite budget_unlock, budget_emit, budget_debug_log. unfold requests_of. simpl. lia.
  - rewrite budget_emit, budget_unlock, budget_debug_log. unfold requests_of. simpl. lia.
Qed.

Lemma budget_probe_done o c r s :
  (budget R (probe_done o c r s) ≤ budget R s + if counts R c then 1 else 0)%nat.
Proof.
  unfold probe_done. destruct r as [a m|].
  - rewrite budget_emit, budget_unlock, budget_debug_log. unfold requests_of. simpl. lia.
  - unfold fetchFromUpstream.
    rewrite budget_spawn, budget_emit, budget_debug_log.
    unfold requests_of. simpl. fold (counts R c). destruct (counts R c); simpl; lia.
Qed.

Lemma budget_onError c err s : budget R (onError c err s) = budget R s.
Proof. unfold onError. rewrite budget_spawn. simpl. lia. Qed.

Ltac not_probing Hs :=
  match type of Hs with
  | _ ?t = Some _ =>
      destruct t; simpl in Hs; try discriminate; cbn [probing]
  end.

(** A step adds to the budget only by a counted call of [fetch]. *)
Lemma budget_step (o : options) (e : event) (s s' : state) :
  step o e s = Some s' →
  (budget R s' ≤ budget R s + fetches R (fresh s) [e])%nat.
Proof.
  intros Hstep.
  destruct e as [δ|u|u|n f|n f|n err|n res|n sz|n err|n|n err|n|n f|n f|n|n];
    cbn [step] in Hstep; cbn [fetches].
  - destruct (0 <=? δ); [| discriminate]. apply (inj Some) in Hstep. subst s'.
    unfold budget. cbn [tasks lockedFiles trace]. lia.
  - apply (inj Some) in Hstep. subst s'. unfold fetch. rewrite budget_lock.
    cbn [asking]. unfold counts. cbn [done url]. unfold budget.
    cbn [tasks lockedFiles trace]. lia.
  - apply (inj Some) in Hstep. subst s'. unfold purge. rewrite budget_lock.
    cbn [asking]. unfold budget. cbn [tasks lockedFiles trace]. lia.
  - destruct (pick (sel_stat n) (tasks s)) as [[c rest]|] eqn:Hp; [| discriminate].
    destruct (budget_picked _ _ _ _ Hp) as (t & Hs & ->).
    assert (Ht : t = TStat c).
    { destruct t; simpl in Hs; try discriminate.
      now apply for_call_inv in Hs as [-> _]. }
    subst t. cbn [probing].
    revert Hstep. unfold statted.
    destruct (match f with Some errcode => inl errcode | None => _ end) as [errcode|st].
    + destruct (String.eqb errcode "ENOENT"); intros Hs';
        apply (inj Some) in Hs'; subst s'; cbv beta iota zeta.
      * rewrite budget_spawn. cbn [probing]. lia.
      * pose proof (budget_probe_done o c Miss
                      (log ("Could not stat " +:+ filename c +:+ " " +:+ errcode)
                           (set_tasks rest s))) as Hle.
        rewrite budget_log in Hle. lia.
    + destruct (_ && _); intros Hs';
        apply (inj Some) in Hs'; subst s'; cbv beta iota zeta.
      * pose proof (budget_probe_done o c (Hit (atime st) (mtime st)) (set_tasks rest s)).
        lia.
      * pose proof (budget_probe_done o c Miss
                      (debug_log o ("Cached file " +:+ filename c +:+ " expired")
                                 (set_tasks rest s))) as Hle.
        rewrite budget_debug_log in Hle. lia.
  - destruct (pick (sel_mkdir n) (tasks s)) as [[c rest]|] eqn:Hp; [| discriminate].
    destruct (budget_picked _ _ _ _ Hp) as (t & Hs & ->).
    assert (Ht : t = TMkdir c).
    { destruct t; simpl in Hs; try discriminate.
      now apply for_call_inv in Hs as [-> _]. }
    subst t. cbn [probing].
    destruct (faulty f (files s) _) as [fs' err]. unfold mkdired in Hstep.
    cbv beta iota zeta in Hstep. apply (inj Some) in Hstep. subst s'.
    match goal with
    | |- (budget R (probe_done o c Miss ?s1) ≤ _)%nat =>
        pose proof (budget_probe_done o c Miss s1) as Hle;
        assert (Hs1 : budget R s1 = budget R (set_tasks rest s))
    end.
    { destruct err as [errcode|]; [| reflexivity].
      destruct (String.eqb errcode "EEXIST"); [reflexivity |].
      now rewrite budget_log. }
    lia.
  - destruct (pick (sel_get n) (tasks s)) as [[c rest]|] eqn:Hp; [| discriminate].
    destruct (budget_picked _ _ _ _ Hp) as (t & Hs & ->). not_probing Hs.
    apply (inj Some) in Hstep. subst s'. unfold get_failed. rewrite budget_onError. lia.
  - destruct (pick (sel_get n) (tasks s)) as [[c rest]|] eqn:Hp; [| discriminate].
    destruct (budget_picked _ _ _ _ Hp) as (t & Hs & ->). not_probing Hs.
    apply (inj Some) in Hstep. subst s'. unfold get_responded.
    destruct (negb _).
    { rewrite budget_onError, budget_emit. unfold requests_of. simpl. lia. }
    destruct (_ && _).
    { rewrite budget_onError, budget_emit. unfold requests_of. simpl. lia. }
    rewrite budget_spawn, budget_set_files. cbn [probing]. lia.
  - destruct (pick (sel_body n) (tasks s)) as [[[c res] rest]|] eqn:Hp; [| discriminate].
    destruct (budget_picked _ _ _ _ Hp) as (t & Hs & ->). not_probing Hs.
    destruct (0 <=? sz); [| discriminate]. apply (inj Some) in Hstep. subst s'.
    unfold body_ended. rewrite budget_spawn, budget_set_files. cbn [probing]. lia.
  - destruct (pick (sel_body n) (tasks s)) as [[[c res] rest]|] eqn:Hp; [| discriminate].
    destruct (budget_picked _ _ _ _ Hp) as (t & Hs & ->). not_probing Hs.
    apply (inj Some) in Hstep. subst s'. unfold body_failed. rewrite budget_onError. lia.
  - destruct (pick (sel_timer (clock s) n) (tasks s)) as [[c rest]|] eqn:Hp; [| discriminate].
    destruct (budget_picked _ _ _ _ Hp) as (t & Hs & ->). not_probing Hs.
    apply (inj Some) in Hstep. subst s'. unfold timed_out.
    rewrite budget_spawn, budget_onError, budget_emit. cbn [probing].
    unfold requests_of. simpl. lia.
  - destruct (pick (sel_aborted n) (tasks s)) as [[c rest]|] eqn:Hp; [| discriminate].
    destruct (budget_picked _ _ _ _ Hp) as (t & Hs & ->). not_probing Hs.
    apply (inj Some) in Hstep. subst s'. unfold body_failed. rewrite budget_onError. lia.
  - destruct (pick (sel_close n) (tasks s)) as [[[c res] rest]|] eqn:Hp; [| discriminate].
    destruct (budget_picked _ _ _ _ Hp) as (t & Hs & ->). not_probing Hs.
    apply (inj Some) in Hstep. subst s'. unfold file_closed.
    rewrite budget_spawn. cbn [probing]. lia.
  - destruct (pick (sel_rename n) (tasks s)) as [[[c res] rest]|] eqn:Hp; [| discriminate].
    destruct (budget_picked _ _ _ _ Hp) as (t & Hs & ->). not_probing Hs.
    destruct (faulty f (files s) _) as [fs' err].
    cbv beta iota zeta in Hstep. apply (inj Some) in Hstep. subst s'.
    unfold renamed. destruct err as [errcode|].
    + rewrite budget_onError, budget_set_files. lia.
    + rewrite budget_spawn, budget_set_files. cbn [probing]. lia.
  - destruct (pick (sel_utimes n) (tasks s)) as [[[c [a m]] rest]|] eqn:Hp; [| discriminate].
    destruct (budget_picked _ _ _ _ Hp) as (t & Hs & ->). not_probing Hs.
    destruct (faulty f (files s) _) as [fs' err].
    cbv beta iota zeta in Hstep. apply (inj Some) in Hstep. subst s'.
    unfold stamped. destruct err as [errcode|].
    + rewrite budget_onError, budget_set_files. lia.
    + rewrite budget_upstream_done, budget_set_files. lia.
  - destruct (pick (sel_unlink n) (tasks s)) as [[[c err] rest]|] eqn:Hp; [| discriminate].
    destruct (budget_picked _ _ _ _ Hp) as (t & Hs & ->). not_probing Hs.
    apply (inj Some) in Hstep. subst s'. unfold part_unlinked.
    rewrite budget_upstream_done, budget_set_files. lia.
  - destruct (pick (sel_purge n) (tasks s)) as [[file rest]|] eqn:Hp; [| discriminate].
    destruct (budget_picked _ _ _ _ Hp) as (t & Hs & ->). not_probing Hs.
    apply (inj Some) in Hstep. subst s'. unfold purge_unlinked.
    rewrite budget_emit, budget_unlock, budget_set_files. unfold requests_of. simpl. lia.
Qed.

Lemma fetches_cons (n : nat) (e : event) (es : list event) :
  fetches R n (e :: es)
  = (fetches R n [e]
     + fetches R (match e with EvFetch _ | EvPurge _ => S n | _ => n end) es)%nat.
Proof. destruct e; cbn [fetches]; lia. Qed.

Lemma budget_run (o : options) (es : list event) : ∀ s s',
  run o es s = Some s' →
  (budget R s' ≤ budget R s + fetches R (fresh s) es)%nat.
Proof.
  induction es as [|e es IH]; intros s s' Hrun; simpl in Hrun.
  - injection Hrun as <-. cbn [fetches]. lia.
  - destruct (step o e s) as [s1|] eqn:Hstep; [| discriminate].
    specialize (IH s1 s' Hrun).
    pose proof (budget_step o e s s1 Hstep) as H1.
    rewrite (OnceFacts.fresh_step o e s s1 Hstep) in IH.
    rewrite fetches_cons. lia.
Qed.

Lemma requests_bound (o : options) (fs : gmap string stats) (now : Z)
    (es : list event) (s : state) :
  run o es (initial fs now) = Some s →
  (requests_of R (trace s) ≤ fetches R 0 es)%nat.
Proof.
  intros Hrun. pose proof (budget_run o es _ _ Hrun) as H.
  unfold budget in H. cbn [initial tasks lockedFiles trace fresh] in H.
  rewrite asks_empty in H. unfold probes in H. cbn [List.filter List.length] in H.
  change (requests_of R []) with 0%nat in H. lia.
Qed.

End Budget.

(** One name, one call. *)
Lemma fetches_name (d : nat) (es : list event) : ∀ n,
  (fetches (λ d' _, Nat.eqb d' d) n es ≤ if Nat.leb n d then 1 else 0)%nat.
Proof.
  induction es as [|e es IH]; intros n; [cbn [fetches]; destruct (Nat.leb n d); lia |].
  pose proof (IH n) as IHn. pose proof (IH (S n)) as IHS.
  destruct e; cbn [fetches]; try exact IHn.
  - destruct (Nat.eqb_spec n d) as [->|Hne].
    + rewrite Nat.leb_refl. destruct (Nat.leb_spec (S d) d); lia.
    + destruct (Nat.leb_spec n d), (Nat.leb_spec (S n) d); lia.
  - destruct (Nat.leb_spec n d), (Nat.leb_spec (S n) d); lia.
Qed.

Lemma fetches_url (u : string) (es : list event) : ∀ n,
  fetches (λ _ u', String.eqb u' u) n es = fetches_of u es.
Proof.
  unfold fetches_of.
  induction es as [|e es IH]; intros n; [reflexivity |].
  destruct e; cbn [fetches List.filter]; try apply IH.
  rewrite IH. now match goal with |- context [String.eqb ?x u] => destruct (String.eqb x u) end.
Qed.

Lemma requested_requests (d : nat) (tr : list obs) :
  requested d tr = requests_of (λ d' _, Nat.eqb d' d) tr.
Proof.
  unfold requests_of. induction tr as [|ob tr IH]; [reflexivity |].
  destruct ob; simpl; try exact IH.
  rewrite IH. now match goal with |- context [Nat.eqb ?x d] => destruct (Nat.eqb x d) end.
Qed.

End BudgetFacts.

(** X13. No fetch sends more than one request, and nothing else sends any.
    In every execution of an instance, whatever fails in it, each call has
    sent at most one request upstream, and the requests sent for a URL are at
    most as many as the calls of [fetch] for it. *)
Theorem one_request_per_fetch (o : options) (fs : gmap string stats) (now : Z)
    (es : list event) (s : state) :
  run o es (initial fs now) = Some s →
  (∀ d, (requested d (trace s) ≤ 1)%nat)
  ∧ (∀ u, (requests_for u (trace s) ≤ fetches_of u es)%nat).
Proof.
  intros Hrun. split.
  - intros d. rewrite BudgetFacts.requested_requests.
    pose proof (BudgetFacts.requests_bound (λ d' _, Nat.eqb d' d) o fs now es s Hrun) as H.
    pose proof (BudgetFacts.fetches_name d es 0) as H1.
    destruct (Nat.leb 0 d); lia.
  - intros u. unfold requests_for.
    rewrite <- (BudgetFacts.fetches_url u es 0).
    apply (BudgetFacts.requests_bound (λ _ u', String.eqb u' u) o fs now es s Hrun).
Qed.

(** ** Paths and times to live *)

Module PathFacts.

Lemma substring_length (n : nat) (s : string) :
  String.length (String.substring 0 n s) = Nat.min n (String.length s).
Proof.
  revert s. induction n as [|n IH]; intros s.
  - now destruct s.
  - destruct s as [|c s]; simpl; [reflexivity |]. now rewrite IH.
Qed.

Lemma append_inj (a a' b b' : string) :
  String.length a = String.length a' → a +:+ b = a' +:+ b' → a = a' ∧ b = b'.
Proof.
  revert a'. induction a as [|c a IH]; intros [|c' a'] Hlen H; simpl in *;
    try discriminate.
  - now split.
  - injection H as -> H. injection Hlen as Hlen.
    destruct (IH a' Hlen H) as [-> ->]. now split.
Qed.

Lemma canonical_length (o : options) (u : string) :
  String.length (canonical o u)
  = (String.length (cacheDirectory o) + 1
     + Nat.min 2 (String.length (hash o u)) + 1 + String.length (hash o u))%nat.
Proof.
  unfold canonical, _cachePath, join.
  rewrite !StrFacts.length_append, substring_length. simpl. lia.
Qed.

Lemma cachePath_length (o : options) (u : string) :
  String.length (_cachePath o (hash o u))
  = (String.length (cacheDirectory o) + 1 + Nat.min 2 (String.length (hash o u)))%nat.
Proof.
  unfold _cachePath, join.
  rewrite !StrFacts.length_append, substring_length. simpl. lia.
Qed.

Lemma canonical_inj (o : options) (u u' : string) :
  canonical o u = canonical o u' → hash o u = hash o u'.
Proof.
  intros H. pose proof (f_equal String.length H) as Hlen.
  rewrite !canonical_length in Hlen.
  assert (Hfp : String.length (hash o u) = String.length (hash o u')) by lia.
  unfold canonical in H.
  change (join ?a ?b) with (a +:+ ("/" +:+ b)) in H.
  apply append_inj in H as [_ H].
  - now injection H.
  - rewrite !cachePath_length. lia.
Qed.

Lemma ttl_nonneg (v : jsvalue) : 0 ≤ ttlFromCacheControlHeader v.
Proof.
  destruct v; simpl; try lia.
  destruct (_ && _); [| lia].
  destruct (Str.regex_match "s-maxage=" s); [apply StrFacts.parseInt_nonneg |].
  destruct (Str.regex_match "max-age=" s); [apply StrFacts.parseInt_nonneg | lia].
Qed.

End PathFacts.


(** X15. The time to live of an entry is never below [minimumTtl] and never
    negative, so an entry never expires before it was stored; a response
    whose Cache-Control is missing, is not a string, or names [no-cache] or
    [private] is stored all the same, for [minimumTtl] seconds (or 0 if that
    is negative); and a larger [s-maxage] or [max-age] lengthens it. *)
Theorem ttl_floor (o : options) (res : response) :
  minimumTtl o ≤ effective_ttl o res
  ∧ 0 ≤ effective_ttl o res
  ∧ ((∀ h, cacheControl res = JString h →
           Str.substring_of "no-cache" h ∨ Str.substring_of "private" h) →
     effective_ttl o res = Z.max (minimumTtl o) 0)
  ∧ (minimumTtl o ≤ ttlFromCacheControlHeader (cacheControl res) →
     effective_ttl o res = ttlFromCacheControlHeader (cacheControl res)).
Proof.
  unfold effective_ttl.
  pose proof (PathFacts.ttl_nonneg (cacheControl res)) as Hnn.
  split; [lia |]. split; [lia |]. split; [| lia].
  intros H. f_equal.
  destruct (cacheControl res) as [| | | |h|]; try reflexivity.
  simpl.
  destruct (Str.indexOf h "no-cache" =? -1) eqn:E1; [| reflexivity].
  destruct (Str.indexOf h "private" =? -1) eqn:E2; [| reflexivity].
  apply Z.eqb_eq in E1, E2. apply StrFacts.indexOf_absent in E1, E2.
  destruct (H h eq_refl); contradiction.
Qed.

(** ** The response timer *)

Module TimerFacts.
Import PickFacts.

Lemma calm_view s s' : same_view s s' → calm s → calm s'.
Proof. intros [_ HT]. unfold calm. now rewrite HT. Qed.

Lemma calm_spawn t s : untimed t = true → calm s → calm (spawn t s).
Proof.
  intros Ht H. unfold calm. cbn [tasks spawn set_tasks].
  apply Forall_app. split; [exact H | now constructor].
Qed.

Lemma calm_picked {A : Type} (sel : task → option A) s a rest :
  pick sel (tasks s) = Some (a, rest) → calm s → calm (set_tasks rest s).
Proof.
  intros Hp H. apply pick_some in Hp as (l1 & t & l2 & Ht & -> & _ & _).
  unfold calm in *. rewrite Ht in H. cbn [tasks set_tasks].
  apply Forall_app in H as [H1 H2]. inversion H2; subst.
  apply Forall_app. now split.
Qed.

Lemma untimed_started p : untimed (started p) = true.
Proof. now destruct p. Qed.

Lemma calm_unlock k s : calm s → calm (locker_unlock k s).
Proof.
  intros H. unfold locker_unlock, FileLocker.unlock.
  destruct (lockedFiles s !! k) as [e|]; [| exact H].
  destruct (FileLocker.onRelease e) as [|p w]; [exact H |].
  unfold invoke. apply calm_spawn; [apply untimed_started | exact H].
Qed.

Lemma calm_lock k p s : calm s → calm (locker_lock k p s).
Proof.
  intros H. unfold locker_lock, FileLocker.lock.
  destruct (lockedFiles s !! k) as [e|]; [exact H |].
  unfold invoke. apply calm_spawn; [apply untimed_started | exact H].
Qed.

Lemma calm_upstream_done o c r s : calm s → calm (upstream_done o c r s).
Proof.
  intros H. unfold upstream_done. destruct r as [err|[a m]].
  - apply calm_unlock.
    apply (calm_view _ _ (FlightFacts.view_emit _ _)).
    now apply (calm_view _ _ (FlightFacts.view_debug_log _ _ _)).
  - apply (calm_view _ _ (FlightFacts.view_emit _ _)).
    apply calm_unlock.
    now apply (calm_view _ _ (FlightFacts.view_debug_log _ _ _)).
Qed.

Lemma calm_probe_done o c r s : calm s → calm (probe_done o c r s).
Proof.
  intros H. unfold probe_done. destruct r as [a m|].
  - apply (calm_view _ _ (FlightFacts.view_emit _ _)).
    apply calm_unlock.
    now apply (calm_view _ _ (FlightFacts.view_debug_log _ _ _)).
  - unfold fetchFromUpstream. apply calm_spawn; [reflexivity |].
    apply (calm_view _ _ (FlightFacts.view_emit _ _)).
    now apply (calm_view _ _ (FlightFacts.view_debug_log _ _ _)).
Qed.

(** Without a positive [responseTimeout] no step sets a timer. *)
Lemma calm_step (o : options) (e : event) (s s' : state) :
  responseTimeout o ≤ 0 →
  step o e s = Some s' → calm s → calm s'.
Proof.
  intros Hrt Hstep H.
  destruct e as [δ|u|u|d f|d f|d err|d res|d n|d err|d|d err|d|d f|d f|d|d];
    cbn [step] in Hstep.
  - destruct (0 <=? δ); [| discriminate]. apply (inj Some) in Hstep. now subst s'.
  - apply (inj Some) in Hstep. subst s'. unfold fetch. now apply calm_lock.
  - apply (inj Some) in Hstep. subst s'. unfold purge. now apply calm_lock.
  - destruct (pick (sel_stat d) (tasks s)) as [[c rest]|] eqn:Hp; [| discriminate].
    apply (calm_picked _ _ _ _ Hp) in H.
    revert Hstep. unfold statted.
    destruct (match f with Some errcode => inl errcode | None => _ end) as [errcode|st].
    + destruct (String.eqb errcode "ENOENT"); intros Hs';
        apply (inj Some) in Hs'; subst s'; cbv beta iota zeta.
      * now apply calm_spawn.
      * apply calm_probe_done.
        now apply (calm_view _ _ (FlightFacts.view_emit _ _)).
    + destruct (_ && _); intros Hs';
        apply (inj Some) in Hs'; subst s'; cbv beta iota zeta.
      * now apply calm_probe_done.
      * apply calm_probe_done.
        now apply (calm_view _ _ (FlightFacts.view_debug_log _ _ _)).
  - destruct (pick (sel_mkdir d) (tasks s)) as [[c rest]|] eqn:Hp; [| discriminate].
    apply (calm_picked _ _ _ _ Hp) in H.
    destruct (faulty f (files s) _) as [fs' err]. unfold mkdired in Hstep.
    cbv beta iota zeta in Hstep. apply (inj Some) in Hstep. subst s'.
    apply calm_probe_done.
    apply (calm_view _ _ (FlightFacts.view_set_files fs' _)) in H.
    destruct err as [errcode|]; [| exact H].
    destruct (String.eqb errcode "EEXIST"); [exact H |].
    now apply (calm_view _ _ (FlightFacts.view_emit _ _)).
  - destruct (pick (sel_get d) (tasks s)) as [[c rest]|] eqn:Hp; [| discriminate].
    apply (calm_picked _ _ _ _ Hp) in H.
    apply (inj Some) in Hstep. subst s'. now apply calm_spawn.
  - destruct (pick (sel_get d) (tasks s)) as [[c rest]|] eqn:Hp; [| discriminate].
    apply (calm_picked _ _ _ _ Hp) in H.
    apply (inj Some) in Hstep. subst s'. unfold get_responded.
    destruct (negb _).
    { apply calm_spawn; [reflexivity |].
      now apply (calm_view _ _ (FlightFacts.view_emit _ _)). }
    destruct (_ && _).
    { apply calm_spawn; [reflexivity |].
      now apply (calm_view _ _ (FlightFacts.view_emit _ _)). }
    apply calm_spawn.
    + rewrite (proj2 (Z.ltb_ge 0 (responseTimeout o)) Hrt). reflexivity.
    + now apply (calm_view _ _ (FlightFacts.view_set_files _ _)).
  - destruct (pick (sel_body d) (tasks s)) as [[[c res] rest]|] eqn:Hp; [| discriminate].
    apply (calm_picked _ _ _ _ Hp) in H.
    destruct (0 <=? n); [| discriminate]. apply (inj Some) in Hstep. subst s'.
    apply calm_spawn; [reflexivity |].
    now apply (calm_view _ _ (FlightFacts.view_set_files _ _)).
  - destruct (pick (sel_body d) (tasks s)) as [[[c res] rest]|] eqn:Hp; [| discriminate].
    apply (calm_picked _ _ _ _ Hp) in H.
    apply (inj Some) in Hstep. subst s'. now apply calm_spawn.
  - destruct (pick (sel_timer (clock s) d) (tasks s)) as [[c rest]|] eqn:Hp; [| discriminate].
    apply (calm_picked _ _ _ _ Hp) in H.
    apply (inj Some) in Hstep. subst s'. unfold timed_out.
    apply calm_spawn; [reflexivity |]. apply calm_spawn; [reflexivity |].
    now apply (calm_view _ _ (FlightFacts.view_emit _ _)).
  - destruct (pick (sel_aborted d) (tasks s)) as [[c rest]|] eqn:Hp; [| discriminate].
    apply (calm_picked _ _ _ _ Hp) in H.
    apply (inj Some) in Hstep. subst s'. now apply calm_spawn.
  - destruct (pick (sel_close d) (tasks s)) as [[[c res] rest]|] eqn:Hp; [| discriminate].
    apply (calm_picked _ _ _ _ Hp) in H.
    apply (inj Some) in Hstep. subst s'. now apply calm_spawn.
  - destruct (pick (sel_rename d) (tasks s)) as [[[c res] rest]|] eqn:Hp; [| discriminate].
    apply (calm_picked _ _ _ _ Hp) in H.
    destruct (faulty f (files s) _) as [fs' err].
    cbv beta iota zeta in Hstep. apply (inj Some) in Hstep. subst s'.
    apply (calm_view _ _ (FlightFacts.view_set_files fs' _)) in H.
    unfold renamed. destruct err as [errcode|]; now apply calm_spawn.
  - destruct (pick (sel_utimes d) (tasks s)) as [[[c [a m]] rest]|] eqn:Hp; [| discriminate].
    apply (calm_picked _ _ _ _ Hp) in H.
    destruct (faulty f (files s) _) as [fs' err].
    cbv beta iota zeta in Hstep. apply (inj Some) in Hstep. subst s'.
    apply (calm_view _ _ (FlightFacts.view_set_files fs' _)) in H.
    unfold stamped. destruct err as [errcode|].
    + now apply calm_spawn.
    + now apply calm_upstream_done.
  - destruct (pick (sel_unlink d) (tasks s)) as [[[c err] rest]|] eqn:Hp; [| discriminate].
    apply (calm_picked _ _ _ _ Hp) in H.
    apply (inj Some) in Hstep. subst s'. unfold part_unlinked.
    apply calm_upstream_done.
    now apply (calm_view _ _ (FlightFacts.view_set_files _ _)).
  - destruct (pick (sel_purge d) (tasks s)) as [[file rest]|] eqn:Hp; [| discriminate].
    apply (calm_picked _ _ _ _ Hp) in H.
    apply (inj Some) in Hstep. subst s'. unfold purge_unlinked.
    apply (calm_view _ _ (FlightFacts.view_emit _ _)).
    apply calm_unlock.
    now apply (calm_view _ _ (FlightFacts.view_set_files _ _)).
Qed.

Lemma calm_run (o : options) (es : list event) :
  responseTimeout o ≤ 0 →
  ∀ s s', run o es s = Some s' → calm s → calm s'.
Proof.
  intros Hrt. induction es as [|e es IH]; intros s s' Hrun H; simpl in Hrun.
  - now injection Hrun as <-.
  - destruct (step o e s) as [s1|] eqn:Hstep; [| discriminate].
    apply (IH s1 s' Hrun). now apply (calm_step o e s).
Qed.

Lemma calm_no_timer (o : options) (s : state) (d : nat) :
  calm s → step o (EvTimer d) s = None.
Proof.
  intros H. cbn [step].
  assert (Hn : pick (sel_timer (clock s) d) (tasks s) = None).
  { apply pick_none. eapply Forall_impl; [exact H |].
    intros t Ht. destruct t as [| | |c res [due|]| | | | | |]; try reflexivity.
    discriminate. }
  now rewrite Hn.
Qed.

(** Past the body, the callbacks of the fetch keep it past the body. *)
Lemma late_step (o : options) (c : fetch_call) (e : event) (s s' : state) :
  upstream_event (done c) e = true →
  step o e s = Some s' →
  in_late c s → in_late c s'.
Proof.
  intros He Hstep (l1 & t & l2 & Ht & Hs & Hst).
  destruct e as [δ|u|u|d f|d f|d err|d res|d n|d err|d|d err|d|d f|d f|d|d];
    simpl in He; try discriminate;
    try (apply Nat.eqb_eq in He; subst d);
    cbn [step] in Hstep.
  - destruct (0 <=? δ); [| discriminate]. injection Hstep as <-.
    now exists l1, t, l2.
  - rewrite Ht, (CleanupFacts.pick_focus _ (done c)) in Hstep by auto with petra.
    destruct Hst; simpl in Hstep; discriminate.
  - rewrite Ht, (CleanupFacts.pick_focus _ (done c)) in Hstep by auto with petra.
    destruct Hst; simpl in Hstep; discriminate.
  - rewrite Ht, (CleanupFacts.pick_focus _ (done c)) in Hstep by auto with petra.
    destruct Hst; simpl in Hstep; discriminate.
  - rewrite Ht, (CleanupFacts.pick_focus _ (done c)) in Hstep by auto with petra.
    destruct Hst; simpl in Hstep; discriminate.
  - rewrite Ht, (CleanupFacts.pick_focus _ (done c)) in Hstep by auto with petra.
    destruct Hst; simpl in Hstep; discriminate.
  - rewrite Ht, (CleanupFacts.pick_focus _ (done c)) in Hstep by auto with petra.
    destruct Hst; simpl in Hstep; try discriminate.
    rewrite for_call_done in Hstep. simpl in Hstep. injection Hstep as <-.
    eexists (l1 ++ l2), _, []. split; [reflexivity |].
    split; [now rewrite app_nil_r | constructor].
  - rewrite Ht, (CleanupFacts.pick_focus _ (done c)) in Hstep by auto with petra.
    destruct Hst; simpl in Hstep; try discriminate.
    rewrite for_call_done in Hstep. simpl in Hstep.
    destruct (faulty f (files s) _) as [fs' err]. injection Hstep as <-.
    unfold renamed. destruct err as [errcode|];
      (eexists (l1 ++ l2), _, []; split; [reflexivity |];
       split; [now rewrite app_nil_r | constructor]).
  - destruct f as [errcode|]; [| discriminate].
    apply Nat.eqb_eq in He; subst d.
    rewrite Ht, (CleanupFacts.pick_focus _ (done c)) in Hstep by auto with petra.
    destruct Hst; simpl in Hstep; try discriminate.
    rewrite for_call_done in Hstep. simpl in Hstep. injection Hstep as <-.
    eexists (l1 ++ l2), _, []. split; [reflexivity |].
    split; [now rewrite app_nil_r | constructor].
Qed.

Lemma late_run (o : options) (c : fetch_call) (es : list event) :
  ∀ s s', forallb (upstream_event (done c)) es = true →
          run o es s = Some s' →
          in_late c s → in_late c s'.
Proof.
  induction es as [|e es IH]; intros s s' Hes Hrun Hin; simpl in *.
  - now injection Hrun as <-.
  - apply andb_true_iff in Hes as [He Hes].
    destruct (step o e s) as [s1|] eqn:Hstep; [| discriminate].
    apply (IH s1 s' Hes Hrun). now apply (late_step o c e s).
Qed.

Lemma late_no_timer (o : options) (c : fetch_call) (s : state) :
  in_late c s → step o (EvTimer (done c)) s = None.
Proof.
  intros (l1 & t & l2 & Ht & Hs & Hst). cbn [step].
  rewrite Ht, (CleanupFacts.pick_focus _ (done c)) by auto with petra.
  now destruct Hst.
Qed.

End TimerFacts.

(** X16. A [responseTimeout] of 0, or below, switches the response timer
    off: in every execution of such an instance no body is ever awaited
    under a timer, so the timeout callback, with its
    [response timeout of Nms] error, can never run. *)
Theorem no_timer_without_timeout (o : options) (fs : gmap string stats) (now : Z)
    (es : list event) (s : state) (d : nat) :
  responseTimeout o ≤ 0 →
  run o es (initial fs now) = Some s →
  Forall (λ t, untimed t = true) (tasks s)
  ∧ step o (EvTimer d) s = None.
Proof.
  intros Hrt Hrun.
  assert (H : calm s).
  { apply (TimerFacts.calm_run o es Hrt _ _ Hrun). constructor. }
  split; [exact H | now apply TimerFacts.calm_no_timer].
Qed.

(** X17. The end of the response clears the response timer: once the body of
    a fetch has ended, or has failed, the timeout callback cannot run for
    it, however long the file stream, the rename and [utimes] take. *)
Theorem body_end_clears_timer (o : options) (c : fetch_call) (s s' : state)
    (res : response) (timer : option Z) (l1 l2 : list task) (e : event)
    (es : list event) :
  tasks s = l1 ++ TBody c res timer :: l2 →
  settled (done c) (l1 ++ l2) →
  (∃ n, e = EvBodyEnd (done c) n) ∨ (∃ err, e = EvBodyError (done c) err) →
  forallb (upstream_event (done c)) es = true →
  run o (e :: es) s = Some s' →
  step o (EvTimer (done c)) s' = None.
Proof.
  intros Ht Hs He Hes Hrun. cbn [run] in Hrun.
  destruct (step o e s) as [s1|] eqn:Hstep; [| discriminate].
  apply TimerFacts.late_no_timer.
  apply (TimerFacts.late_run o c es s1 s' Hes Hrun).
  destruct He as [[n ->]|[err ->]]; cbn [step] in Hstep;
    rewrite Ht, (CallFacts.pick_only (sel_body (done c)) (done c) l1 l2 _ (c, res))
      in Hstep by (auto with petra; simpl; now rewrite PickFacts.for_call_done).
  - destruct (0 <=? n); [| discriminate]. injection Hstep as <-.
    eexists (l1 ++ l2), _, []. split; [reflexivity |].
    split; [now rewrite app_nil_r | constructor].
  - injection Hstep as <-.
    eexists (l1 ++ l2), _, []. split; [reflexivity |].
    split; [now rewrite app_nil_r | constructor].
Qed.

(** ** The constructor *)

(** X18. Building an instance keeps the cache: when [new Petra(options)]
    returns, every file that was there is there unchanged, and something
    is at the path of the cache directory (the directory just made, if
    nothing was there); and the constructor throws exactly when the access
    check fails, when the directory could not be made and is not there, or
    when the directory is not given as a string. *)
Theorem Petra_keeps_cache (tmpdir : string) (sha256 : string → string)
    (arg : option ctor_options) (files : gmap string stats) (now : Z)
    (mkdir_fault access_fault : option string) :
  match Petra tmpdir sha256 arg files now mkdir_fault access_fault with
  | Built this files' =>
      this = parse_options tmpdir sha256 arg
      ∧ access_fault = None
      ∧ (∀ p st, files !! p = Some st → files' !! p = Some st)
      ∧ ∃ dir, this_cacheDirectory this = JString dir
               ∧ is_Some (files' !! dir)
               ∧ ∀ p, p ≠ dir → files' !! p = files !! p
  | Threw errcode =>
      access_fault = Some errcode
      ∨ (∃ dir, this_cacheDirectory (parse_options tmpdir sha256 arg) = JString dir
                ∧ files !! dir = None ∧ is_Some mkdir_fault)
      ∨ (∀ dir, this_cacheDirectory (parse_options tmpdir sha256 arg) ≠ JString dir)
  end.
Proof.
  unfold Petra.
  destruct (this_cacheDirectory (parse_options tmpdir sha256 arg)) as [| | | |dir|] eqn:Hdir;
    try (right; right; intros dir' H; discriminate).
  destruct access_fault as [errcode|]; [now left |].
  destruct mkdir_fault as [fault|]; cbn [faulty fst].
  - destruct (files !! dir) as [st|] eqn:Hst.
    + split; [reflexivity |]. split; [reflexivity |]. split; [tauto |].
      exists dir. split; [exact Hdir |]. split; [eauto | reflexivity].
    + right. left. exists dir. split; [reflexivity |]. split; [exact Hst | eauto].
  - unfold Fs.mkdir. destruct (files !! dir) as [st|] eqn:Hst; cbn [fst].
    + rewrite Hst. split; [reflexivity |]. split; [reflexivity |]. split; [tauto |].
      exists dir. split; [exact Hdir |]. split; [eauto | reflexivity].
    + rewrite lookup_insert_eq. split; [reflexivity |]. split; [reflexivity |]. split.
      * intros p st Hp. rewrite lookup_insert_ne; [exact Hp |]. intros <-. congruence.
      * exists dir. split; [exact Hdir |]. split; [rewrite lookup_insert_eq; eauto |].
        intros p Hp. now rewrite lookup_insert_ne.
Qed.
(** ** [purgeStale]: the lock around the unlink *)

Module StaleFacts.
Section Facts.
Import Stale.

Context {P : Type}.
Implicit Types (s : purger P) (k f file : string) (R : list string).

Lemma unlinking_count k (l : list string) f :
  List.length (List.filter (λ x, String.eqb x k) (l ++ [f]))
  = (List.length (List.filter (λ x, String.eqb x k) l)
     + if String.eqb f k then 1 else 0)%nat.
Proof.
  rewrite List.filter_app, List.length_app. simpl.
  now destruct (String.eqb f k).
Qed.

Lemma working_count k (l : list (string * P)) file (p : P) :
  List.length (List.filter (λ w, String.eqb w.1 k) (l ++ [(file, p)]))
  = (List.length (List.filter (λ w, String.eqb w.1 k) l)
     + if String.eqb file k then 1 else 0)%nat.
Proof.
  rewrite List.filter_app, List.length_app. simpl.
  now destruct (String.eqb file k).
Qed.

Lemma take_out_count x (l r : list string) k :
  take_out x l = Some r →
  List.length (List.filter (λ y, String.eqb y k) l)
  = (List.length (List.filter (λ y, String.eqb y k) r)
     + if String.eqb x k then 1 else 0)%nat.
Proof.
  revert r. induction l as [|y l IH]; intros r; simpl; [discriminate |].
  destruct (String.eqb y x) eqn:Hy.
  - apply String.eqb_eq in Hy. subst y. intros [= <-].
    destruct (String.eqb x k); simpl; lia.
  - destruct (take_out x l) as [r'|]; [| discriminate].
    intros [= <-]. specialize (IH r' eq_refl). simpl.
    destruct (String.eqb y k); simpl; lia.
Qed.

Lemma take_out_elem x (l r : list string) :
  take_out x l = Some r →
  x ∈ l ∧ (∀ y, y ∈ r → y ∈ l) ∧ (∀ y, y ∈ l → y ≠ x → y ∈ r).
Proof.
  revert r. induction l as [|y l IH]; intros r; simpl; [discriminate |].
  destruct (String.eqb y x) eqn:Hy.
  - apply String.eqb_eq in Hy. subst y. intros [= <-].
    split; [apply list_elem_of_here |]. split.
    + intros y Hy. now apply list_elem_of_further.
    + intros y Hy Hne. apply elem_of_cons in Hy as [Hy|Hy]; [contradiction | exact Hy].
  - destruct (take_out x l) as [r'|]; [| discriminate].
    intros [= <-]. destruct (IH r' eq_refl) as (H1 & H2 & H3).
    split; [now apply list_elem_of_further |]. split.
    + intros z Hz. apply elem_of_cons in Hz as [->|Hz];
        [apply list_elem_of_here | apply list_elem_of_further; auto].
    + intros z Hz Hne. apply elem_of_cons in Hz as [->|Hz];
        [apply list_elem_of_here | apply list_elem_of_further; auto].
Qed.

Lemma delete_count (l : list (string * P)) i file (p : P) k :
  l !! i = Some (file, p) →
  List.length (List.filter (λ w, String.eqb w.1 k) l)
  = (List.length (List.filter (λ w, String.eqb w.1 k) (delete i l))
     + if String.eqb file k then 1 else 0)%nat.
Proof.
  revert i. induction l as [|w l IH]; intros i; [now destruct i |].
  destruct i as [|i]; simpl.
  - intros [= ->]. simpl. destruct (String.eqb file k); simpl; lia.
  - intros H. specialize (IH i H).
    change (delete (S i) (w :: l)) with (w :: delete i l). simpl.
    destruct (String.eqb w.1 k); simpl; lia.
Qed.

Lemma busy_invoke k file (h : holder P) s :
  queued_for file h →
  busy k (purger_invoke file (Some h) s)
  = (busy k s + if String.eqb file k then 1 else 0)%nat.
Proof.
  intros Hq. destruct h as [p|f']; unfold busy; cbn [purger_invoke unlinking working].
  - rewrite working_count. lia.
  - simpl in Hq. subst f'. rewrite unlinking_count. lia.
Qed.

Lemma lock_view file (h : holder P) s :
  purger_lock file h s
  = match locks s !! file with
    | Some e =>
        with_locks (<[file := FileLocker.Entry (FileLocker.lastUpdated e)
                               (FileLocker.onRelease e ++ [h])]> (locks s)) s
    | None =>
        purger_invoke file (Some h) (with_locks (<[file := FileLocker.Entry (now s) []]> (locks s)) s)
    end.
Proof.
  unfold purger_lock, FileLocker.lock. now destruct (locks s !! file).
Qed.

Lemma unlock_view file s :
  purger_unlock file s
  = match locks s !! file with
    | Some e =>
        match FileLocker.onRelease e with
        | next :: waiting =>
            purger_invoke file (Some next)
              (with_locks (<[file := FileLocker.Entry (now s) waiting]> (locks s)) s)
        | [] => with_locks (delete file (locks s)) s
        end
    | None => s
    end.
Proof.
  unfold purger_unlock, FileLocker.unlock.
  destruct (locks s !! file) as [e|]; [| now destruct s].
  now destruct (FileLocker.onRelease e).
Qed.

Lemma eqb_other file k : k ≠ file → String.eqb file k = false.
Proof. intros H. apply String.eqb_neq. congruence. Qed.

(** [lock(file, h)] by a caller that queues for [file]. *)
Lemma kept_lock R d0 file (h : holder P) s :
  queued_for file h →
  (∀ f, h = StaleUnlink f → f ∈ R) →
  kept R d0 s → kept R d0 (purger_lock file h s).
Proof.
  intros Hq HR (Hex & Hun & Hqu & Hpe & Hfr). rewrite lock_view.
  pose proof (Hex file) as Hfile. unfold exclusive_at in Hfile.
  destruct (locks s !! file) as [e|] eqn:He.
  - destruct Hfile as [Hb Hall].
    split; [| split; [| split; [| split]]].
    + intros k. unfold exclusive_at. cbn [with_locks locks].
      destruct (decide (k = file)) as [->|Hk].
      * rewrite lookup_insert_eq. cbn [FileLocker.onRelease].
        split; [exact Hb |]. apply Forall_app. split; [exact Hall |].
        now apply Forall_singleton.
      * rewrite lookup_insert_ne by congruence. exact (Hex k).
    + exact Hun.
    + intros k e'. cbn [with_locks locks].
      destruct (decide (k = file)) as [->|Hk].
      * rewrite lookup_insert_eq. intros [= <-]. cbn [FileLocker.onRelease].
        intros Hin. apply elem_of_app in Hin as [Hin|Hin]; [now apply (Hqu file e) |].
        apply list_elem_of_singleton in Hin. now apply HR.
      * rewrite lookup_insert_ne by congruence. apply Hqu.
    + intros k Hk. destruct (Hpe k Hk) as [Hf|[Hu|(e' & He' & Hin)]];
        [now left | right; now left |].
      right. right. cbn [with_locks locks].
      destruct (decide (k = file)) as [->|Hne].
      * rewrite lookup_insert_eq. eexists. split; [reflexivity |].
        cbn [FileLocker.onRelease]. rewrite He in He'. injection He' as <-.
        apply elem_of_app. now left.
      * rewrite lookup_insert_ne by congruence. now exists e'.
    + exact Hfr.
  - split; [| split; [| split; [| split]]].
    + intros k. unfold exclusive_at. rewrite busy_invoke by exact Hq.
      destruct h as [p|f']; cbn [purger_invoke with_locks locks].
      * destruct (decide (k = file)) as [->|Hk].
        -- rewrite lookup_insert_eq, String.eqb_refl. cbn [FileLocker.onRelease].
           split; [| constructor]. unfold busy in *. cbn [with_locks unlinking working]. lia.
        -- rewrite lookup_insert_ne, eqb_other by congruence.
           pose proof (Hex k) as Hk'. unfold exclusive_at in Hk'.
           unfold busy in *. cbn [with_locks unlinking working].
           destruct (locks s !! k); [destruct Hk'; split; [lia | assumption] | lia].
      * destruct (decide (k = file)) as [->|Hk].
        -- rewrite lookup_insert_eq, String.eqb_refl. cbn [FileLocker.onRelease].
           split; [| constructor]. unfold busy in *. cbn [with_locks unlinking working]. lia.
        -- rewrite lookup_insert_ne, eqb_other by congruence.
           pose proof (Hex k) as Hk'. unfold exclusive_at in Hk'.
           unfold busy in *. cbn [with_locks unlinking working].
           destruct (locks s !! k); [destruct Hk'; split; [lia | assumption] | lia].
    + intros f. destruct h as [p|f']; cbn [purger_invoke with_locks unlinking]; [apply Hun |].
      intros Hin. apply elem_of_app in Hin as [Hin|Hin]; [now apply Hun |].
      apply list_elem_of_singleton in Hin. subst f. now apply HR.
    + intros k e'.
      assert (Hl : locks (purger_invoke file (Some h) (with_locks
                     (<[file := FileLocker.Entry (now s) []]> (locks s)) s))
                   = <[file := FileLocker.Entry (now s) []]> (locks s)).
      { now destruct h. }
      rewrite Hl. destruct (decide (k = file)) as [->|Hk].
      * rewrite lookup_insert_eq. intros [= <-]. cbn [FileLocker.onRelease].
        intros Hin. now apply not_elem_of_nil in Hin.
      * rewrite lookup_insert_ne by congruence. apply Hqu.
    + intros k Hk.
      assert (Hd : disk (purger_invoke file (Some h) (with_locks
                     (<[file := FileLocker.Entry (now s) []]> (locks s)) s)) = disk s).
      { now destruct h. }
      rewrite Hd. destruct (Hpe k Hk) as [Hf|[Hu|(e' & He' & Hin)]]; [now left | |].
      * right. left. destruct h as [p|f']; cbn [purger_invoke with_locks unlinking]; [exact Hu |].
        apply elem_of_app. now left.
      * right. right. exists e'. split; [| exact Hin].
        destruct (decide (k = file)) as [->|Hne]; [congruence |].
        destruct h; cbn [purger_invoke with_locks locks]; now rewrite lookup_insert_ne by congruence.
    + intros p Hp. specialize (Hfr p Hp). now destruct h.
Qed.

(** [unlock(file)], once the holder of the lock of [file] is done. *)
Lemma kept_unlock R d0 file s :
  holder_done R d0 file s → kept R d0 (purger_unlock file s).
Proof.
  intros (Hex & Hb & Hall & Hun & Hqu & Hpe & Hfr). rewrite unlock_view.
  destruct (locks s !! file) as [e|] eqn:He.
  - specialize (Hall e eq_refl).
    destruct (FileLocker.onRelease e) as [|next waiting] eqn:Hq.
    + (* Remove empty lock *)
      split; [| split; [| split; [| split]]].
      * intros k. unfold exclusive_at. cbn [with_locks locks].
        destruct (decide (k = file)) as [->|Hk].
        -- rewrite lookup_delete_eq. exact Hb.
        -- rewrite lookup_delete_ne by congruence. exact (Hex k Hk).
      * exact Hun.
      * intros k e'. cbn [with_locks locks].
        destruct (decide (k = file)) as [->|Hk].
        -- now rewrite lookup_delete_eq.
        -- rewrite lookup_delete_ne by congruence. apply Hqu.
      * intros k Hk. destruct (Hpe k Hk) as [Hf|[Hu|(e' & He' & Hin)]];
          [now left | right; now left |].
        right. right. cbn [with_locks locks].
        destruct (decide (k = file)) as [->|Hne].
        -- rewrite He in He'. injection He' as <-. rewrite Hq in Hin.
           now apply not_elem_of_nil in Hin.
        -- rewrite lookup_delete_ne by congruence. now exists e'.
      * exact Hfr.
    + (* Transfer lock *)
      apply Forall_cons in Hall as [Hnext Hwaiting].
      assert (HnextR : ∀ f, next = StaleUnlink f → f ∈ R).
      { intros f ->. simpl in Hnext. subst f. apply (Hqu file e He).
        rewrite Hq. apply list_elem_of_here. }
      assert (Hl : locks (purger_invoke file (Some next) (with_locks
                     (<[file := FileLocker.Entry (now s) waiting]> (locks s)) s))
                   = <[file := FileLocker.Entry (now s) waiting]> (locks s)).
      { now destruct next. }
      assert (Hd : disk (purger_invoke file (Some next) (with_locks
                     (<[file := FileLocker.Entry (now s) waiting]> (locks s)) s)) = disk s).
      { now destruct next. }
      split; [| split; [| split; [| split]]].
      * intros k. unfold exclusive_at. rewrite busy_invoke by exact Hnext. rewrite Hl.
        assert (Hsame : busy k (with_locks
                  (<[file := FileLocker.Entry (now s) waiting]> (locks s)) s) = busy k s)
          by reflexivity.
        rewrite Hsame.
        destruct (decide (k = file)) as [->|Hk].
        -- rewrite lookup_insert_eq, String.eqb_refl. cbn [FileLocker.onRelease].
           split; [lia | exact Hwaiting].
        -- rewrite lookup_insert_ne, eqb_other by congruence.
           pose proof (Hex k Hk) as Hk'. unfold exclusive_at in Hk'.
           destruct (locks s !! k); [destruct Hk'; split; [lia | assumption] | lia].
      * intros f. destruct next as [p|f']; cbn [purger_invoke with_locks unlinking]; [apply Hun |].
        intros Hin. apply elem_of_app in Hin as [Hin|Hin]; [now apply Hun |].
        apply list_elem_of_singleton in Hin. subst f. now apply HnextR.
      * intros k e'. rewrite Hl. destruct (decide (k = file)) as [->|Hk].
        -- rewrite lookup_insert_eq. intros [= <-]. cbn [FileLocker.onRelease].
           intros Hin. apply (Hqu file e He). rewrite Hq.
           now apply list_elem_of_further.
        -- rewrite lookup_insert_ne by congruence. apply Hqu.
      * intros k Hk. rewrite Hd.
        destruct (Hpe k Hk) as [Hf|[Hu|(e' & He' & Hin)]]; [now left | |].
        -- right. left.
           destruct next as [p|f']; cbn [purger_invoke with_locks unlinking]; [exact Hu |].
           apply elem_of_app. now left.
        -- right. unfold to_unlink. rewrite Hl.
           destruct (decide (k = file)) as [->|Hne].
           ++ rewrite He in He'. injection He' as <-. rewrite Hq in Hin.
              apply elem_of_cons in Hin as [<-|Hin].
              ** left. cbn [purger_invoke with_locks unlinking]. apply elem_of_app. right.
                 apply list_elem_of_here.
              ** right. rewrite lookup_insert_eq. eexists. split; [reflexivity |].
                 exact Hin.
           ++ right. rewrite lookup_insert_ne by congruence. now exists e'.
      * intros p Hp. rewrite Hd. now apply Hfr.
  - (* no entry *)
    split; [| split; [| split; [| split]]]; try assumption.
    intros k. destruct (decide (k = file)) as [->|Hk]; [| exact (Hex k Hk)].
    unfold exclusive_at. now rewrite He.
Qed.

Lemma kept_more R d0 f s :
  kept R d0 s → f ∈ R → kept (R ++ [f]) d0 s.
Proof.
  intros (Hex & Hun & Hqu & Hpe & Hfr) Hf.
  assert (Hiff : ∀ k, k ∈ R ++ [f] ↔ k ∈ R).
  { intros k. rewrite elem_of_app, list_elem_of_singleton. split; [| tauto].
    intros [H| ->]; assumption. }
  split; [exact Hex |]. split; [| split; [| split]].
  - intros g Hg. apply Hiff. now apply Hun.
  - intros k e He Hin. apply Hiff. now apply (Hqu k e).
  - intros k Hk. apply Hpe. now apply Hiff.
  - intros p Hp. apply Hfr. intros Hin. apply Hp. now apply Hiff.
Qed.

(** A path reported for the first time: it is to be unlinked, hence may
    change. *)
Lemma kept_report R d0 f s :
  kept R d0 s → kept (R ++ [f]) d0 (on_data f s).
Proof.
  intros Hk. unfold on_data.
  assert (Hpre : exclusive s
                 ∧ (∀ g, g ∈ unlinking s → g ∈ R ++ [f])
                 ∧ (∀ k e, locks s !! k = Some e →
                      StaleUnlink k ∈ FileLocker.onRelease e → k ∈ R ++ [f])
                 ∧ (∀ p, p ∉ R ++ [f] → disk s !! p = d0 !! p)).
  { destruct Hk as (Hex & Hun & Hqu & Hpe & Hfr).
    split; [exact Hex |]. split; [| split].
    - intros g Hg. apply elem_of_app. left. now apply Hun.
    - intros k e He Hin. apply elem_of_app. left. now apply (Hqu k e).
    - intros p Hp. apply Hfr. intros Hin. apply Hp. apply elem_of_app. now left. }
  destruct Hk as (Hex & Hun & Hqu & Hpe & Hfr).
  destruct Hpre as (_ & Hun' & Hqu' & Hfr').
  (* the pending part for [f] itself holds after the call only *)
  assert (Hold : ∀ k, k ∈ R → Fs.is_file (disk s) k = false ∨ to_unlink k s) by exact Hpe.
  assert (Hnew : to_unlink f (purger_lock f (StaleUnlink f) s)).
  { rewrite lock_view. destruct (locks s !! f) as [e|] eqn:He.
    - right. cbn [with_locks locks]. rewrite lookup_insert_eq. eexists.
      split; [reflexivity |]. cbn [FileLocker.onRelease]. apply elem_of_app. right.
      apply list_elem_of_here.
    - left. cbn [purger_invoke with_locks unlinking]. apply elem_of_app. right.
      apply list_elem_of_here. }
  (* the other parts as for any [lock] *)
  assert (Hall : ∀ R', (∀ k, k ∈ R' ↔ k ∈ R ∨ k = f) →
                 kept R' d0 (purger_lock f (StaleUnlink f) s)).
  { intros R' HR'.
    assert (Hstart : ∀ k, k ∈ R' → k ≠ f →
                     Fs.is_file (disk s) k = false ∨ to_unlink k s).
    { intros k Hk Hne. apply Hold. apply HR' in Hk as [Hk|Hk]; [exact Hk | contradiction]. }
    rewrite lock_view in Hnew |- *.
    pose proof (Hex f) as Hfile. unfold exclusive_at in Hfile.
    destruct (locks s !! f) as [e|] eqn:He.
    - destruct Hfile as [Hb Hq].
      split; [| split; [| split; [| split]]].
      + intros k. unfold exclusive_at. cbn [with_locks locks].
        destruct (decide (k = f)) as [->|Hk].
        * rewrite lookup_insert_eq. cbn [FileLocker.onRelease].
          split; [exact Hb |]. apply Forall_app. split; [exact Hq |].
          now apply Forall_singleton.
        * rewrite lookup_insert_ne by congruence. exact (Hex k).
      + intros g Hg. apply HR'. left. now apply Hun.
      + intros k e'. cbn [with_locks locks].
        destruct (decide (k = f)) as [->|Hk].
        * intros _ _. apply HR'. now right.
        * rewrite lookup_insert_ne by congruence. intros H1 H2. apply HR'. left.
          now apply (Hqu k e').
      + intros k Hk. destruct (decide (k = f)) as [->|Hne]; [now right |].
        destruct (Hstart k Hk Hne) as [Hf|[Hu|(e' & He' & Hin)]];
          [now left | right; now left |].
        right. right. cbn [with_locks locks].
        rewrite lookup_insert_ne by congruence. now exists e'.
      + intros p Hp. apply Hfr. intros Hin. apply Hp. apply HR'. now left.
    - split; [| split; [| split; [| split]]].
      + intros k. unfold exclusive_at.
        rewrite busy_invoke by reflexivity. cbn [purger_invoke with_locks locks].
        destruct (decide (k = f)) as [->|Hk].
        * rewrite lookup_insert_eq, String.eqb_refl. cbn [FileLocker.onRelease].
          split; [| constructor]. unfold busy in *. cbn [with_locks unlinking working]. lia.
        * rewrite lookup_insert_ne, eqb_other by congruence.
          pose proof (Hex k) as Hk'. unfold exclusive_at in Hk'.
          unfold busy in *. cbn [with_locks unlinking working].
          destruct (locks s !! k); [destruct Hk'; split; [lia | assumption] | lia].
      + intros g. cbn [purger_invoke with_locks unlinking]. intros Hin. apply HR'.
        apply elem_of_app in Hin as [Hin|Hin]; [left; now apply Hun |].
        apply list_elem_of_singleton in Hin. now right.
      + intros k e'. cbn [purger_invoke with_locks locks].
        destruct (decide (k = f)) as [->|Hk].
        * intros _ _. apply HR'. now right.
        * rewrite lookup_insert_ne by congruence. intros H1 H2. apply HR'. left.
          now apply (Hqu k e').
      + intros k Hk. destruct (decide (k = f)) as [->|Hne]; [now right |].
        cbn [purger_invoke with_locks disk].
        destruct (Hstart k Hk Hne) as [Hf|[Hu|(e' & He' & Hin)]]; [now left | |].
        * right. left. cbn [purger_invoke with_locks unlinking]. apply elem_of_app. now left.
        * right. right. cbn [purger_invoke with_locks locks].
          rewrite lookup_insert_ne by congruence. now exists e'.
      + intros p Hp. cbn [purger_invoke with_locks disk]. apply Hfr. intros Hin. apply Hp.
        apply HR'. now left. }
  apply Hall. intros k. rewrite elem_of_app, list_elem_of_singleton. tauto.
Qed.

Lemma is_file_unlink (d : gmap string stats) f k :
  Fs.is_file (Fs.unlink d f) k = if decide (k = f) then false else Fs.is_file d k.
Proof.
  unfold Fs.is_file, Fs.unlink. destruct (decide (k = f)) as [->|Hk].
  - destruct (d !! f) as [st|] eqn:Hf.
    + destruct (isFile st) eqn:Hst.
      * now rewrite lookup_delete_eq.
      * now rewrite Hf.
    + now rewrite Hf.
  - destruct (d !! f) as [st|] eqn:Hf; [| reflexivity].
    destruct (isFile st); [| reflexivity].
    now rewrite lookup_delete_ne by congruence.
Qed.

Lemma lookup_unlink (d : gmap string stats) f p :
  p ≠ f → Fs.unlink d f !! p = d !! p.
Proof.
  intros Hp. unfold Fs.unlink. destruct (d !! f) as [st|]; [| reflexivity].
  destruct (isFile st); [| reflexivity]. now rewrite lookup_delete_ne by congruence.
Qed.

Lemma busy_positive k s :
  exclusive s → (0 < busy k s)%nat →
  busy k s = 1%nat
  ∧ ∃ e, locks s !! k = Some e ∧ Forall (queued_for k) (FileLocker.onRelease e).
Proof.
  intros Hex Hpos. specialize (Hex k). unfold exclusive_at in Hex.
  destruct (locks s !! k) as [e|]; [| lia].
  destruct Hex as [Hb Hq]. split; [exact Hb |]. now exists e.
Qed.

Lemma kept_step R d0 (e : purge_event P) s s' :
  kept R d0 s → purger_step e s = Some s' → kept (R ++ reported [e]) d0 s'.
Proof.
  intros Hk Hstep. destruct e as [δ|f|f|message|file p|i]; cbn [purger_step reported] in *.
  - (* Tick *)
    rewrite app_nil_r. destruct (0 <=? δ); [| discriminate].
    apply (inj Some) in Hstep. subst s'. exact Hk.
  - (* Data *)
    apply (inj Some) in Hstep. subst s'. now apply kept_report.
  - (* Unlinked *)
    rewrite app_nil_r.
    destruct (take_out f (unlinking s)) as [rest|] eqn:Hout; [| discriminate].
    apply (inj Some) in Hstep. subst s'. unfold on_unlinked. cbn [locks disk now unlinking working logged].
    destruct Hk as (Hex & Hun & Hqu & Hpe & Hfr).
    destruct (take_out_elem _ _ _ Hout) as (Hin & Hsub & Hrest).
    assert (Hpos : (0 < busy f s)%nat).
    { unfold busy. rewrite (take_out_count f _ _ f Hout), String.eqb_refl. lia. }
    destruct (busy_positive f s Hex Hpos) as (Hone & e & He & Hq).
    apply kept_unlock.
    split; [| split; [| split; [| split; [| split; [| split]]]]].
    + intros k Hne. pose proof (Hex k) as Hk. unfold exclusive_at, busy in *.
      cbn [locks unlinking working].
      rewrite (take_out_count f _ _ k Hout), eqb_other in Hk by exact Hne.
      now rewrite Nat.add_0_r in Hk.
    + unfold busy in *. cbn [unlinking working].
      rewrite (take_out_count f _ _ f Hout), String.eqb_refl in Hone. lia.
    + cbn [locks]. intros e' He'. rewrite He in He'. now injection He' as <-.
    + cbn [unlinking]. intros g Hg. apply Hun. now apply Hsub.
    + cbn [locks]. exact Hqu.
    + intros k Hk. cbn [disk]. rewrite is_file_unlink.
      destruct (decide (k = f)) as [->|Hne]; [now left |].
      destruct (Hpe k Hk) as [Hf|[Hu|Hw]]; [now left | |].
      * right. left. cbn [unlinking]. now apply Hrest.
      * right. right. exact Hw.
    + intros p Hp. cbn [disk]. rewrite lookup_unlink; [now apply Hfr |].
      intros ->. apply Hp. now apply Hun.
  - (* FinderError *)
    rewrite app_nil_r. apply (inj Some) in Hstep. subst s'. exact Hk.
  - (* OtherLock *)
    rewrite app_nil_r. apply (inj Some) in Hstep. subst s'.
    apply kept_lock; [exact I | discriminate | exact Hk].
  - (* OtherUnlock *)
    rewrite app_nil_r.
    destruct (working s !! i) as [[file p]|] eqn:Hi; [| discriminate].
    apply (inj Some) in Hstep. subst s'.
    destruct Hk as (Hex & Hun & Hqu & Hpe & Hfr).
    assert (Hpos : (0 < busy file s)%nat).
    { unfold busy. rewrite (delete_count _ _ _ _ file Hi), String.eqb_refl. lia. }
    destruct (busy_positive file s Hex Hpos) as (Hone & e & He & Hq).
    apply kept_unlock.
    split; [| split; [| split; [| split; [| split; [| split]]]]].
    + intros k Hne. pose proof (Hex k) as Hk. unfold exclusive_at, busy in *.
      cbn [locks unlinking working].
      rewrite (delete_count _ _ _ _ k Hi), eqb_other in Hk by exact Hne.
      now rewrite Nat.add_0_r in Hk.
    + unfold busy in *. cbn [unlinking working].
      rewrite (delete_count _ _ _ _ file Hi), String.eqb_refl in Hone. lia.
    + cbn [locks]. intros e' He'. rewrite He in He'. now injection He' as <-.
    + exact Hun.
    + exact Hqu.
    + exact Hpe.
    + exact Hfr.
Qed.

Lemma reported_cons (e : purge_event P) es : reported (e :: es) = reported [e] ++ reported es.
Proof. destruct e; simpl; now rewrite ?app_nil_r. Qed.

Lemma kept_run d0 es : ∀ R s s',
  kept R d0 s → purger_run es s = Some s' → kept (R ++ reported es) d0 s'.
Proof.
  induction es as [|e es IH]; intros R s s' Hk Hrun.
  - simpl in *. rewrite app_nil_r. now injection Hrun as <-.
  - cbn [purger_run] in Hrun. destruct (purger_step e s) as [s1|] eqn:Hstep; [| discriminate].
    rewrite reported_cons, app_assoc.
    exact (IH _ _ _ (kept_step _ _ _ _ _ Hk Hstep) Hrun).
Qed.

Lemma kept_idle d0 now0 : kept [] d0 (purger_idle (P := P) d0 now0).
Proof.
  split; [| split; [| split; [| split]]].
  - intros k. unfold exclusive_at. cbn. now rewrite lookup_empty.
  - cbn. intros f Hf. now apply not_elem_of_nil in Hf.
  - cbn. intros k e He. now rewrite lookup_empty in He.
  - intros k Hk. now apply not_elem_of_nil in Hk.
  - reflexivity.
Qed.

Lemma busy_members k s :
  (busy k s ≤ 1)%nat → k ∈ unlinking s → ∀ i p, working s !! i ≠ Some (k, p).
Proof.
  unfold busy. intros Hb Hin i p Hi.
  assert (H1 : (0 < List.length (List.filter (λ f, String.eqb f k) (unlinking s)))%nat).
  { assert (Hf : k ∈ List.filter (λ f, String.eqb f k) (unlinking s)).
    { apply list_elem_of_In, List.filter_In. split; [now apply list_elem_of_In |].
      apply String.eqb_refl. }
    destruct (List.filter _ (unlinking s)); [now apply not_elem_of_nil in Hf | simpl; lia]. }
  rewrite (delete_count _ _ _ _ k Hi), String.eqb_refl in Hb. lia.
Qed.

End Facts.
End StaleFacts.


(** ** The further properties at the scenarios *)

(** A premise that holds by evaluation. *)
Ltac evaluated :=
  first [ reflexivity | lia
        | vm_compute; first [reflexivity | lia | discriminate | solve [constructor]] ].

Ltac is_accepted := split; [reflexivity | now left].

Lemma FileLocker_fifo_service_witness :
  LockerLaw.released "k"
    [FileLocker.Lock "k" 1%nat 10; FileLocker.Lock "k" 2%nat 11;
     FileLocker.Lock "j" 7%nat 12; FileLocker.Unlock "k" 13;
     FileLocker.Unlock "k" 14] ∅
  = [1%nat; 2%nat].
Proof.
  apply (FileLocker_fifo_service (P:=nat) "k"); [apply lookup_empty | reflexivity].
Defined.

Lemma fetch_hit_witness :
  ∃ s', run test_options [EvFetch test_url; EvTick 5; EvStat 0 None] seeded = Some s'
        ∧ outcomes 0 (trace s') = [Delivered test_filename 0 10000]
        ∧ sent (trace s') = 0%nat.
Proof.
  eexists. split.
  - apply (fetch_hit test_options test_url seeded (Stats true 18 0 10000) 5);
      evaluated.
  - vm_compute. split; reflexivity.
Defined.




Lemma failure_is_retried_witness :
  ∃ s', run test_options [EvUnlinkPart 0; EvStat 1 None; EvMkdir 1 None] two_refused
        = Some s'
        ∧ outcomes 0 (trace s')
          = [Failed (JsError
               "Upstream http://example.com/path failed: connect ECONNREFUSED 127.0.0.1:50000"
               (JNumber 504))]
        ∧ sent (trace s') = 2%nat
        ∧ tasks s' = [TGet (test_call 1)].
Proof.
  eexists. split.
  - apply (failure_is_retried test_options two_refused (test_call 0) (test_call 1)
             (errorWithCode "connect ECONNREFUSED 127.0.0.1:50000" 504) []
             (FileLocker.Entry 0 [ProceedFetch (test_call 1)]) []);
      [vm_compute; reflexivity | vm_compute; constructor | constructor | reflexivity
      | vm_compute; reflexivity | reflexivity | vm_compute; reflexivity].
  - vm_compute. repeat split; reflexivity.
Defined.


Lemma locks_follow_work_witness :
  (∀ k, is_Some (lockedFiles two_callers !! k) →
        ∃ t, t ∈ tasks two_callers ∧ live t = true ∧ task_file t = k)
  ∧ (quiescent two_callers → lockedFiles two_callers = ∅).
Proof.
  apply (locks_follow_work test_options ∅ 0 two_callers_events two_callers);
    [reflexivity | apply RunFacts.ran; vm_compute; eauto].
Defined.

Lemma calls_answered_at_rest_witness :
  List.length (outcomes 0 (trace served)) = 1%nat.
Proof.
  apply (calls_answered_at_rest test_options {[test_filename := Stats true 18 0 10000]} 0
           served_events served 0);
    [reflexivity | apply RunFacts.ran; vm_compute; eauto | vm_compute; constructor
    | vm_compute; lia].
Defined.


Lemma one_request_per_fetch_witness :
  (∀ d, (requested d (trace two_callers) ≤ 1)%nat)
  ∧ (∀ u, (requests_for u (trace two_callers) ≤ fetches_of u two_callers_events)%nat).
Proof.
  apply (one_request_per_fetch test_options ∅ 0 two_callers_events two_callers).
  apply RunFacts.ran. vm_compute. eauto.
Defined.

Lemma no_timer_without_timeout_witness :
  let s := default idle (run no_timeout_options
                           [EvFetch test_url; EvStat 0 None; EvMkdir 0 None;
                            EvGetResponse 0 ok_response] idle) in
  Forall (λ t, untimed t = true) (tasks s)
  ∧ step no_timeout_options (EvTimer 0) s = None.
Proof.
  intros s.
  apply (no_timer_without_timeout no_timeout_options ∅ 0
           [EvFetch test_url; EvStat 0 None; EvMkdir 0 None; EvGetResponse 0 ok_response]
           s 0).
  - vm_compute. discriminate.
  - apply RunFacts.ran. vm_compute. eauto.
Defined.

Lemma body_end_clears_timer_witness :
  step test_options (EvTimer 0) downloaded = None.
Proof.
  apply (body_end_clears_timer test_options (test_call 0) receiving downloaded
           ok_response (Some 10000) [] [] (EvBodyEnd 0 18) [EvFileClose 0]).
  - vm_compute. reflexivity.
  - constructor.
  - left. now exists 18.
  - reflexivity.
  - vm_compute. reflexivity.
Defined.


